(** * sshesame: the command interpreter, the in-memory filesystem,
      the authentication callbacks and the channel handlers

    A shallow embedding of the Go sources.  Go values are modelled as
    follows.

    - [uint32] and [uint64] are integers in [Z]; conversions write the
      wrap-around out ([to_uint32]).
    - A Go [string] is a byte string ([String.string]).
    - A Go [error] is modelled by its message.
    - [io.Writer] and [readLiner] values are handles into a [Runtime]
      record: every [Write] call is appended to one global log, tagged
      with the handle written to, so that two contexts sharing a writer
      (stderr merged into stdout) are covered as well.
    - Code that can panic (a write into a nil map, a slice out of range)
      returns [Panic]; the recursion between the executor, the shell and
      [su] is driven by fuel and returns [OutOfFuel] when it runs out. *)

From Stdlib Require Import ZArith String Ascii List Lia Permutation.
From Stdlib Require Import DecimalString.
From Stdlib.Strings Require Import Byte.
From stdpp Require Import base gmap strings list fin_maps.

Import ListNotations.
Local Open Scope string_scope.
Local Open Scope Z_scope.

(** ** Characters and small strings *)

Definition HT : ascii := "009"%char.
Definition LF : ascii := "010"%char.
Definition VT : ascii := "011"%char.
Definition FF : ascii := "012"%char.
Definition CR : ascii := "013"%char.
Definition SP : ascii := "032"%char.
Definition DQUOTE : ascii := "034"%char.
Definition SLASH : ascii := "047"%char.

Definition nl : string := String LF EmptyString.
Definition crlf : string := String CR (String LF EmptyString).
Definition dquote : string := String DQUOTE EmptyString.

(** ** Go integers *)

Definition uint32 := Z.
Definition uint64 := Z.
Definition to_uint32 (z : Z) : uint32 := z mod 2 ^ 32.

(** ** Go errors *)

Definition error := string.
Definition EOF : error := "EOF".

(** ** Packages [unicode/utf8] and [unicode] *)

Definition rune := Z.

(** The value of a byte of a string. *)
Definition byte_value (c : ascii) : Z := Z.of_N (N_of_ascii c).

Module utf8.

Definition RuneError : rune := 0xFFFD.
Definition RuneSelf : Z := 0x80.

(** The tables [first] and [acceptRanges] for a leading byte that is not
    ASCII: the number of bytes of the encoding and the range the second
    byte must lie in; [None] is the entry [xx] of a byte that starts no
    encoding. *)
Definition first (s0 : Z) : option (nat * Z * Z) :=
  if s0 <? 0xC2 then None
  else if s0 <=? 0xDF then Some (2%nat, 0x80, 0xBF)
  else if s0 =? 0xE0 then Some (3%nat, 0xA0, 0xBF)
  else if s0 <=? 0xEC then Some (3%nat, 0x80, 0xBF)
  else if s0 =? 0xED then Some (3%nat, 0x80, 0x9F)
  else if s0 <=? 0xEF then Some (3%nat, 0x80, 0xBF)
  else if s0 =? 0xF0 then Some (4%nat, 0x90, 0xBF)
  else if s0 <=? 0xF3 then Some (4%nat, 0x80, 0xBF)
  else if s0 =? 0xF4 then Some (4%nat, 0x80, 0x8F)
  else None.

(** A continuation byte lies in [locb, hicb]. *)
Definition continuation (b : Z) : bool := (0x80 <=? b) && (b <=? 0xBF).

(** [utf8.DecodeRuneInString]: the first rune of [s] and the number of
    bytes of its encoding; a byte that starts no valid encoding is
    [RuneError] of width 1. *)
Definition DecodeRuneInString (s : string) : rune * nat :=
  match s with
  | EmptyString => (RuneError, 0%nat)
  | String c0 rest =>
      let s0 := byte_value c0 in
      if s0 <? RuneSelf then (s0, 1%nat)
      else
        match first s0 with
        | None => (RuneError, 1%nat)
        | Some (sz, lo, hi) =>
            if (String.length s <? sz)%nat then (RuneError, 1%nat)
            else
              match rest with
              | EmptyString => (RuneError, 1%nat)
              | String c1 rest =>
                  let s1 := byte_value c1 in
                  if (s1 <? lo) || (hi <? s1) then (RuneError, 1%nat)
                  else if (sz <=? 2)%nat then
                    (Z.lor (Z.shiftl (Z.land s0 0x1F) 6) (Z.land s1 0x3F),
                     2%nat)
                  else
                    match rest with
                    | EmptyString => (RuneError, 1%nat)
                    | String c2 rest =>
                        let s2 := byte_value c2 in
                        if negb (continuation s2) then (RuneError, 1%nat)
                        else if (sz <=? 3)%nat then
                          (Z.lor (Z.shiftl (Z.land s0 0x0F) 12)
                             (Z.lor (Z.shiftl (Z.land s1 0x3F) 6)
                                (Z.land s2 0x3F)),
                           3%nat)
                        else
                          match rest with
                          | EmptyString => (RuneError, 1%nat)
                          | String c3 _ =>
                              let s3 := byte_value c3 in
                              if negb (continuation s3) then (RuneError, 1%nat)
                              else
                                (Z.lor (Z.shiftl (Z.land s0 0x07) 18)
                                   (Z.lor (Z.shiftl (Z.land s1 0x3F) 12)
                                      (Z.lor (Z.shiftl (Z.land s2 0x3F) 6)
                                         (Z.land s3 0x3F))),
                                 4%nat)
                          end
                    end
              end
        end
  end.

(** The bytes of [s] from the index [n] on. *)
Fixpoint drop_bytes (n : nat) (s : string) : string :=
  match n, s with
  | S n', String _ s' => drop_bytes n' s'
  | _, _ => s
  end.

(** What [for _, r := range s] goes through: the runes of [s] in order,
    each with the bytes it was decoded from.  [fuel] bounds the number of
    runes; the length of [s] is enough. *)
Fixpoint range_from (fuel : nat) (s : string) : list (rune * string) :=
  match fuel, s with
  | S fuel', String _ _ =>
      let '(r, size) := DecodeRuneInString s in
      (r, String.substring 0 size s) :: range_from fuel' (drop_bytes size s)
  | _, _ => []
  end.

Definition range (s : string) : list (rune * string) :=
  range_from (String.length s) s.

End utf8.

Module unicode.

(** [unicode.IsSpace]: in Latin-1 the six ASCII characters, U+0085 and
    U+00A0; above it the other code points of the table [White_Space]. *)
Definition IsSpace (r : rune) : bool :=
  if (0 <=? r) && (r <=? 0xFF) then
    (r =? 0x09) || (r =? 0x0A) || (r =? 0x0B) || (r =? 0x0C) || (r =? 0x0D)
    || (r =? 0x20) || (r =? 0x85) || (r =? 0xA0)
  else
    (r =? 0x1680) || ((0x2000 <=? r) && (r <=? 0x200A))
    || (r =? 0x2028) || (r =? 0x2029) || (r =? 0x202F) || (r =? 0x205F)
    || (r =? 0x3000).

End unicode.

(** ** Package [strings] *)

Module strings.

(** The table [asciiSpace]: tab, newline, vertical tab, form feed,
    carriage return and space. *)
Definition asciiSpace (c : ascii) : bool :=
  (Ascii.eqb c HT || Ascii.eqb c LF || Ascii.eqb c VT
   || Ascii.eqb c FF || Ascii.eqb c CR || Ascii.eqb c SP)%bool.

(** The path of [strings.Fields] for a string of ASCII bytes: the maximal
    runs of bytes that are not white space, in order. *)
Fixpoint fields_ascii (s : string) : list string :=
  match s with
  | EmptyString => []
  | String c s' =>
      if asciiSpace c then fields_ascii s'
      else match s' with
           | EmptyString => [String c EmptyString]
           | String c' _ =>
               if asciiSpace c' then String c EmptyString :: fields_ascii s'
               else match fields_ascii s' with
                    | t :: ts => String c t :: ts
                    | [] => [String c EmptyString]
                    end
           end
  end.

(** The loop of [strings.FieldsFunc] over the runes still to come;
    [field] is the open span, the bytes from [start] on, when
    [start >= 0]. *)
Fixpoint fields_from (f : rune -> bool) (runes : list (rune * string))
    (field : option string) : list string :=
  match runes with
  | [] =>
      match field with
      | Some t => [t]
      | None => []
      end
  | (r, bytes) :: runes' =>
      if f r then
        match field with
        | Some t => t :: fields_from f runes' None
        | None => fields_from f runes' None
        end
      else
        match field with
        | Some t => fields_from f runes' (Some (t ++ bytes))
        | None => fields_from f runes' (Some bytes)
        end
  end.

(** [strings.FieldsFunc]: the maximal runs of runes that do not satisfy
    [f]. *)
Definition FieldsFunc (s : string) (f : rune -> bool) : list string :=
  fields_from f (utf8.range s) None.

(** Some byte of [s] is not ASCII: [setBits >= utf8.RuneSelf]. *)
Fixpoint has_non_ascii (s : string) : bool :=
  match s with
  | EmptyString => false
  | String c s' => (utf8.RuneSelf <=? byte_value c) || has_non_ascii s'
  end.

(** [strings.Fields]: the fields of [s] between white space.  A string
    with a byte that is not ASCII is split by [FieldsFunc] at the runes
    of [unicode.IsSpace]; a string of ASCII bytes at the bytes of
    [asciiSpace]. *)
Definition Fields (s : string) : list string :=
  if has_non_ascii s then FieldsFunc s unicode.IsSpace
  else fields_ascii s.

(** [strings.Split] with a separator of one byte. *)
Fixpoint Split (s : string) (sep : ascii) : list string :=
  match s with
  | EmptyString => [EmptyString]
  | String c s' =>
      if Ascii.eqb c sep then EmptyString :: Split s' sep
      else match Split s' sep with
           | t :: ts => String c t :: ts
           | [] => [String c EmptyString]
           end
  end.

(** [strings.Join]. *)
Definition Join (elems : list string) (sep : string) : string :=
  String.concat sep elems.

(** [strings.HasSuffix]. *)
Definition HasSuffix (s suffix : string) : bool :=
  let n := String.length s in
  let k := String.length suffix in
  (k <=? n)%nat && String.eqb (String.substring (n - k) k s) suffix.

(** [strings.ReplaceAll s old new]: the occurrences of [old] are found
    from left to right and do not overlap.  [skip] counts the bytes of the
    occurrence just replaced that are still to be dropped.  The callers
    pass a non-empty [old]; the empty [old], which Go matches before every
    character, is not modelled and leaves [s] as it is. *)
Fixpoint replace_from (s old new : string) (skip : nat) : string :=
  match s with
  | EmptyString => EmptyString
  | String c s' =>
      match skip with
      | S k => replace_from s' old new k
      | O =>
          if String.prefix old s
          then new ++ replace_from s' old new (String.length old - 1)
          else String c (replace_from s' old new 0)
      end
  end.

Definition ReplaceAll (s old new : string) : string :=
  match old with
  | EmptyString => s
  | _ => replace_from s old new 0
  end.

End strings.

(** ** Package [strconv] *)

Module strconv.

Definition ErrSyntax : error := "invalid syntax".
Definition ErrRange : error := "value out of range".

Definition maxUint64 : Z := 2 ^ 64 - 1.

Definition is_digit (c : ascii) : bool :=
  (48 <=? Z.of_nat (nat_of_ascii c)) && (Z.of_nat (nat_of_ascii c) <=? 57).

Definition digit_val (c : ascii) : Z := Z.of_nat (nat_of_ascii c) - 48.

(** The digit loop of [strconv.ParseUint] at base 10: [n] is the value
    read so far, [maxVal] the largest value of the requested size. *)
Fixpoint parse_digits (s : string) (n maxVal : Z) : uint64 * option error :=
  match s with
  | EmptyString => (n, None)
  | String c s' =>
      if negb (is_digit c) then (0, Some ErrSyntax)
      else
        let cutoff := maxUint64 / 10 + 1 in
        if cutoff <=? n then (maxVal, Some ErrRange)
        else
          let n10 := n * 10 in
          let n1 := n10 + digit_val c in
          if (maxUint64 <? n1) || (maxVal <? n1) then (maxVal, Some ErrRange)
          else parse_digits s' n1 maxVal
  end.

(** [strconv.ParseUint(s, 10, bitSize)] for [0 < bitSize <= 64]. *)
Definition ParseUint10 (s : string) (bitSize : Z) : uint64 * option error :=
  match s with
  | EmptyString => (0, Some ErrSyntax)
  | _ => parse_digits s 0 (2 ^ bitSize - 1)
  end.

End strconv.

(** ** Package [path/filepath] (Unix) *)

Module filepath.

(** One step of the lexical clean-up: [out] holds the elements kept so
    far, innermost first. *)
Definition clean_step (rooted : bool) (out : list string) (elem : string)
  : list string :=
  if String.eqb elem EmptyString || String.eqb elem "." then out
  else if String.eqb elem ".." then
    match out with
    | top :: rest => if String.eqb top ".." then elem :: out else rest
    | [] => if rooted then [] else [elem]
    end
  else elem :: out.

(** [filepath.Clean]: multiple separators are collapsed, [.] elements
    are dropped, an inner [..] removes the element before it, a [..]
    at the start of a rooted path is dropped, and the empty result is
    [.]. *)
Definition Clean (path : string) : string :=
  match path with
  | EmptyString => "."
  | String c _ =>
      let rooted := Ascii.eqb c SLASH in
      let out := fold_left (clean_step rooted) (strings.Split path SLASH) [] in
      let body := strings.Join (rev out) "/" in
      if rooted then "/" ++ body
      else if String.eqb body EmptyString then "." else body
  end.

End filepath.

(** ** Outcomes and the state monad of the interpreter *)

Inductive outcome (A : Type) : Type :=
| Ret (a : A)
| Panic (msg : string)
| OutOfFuel.
Arguments Ret {A} a.
Arguments Panic {A} msg.
Arguments OutOfFuel {A}.

Definition M (W A : Type) : Type := W -> outcome (A * W).

Definition ret {W A : Type} (a : A) : M W A := fun w => Ret (a, w).

Definition bind {W A B : Type} (c : M W A) (k : A -> M W B) : M W B :=
  fun w =>
    match c w with
    | Ret (a, w') => k a w'
    | Panic msg => Panic msg
    | OutOfFuel => OutOfFuel
    end.

Definition panic {W A : Type} (msg : string) : M W A := fun _ => Panic msg.
Definition out_of_fuel {W A : Type} : M W A := fun _ => OutOfFuel.

Notation "c >>= k" := (bind c k) (at level 50, left associativity).

(** [for x := range xs { body }] where [body] may return from the
    enclosing function: [Some r] is [return r], [None] goes on with the
    next element; [after] is the code after the loop. *)
Fixpoint for_range {W A R : Type} (xs : list A) (body : A -> M W (option R))
    (after : M W R) : M W R :=
  match xs with
  | [] => after
  | x :: xs' =>
      body x >>= fun r =>
      match r with
      | Some v => ret v
      | None => for_range xs' body after
      end
  end.

(** The same loop with a variable [s] that the body updates: [inl s'] goes
    on with [s'], [inr r] is [return r]. *)
Fixpoint for_fold {W A S R : Type} (xs : list A) (s : S)
    (body : A -> S -> M W (S + R)) (after : S -> M W R) : M W R :=
  match xs with
  | [] => after s
  | x :: xs' =>
      body x s >>= fun r =>
      match r with
      | inl s' => for_fold xs' s' body after
      | inr v => ret v
      end
  end.

(** ** The runtime: writers, line readers, map iteration order *)

(** The order in which a [range] over a Go map visits the keys: some
    permutation of them, possibly another one at every loop. *)
Record MapOrder : Type := {
  order_of : nat -> list string -> list string;
  order_perm : forall n l, Permutation (order_of n l) l
}.

Record Runtime : Type := {
  (** the lines each [readLiner] still has to deliver *)
  readers : gmap nat (list string);
  (** every [Write] call so far, oldest first: the writer and the bytes *)
  written : list (nat * string);
  (** the error a [Write] call returns, given the calls before it *)
  write_error : list (nat * string) -> nat -> string -> option error;
  (** the number of [range] loops over maps run so far *)
  ranges : nat;
  range_order : MapOrder
}.

(** The runtime after one more [Write] call. *)
Definition record_write (w : nat) (data : string) (rt : Runtime) : Runtime :=
  {| readers := readers rt;
     written := written rt ++ [(w, data)];
     write_error := write_error rt;
     ranges := ranges rt;
     range_order := range_order rt |}.

Class HasRuntime (W : Type) : Type := {
  get_runtime : W -> Runtime;
  set_runtime : Runtime -> W -> W
}.

Section IO.
Context {W : Type} `{HasRuntime W}.

(** One [Write] call on the writer [w]. *)
Definition Write (w : nat) (data : string) : M W (option error) :=
  fun st =>
    let rt := get_runtime st in
    Ret (write_error rt (written rt) w data,
         set_runtime (record_write w data rt) st).

(** [fmt.Fprint(w, s)] and [fmt.Fprintln(w, s)] with one string operand;
    a [fmt.Fprintf] call is its formatted text passed to [Fprint]. *)
Definition Fprint (w : nat) (s : string) : M W (option error) := Write w s.
Definition Fprintln (w : nat) (s : string) : M W (option error) :=
  Write w (s ++ nl).

(** [ReadLine] on the reader [r]: the next line, or [io.EOF]. *)
Definition ReadLine (r : nat) : M W (string * option error) :=
  fun st =>
    let rt := get_runtime st in
    match readers rt !! r with
    | Some (line :: rest) =>
        let rt' := {| readers := <[r := rest]> (readers rt);
                      written := written rt;
                      write_error := write_error rt;
                      ranges := ranges rt;
                      range_order := range_order rt |} in
        Ret ((line, None), set_runtime rt' st)
    | _ => Ret ((EmptyString, Some EOF), st)
    end.

(** The keys of a map in the order a [range] loop visits them. *)
Definition range_keys (keys : list string) : M W (list string) :=
  fun st =>
    let rt := get_runtime st in
    let rt' := {| readers := readers rt;
                  written := written rt;
                  write_error := write_error rt;
                  ranges := S (ranges rt);
                  range_order := range_order rt |} in
    Ret (order_of (range_order rt) (ranges rt) keys, set_runtime rt' st).
End IO.

(** ** The command context and the shell's pure parts *)

Record commandContext : Type := {
  args : list string;
  stdin : nat;
  stdout : nat;
  stderr : nat;
  pty : bool;
  user : string
}.

Definition with_args (context : commandContext) (a : list string)
  : commandContext :=
  {| args := a; stdin := stdin context; stdout := stdout context;
     stderr := stderr context; pty := pty context; user := user context |}.

Definition with_user (context : commandContext) (u : string)
  : commandContext :=
  {| args := args context; stdin := stdin context; stdout := stdout context;
     stderr := stderr context; pty := pty context; user := u |}.

(** What a command returns: the exit status and the I/O error. *)
Definition result : Type := uint32 * option error.

Definition shellProgram : list string := ["sh"].

(** The prompt [cmdShell.execute] computes before its loop. *)
Definition shell_prompt (context : commandContext) : string :=
  if pty context then
    if String.eqb (user context) "root" then "# " else "$ "
  else EmptyString.

(** The [exit] branch of the shell loop: the status the shell returns for
    the tokens [args] (the first is [exit]) when the last status is
    [lastStatus]. *)
Definition exit_status (lastStatus : uint32) (args : list string) : uint32 :=
  let status : uint64 := lastStatus in
  let status :=
    match args with
    | _ :: arg1 :: _ =>
        let '(status, err) := strconv.ParseUint10 arg1 32 in
        match err with
        | Some _ => 255
        | None => status
        end
    | _ => status
    end in
  to_uint32 status.

Definition touch_usage : string :=
  "usage: touch [-A [-][[hh]mm]SS] [-achm] [-r file] [-t [[CC]YY]MMDDhhmm[.SS]]"
  ++ nl ++ "[-d YYYY-MM-DDThh:mm:SS[.frac][tz]] file ...".

Definition usr_txt : string := "eberk0, cswyne, edan, aroullier, john, henk".
Definition pwd_txt : string :=
  "$2a$04$3ise9UoQ38ceyn6qUmb8neC8UyQnfNiog8ObMSPx.4KLV/vYU0XaC, $2a$04$Z2Orf4kkPuwncqrXae7L1uE5elj1Em9fhw4f8PmwS4POBAdvfzRPa, $2a$04$NkF1cDQf6CSkF83zfucmtO8.yChntXtG8HLB2zJJiZTiKIR2yHbTa, $2a$04$VFAUxOCo5hZuKjQqN6FW/.6TNoLQjFdId02Fk0pPhC0NmWiyUjwCW, $2a$04$y/dBmr4B7zWaNGpTNpjqUuZRHz9bxBaH0LwfEouan2283rBxoLWxu, $2a$04$ATK3lPdtQokdeoBJh.aOweV9h9yU6SMSQ24b7jXDZeUoHC0sMWmZS".
Definition cc_txt : string :=
  "null, 4936739041871256, null, 5133014750298309, 3531203913896199, 4405957561612502".

(** The body of the loop of [ls] for the name [file], the same in both
    versions. *)
Definition ls_file {W : Type} `{HasRuntime W} (context : commandContext)
    (file : string) : M W (option result) :=
  Fprintln (stdout context) file >>= fun err =>
  match err with
  | Some e => ret (Some (1, Some e))
  | None => ret None
  end.

(** ** The tree filesystem and its commands

    The version of the command interpreter in [src/unnamed/part_001]: the
    filesystem is a tree of nodes reached through pointers, with a current
    directory and a path string, and the registry has [mkdir], [cd] and
    [pwd]. *)

Module Tree.

(** A [*FileSystemNode] is a location of the heap. *)
Definition loc := nat.

(** [Children] is [None] for the nil map of a node built without one. *)
Record FileSystemNode : Type := {
  IsDir : bool;
  Content : string;
  Children : option (gmap string loc)
}.

Record FileSystemType : Type := {
  Root : loc;
  Current : loc;
  Path : string
}.

(** The state of the process: the nodes allocated so far, the global
    variable [FileSystem], and the runtime. *)
Record World : Type := {
  heap : gmap loc FileSystemNode;
  FileSystem : FileSystemType;
  runtime : Runtime
}.

#[global] Instance World_runtime : HasRuntime World := {
  get_runtime := runtime;
  set_runtime rt w :=
    {| heap := heap w; FileSystem := FileSystem w; runtime := rt |}
}.

Definition set_heap (h : gmap loc FileSystemNode) (w : World) : World :=
  {| heap := h; FileSystem := FileSystem w; runtime := runtime w |}.

Definition set_FileSystem (fs : FileSystemType) (w : World) : World :=
  {| heap := heap w; FileSystem := fs; runtime := runtime w |}.

(** [&FileSystemNode{...}]: the node is stored at a location not in use. *)
Definition new (n : FileSystemNode) : M World loc :=
  fun w =>
    let l := fresh (dom (heap w)) in
    Ret (l, set_heap (<[l := n]> (heap w)) w).

(** Reading the fields of the node a pointer leads to. *)
Definition deref (l : loc) : M World FileSystemNode :=
  fun w =>
    match heap w !! l with
    | Some n => Ret (n, w)
    | None => Panic "invalid memory address or nil pointer dereference"
    end.

(** [n.Children[name]] read: a nil map has no entries. *)
Definition lookup_child (n : FileSystemNode) (name : string) : option loc :=
  match Children n with
  | Some m => m !! name
  | None => None
  end.

(** [node.Children[name] = child]: panics on a nil map. *)
Definition set_child (node : loc) (name : string) (child : loc) : M World unit :=
  deref node >>= fun n =>
  match Children n with
  | None => panic "assignment to entry in nil map"
  | Some m =>
      fun w =>
        let n' := {| IsDir := IsDir n; Content := Content n;
                     Children := Some (<[name := child]> m) |} in
        Ret (tt, set_heap (<[node := n']> (heap w)) w)
  end.

Definition file_node (content : string) : FileSystemNode :=
  {| IsDir := false; Content := content; Children := None |}.

Definition dir_node : FileSystemNode :=
  {| IsDir := true; Content := EmptyString; Children := Some ∅ |}.

(** The variable [FileSystem] after its initialiser and [init]. *)
Definition init_heap : gmap loc FileSystemNode :=
  {[ 0%nat := {| IsDir := true; Content := EmptyString;
                 Children := Some {[ "usr.txt" := 1%nat;
                                     "pwd.txt" := 2%nat;
                                     "checking_account.txt" := 3%nat ]} |};
     1%nat := file_node usr_txt;
     2%nat := file_node pwd_txt;
     3%nat := file_node cc_txt ]}.

Definition init_FileSystem : FileSystemType :=
  {| Root := 0%nat; Current := 0%nat; Path := "/" |}.

Definition init_world (rt : Runtime) : World :=
  {| heap := init_heap; FileSystem := init_FileSystem; runtime := rt |}.

Definition get_FileSystem : M World FileSystemType :=
  fun w => Ret (FileSystem w, w).

Definition put_FileSystem (fs : FileSystemType) : M World unit :=
  fun w => Ret (tt, set_FileSystem fs w).

Definition set_Current_Path (node : loc) (path : string) : M World unit :=
  get_FileSystem >>= fun fs =>
  put_FileSystem {| Root := Root fs; Current := node; Path := path |}.

Inductive command : Type :=
| cmdShell | cmdTrue | cmdFalse | cmdEcho | cmdCat | cmdLs | cmdTouch
| cmdMkdir | cmdCd | cmdPwd | cmdSu.

Definition commands : gmap string command :=
  {[ "sh" := cmdShell; "true" := cmdTrue; "false" := cmdFalse;
     "echo" := cmdEcho; "cat" := cmdCat; "ls" := cmdLs;
     "touch" := cmdTouch; "mkdir" := cmdMkdir; "cd" := cmdCd;
     "pwd" := cmdPwd; "su" := cmdSu ]}.

Definition cmdTrue_execute (context : commandContext) : M World result :=
  ret (0, None).

Definition cmdFalse_execute (context : commandContext) : M World result :=
  ret (1, None).

Definition cmdEcho_execute (context : commandContext) : M World result :=
  match args context with
  | [] => panic "slice bounds out of range [1:0]"
  | _ :: rest =>
      Fprintln (stdout context) (strings.Join rest " ") >>= fun err =>
      ret (0, err)
  end.

Definition cmdPwd_execute (context : commandContext) : M World result :=
  get_FileSystem >>= fun fs =>
  Fprintln (stdout context) (Path fs) >>= fun err =>
  ret (0, err).

(** The body of the inner loop of [mkdir], for one element [part] of the
    path and the directory [node] reached so far. *)
Definition mkdir_part (part : string) (node : loc)
  : M World (loc + option result) :=
  if String.eqb part EmptyString then ret (inl node)
  else
    deref node >>= fun n =>
    (match lookup_child n part with
     | Some _ => ret tt
     | None => new dir_node >>= fun child => set_child node part child
     end) >>= fun _ =>
    deref node >>= fun n' =>
    match lookup_child n' part with
    | Some child => ret (inl child)
    | None => panic "invalid memory address or nil pointer dereference"
    end.

Definition cmdMkdir_execute (context : commandContext) : M World result :=
  if (length (args context) <? 2)%nat then
    Fprintln (stderr context) "mkdir: missing operand" >>= fun err =>
    ret (1, err)
  else
    for_range (tail (args context))
      (fun dir =>
         let parts := strings.Split (filepath.Clean dir) SLASH in
         get_FileSystem >>= fun fs =>
         for_fold parts (Current fs) mkdir_part (fun _ => ret None))
      (ret (0, None)).

(** The body of the loop of [cd] for one element [part]. *)
Definition cd_part (context : commandContext) (targetPath : string)
    (part : string) (node : loc) : M World (loc + result) :=
  if String.eqb part ".." then ret (inl node)
  else if String.eqb part "." || String.eqb part EmptyString then ret (inl node)
  else
    deref node >>= fun n =>
    match lookup_child n part with
    | Some child =>
        deref child >>= fun c =>
        if IsDir c then ret (inl child)
        else
          Fprint (stderr context)
            ("cd: " ++ targetPath ++ ": No such file or directory" ++ nl)
          >>= fun err => ret (inr (1, err))
    | None =>
        Fprint (stderr context)
          ("cd: " ++ targetPath ++ ": No such file or directory" ++ nl)
        >>= fun err => ret (inr (1, err))
    end.

Definition cmdCd_execute (context : commandContext) : M World result :=
  match args context with
  | _ :: arg1 :: _ =>
      let targetPath := filepath.Clean arg1 in
      if String.eqb targetPath "/" then
        get_FileSystem >>= fun fs =>
        set_Current_Path (Root fs) "/" >>= fun _ =>
        ret (0, None)
      else
        let parts := strings.Split targetPath SLASH in
        get_FileSystem >>= fun fs =>
        for_fold parts (Current fs) (cd_part context targetPath)
          (fun node =>
             set_Current_Path node targetPath >>= fun _ =>
             ret (0, None))
  | _ =>
      get_FileSystem >>= fun fs =>
      set_Current_Path (Root fs) "/" >>= fun _ =>
      ret (0, None)
  end.

(** The body of the loop of [cat] for the argument [file]. *)
Definition cat_file (context : commandContext) (file : string)
  : M World (option result) :=
  get_FileSystem >>= fun fs =>
  deref (Current fs) >>= fun cur =>
  match lookup_child cur file with
  | Some l =>
      deref l >>= fun node =>
      if negb (IsDir node) then
        Fprintln (stdout context) (Content node) >>= fun err =>
        ret (Some (0, err))
      else
        Fprint (stderr context)
          ("cat: " ++ file ++ ": No such file or directory" ++ nl)
        >>= fun err => ret (Some (1, err))
  | None =>
      Fprint (stderr context)
        ("cat: " ++ file ++ ": No such file or directory" ++ nl)
      >>= fun err => ret (Some (1, err))
  end.

Definition cmdCat_execute (context : commandContext) : M World result :=
  if (length (args context) <? 2)%nat then
    Fprintln (stderr context) "cat: missing operand" >>= fun err =>
    ret (1, err)
  else
    for_range (tail (args context)) (cat_file context) (ret (0, None)).

(** The names in a directory, before the runtime orders them. *)
Definition child_names (n : FileSystemNode) : list string :=
  match Children n with
  | Some m => (map_to_list m).*1
  | None => []
  end.

Definition cmdLs_execute (context : commandContext) : M World result :=
  get_FileSystem >>= fun fs =>
  deref (Current fs) >>= fun cur =>
  range_keys (child_names cur) >>= fun files =>
  for_range files (ls_file context) (ret (0, None)).

(** The body of the loop of [touch] for the name [file]. *)
Definition touch_file (file : string) : M World (option result) :=
  get_FileSystem >>= fun fs =>
  new (file_node EmptyString) >>= fun l =>
  set_child (Current fs) file l >>= fun _ =>
  ret None.

Definition cmdTouch_execute (context : commandContext) : M World result :=
  if (length (args context) <? 2)%nat then
    Fprintln (stderr context) touch_usage >>= fun err =>
    ret (1, err)
  else
    for_range (tail (args context)) touch_file (ret (0, None)).

Definition cmdSu_execute (executeProgram : commandContext -> M World result)
    (context : commandContext) : M World result :=
  let newContext := with_user context "root" in
  let newContext :=
    match args context with
    | _ :: arg1 :: _ => with_user newContext arg1
    | _ => newContext
    end in
  let newContext := with_args newContext shellProgram in
  executeProgram newContext.

(** [command.execute]: the method of each registered value.  The shell
    and [su] call back into the executor. *)
Definition execute (executeProgram : commandContext -> M World result)
    (shell : commandContext -> M World result)
    (c : command) (context : commandContext) : M World result :=
  match c with
  | cmdShell => shell context
  | cmdTrue => cmdTrue_execute context
  | cmdFalse => cmdFalse_execute context
  | cmdEcho => cmdEcho_execute context
  | cmdCat => cmdCat_execute context
  | cmdLs => cmdLs_execute context
  | cmdTouch => cmdTouch_execute context
  | cmdMkdir => cmdMkdir_execute context
  | cmdCd => cmdCd_execute context
  | cmdPwd => cmdPwd_execute context
  | cmdSu => cmdSu_execute executeProgram context
  end.

(** [executeProgram], and the loop of [cmdShell.execute] entered with the
    prompt and the last status. *)
Fixpoint executeProgram (fuel : nat) (context : commandContext)
    {struct fuel} : M World result :=
  match fuel with
  | O => out_of_fuel
  | S fuel' =>
      match args context with
      | [] => ret (0, None)
      | name :: _ =>
          match commands !! name with
          | None =>
              Fprint (stderr context) (name ++ ": command not found" ++ nl)
              >>= fun err => ret (127, err)
          | Some command =>
              execute (executeProgram fuel')
                (fun context => shell_loop fuel' context (shell_prompt context) 0)
                command context
          end
      end
  end
with shell_loop (fuel : nat) (context : commandContext) (prompt : string)
    (lastStatus : uint32) {struct fuel} : M World result :=
  match fuel with
  | O => out_of_fuel
  | S fuel' =>
      Fprint (stdout context) prompt >>= fun err =>
      match err with
      | Some e => ret (lastStatus, Some e)
      | None =>
          ReadLine (stdin context) >>= fun '(line, err) =>
          match err with
          | Some e => ret (lastStatus, Some e)
          | None =>
              let args := strings.Fields line in
              match args with
              | [] => shell_loop fuel' context prompt lastStatus
              | arg0 :: _ =>
                  if String.eqb arg0 "exit" then
                    ret (exit_status lastStatus args, None)
                  else
                    let newContext := with_args context args in
                    executeProgram fuel' newContext >>= fun '(lastStatus, err) =>
                    match err with
                    | Some e => ret (lastStatus, Some e)
                    | None => shell_loop fuel' context prompt lastStatus
                    end
              end
          end
      end
  end.

Definition cmdShell_execute (fuel : nat) (context : commandContext)
  : M World result :=
  shell_loop fuel context (shell_prompt context) 0.

End Tree.

(** ** The flat filesystem and its commands

    The version of the command interpreter in the first file of
    [src/unnamed/part_000]: the filesystem is one map from file name to
    content.  The executor, the shell, [su], [true], [false] and [echo] are
    the same text as in the other version. *)

Module Flat.

(** The state of the process: the global map [FileSystem] from file name
    to content, and the runtime. *)
Record World : Type := {
  FileSystem : gmap string string;
  runtime : Runtime
}.

#[global] Instance World_runtime : HasRuntime World := {
  get_runtime := runtime;
  set_runtime rt w := {| FileSystem := FileSystem w; runtime := rt |}
}.

Definition init_FileSystem : gmap string string :=
  {[ "usr.txt" := usr_txt; "pwd.txt" := pwd_txt; "cc.txt" := cc_txt ]}.

Definition init_world (rt : Runtime) : World :=
  {| FileSystem := init_FileSystem; runtime := rt |}.

Definition get_FileSystem : M World (gmap string string) :=
  fun w => Ret (FileSystem w, w).

Definition put_FileSystem (fs : gmap string string) : M World unit :=
  fun w => Ret (tt, {| FileSystem := fs; runtime := runtime w |}).

Inductive command : Type :=
| cmdShell | cmdTrue | cmdFalse | cmdEcho | cmdCat | cmdLs | cmdTouch | cmdSu.

Definition commands : gmap string command :=
  {[ "sh" := cmdShell; "true" := cmdTrue; "false" := cmdFalse;
     "echo" := cmdEcho; "cat" := cmdCat; "ls" := cmdLs;
     "touch" := cmdTouch; "su" := cmdSu ]}.

Definition cmdTrue_execute (context : commandContext) : M World result :=
  ret (0, None).

Definition cmdFalse_execute (context : commandContext) : M World result :=
  ret (1, None).

Definition cmdEcho_execute (context : commandContext) : M World result :=
  match args context with
  | [] => panic "slice bounds out of range [1:0]"
  | _ :: rest =>
      Fprintln (stdout context) (strings.Join rest " ") >>= fun err =>
      ret (0, err)
  end.

(** The body of the loop of [cat] for the argument [file]; [arg0] is
    [context.args[0]]. *)
Definition cat_file (context : commandContext) (arg0 file : string)
  : M World (option result) :=
  get_FileSystem >>= fun fs =>
  match fs !! file with
  | Some content =>
      Fprintln (stdout context) content >>= fun err =>
      match err with
      | Some e => ret (Some (0, Some e))
      | None => ret None
      end
  | None =>
      Fprint (stderr context)
        (arg0 ++ ": " ++ file ++ ": No such file or directory" ++ nl)
      >>= fun err =>
      match err with
      | Some e => ret (Some (0, Some e))
      | None => ret None
      end
  end.

Definition cmdCat_execute (context : commandContext) : M World result :=
  match args context with
  | arg0 :: ((_ :: _) as files) =>
      for_range files (cat_file context arg0) (ret (1, None))
  | _ => ret (0, None)
  end.

Definition cmdLs_execute (context : commandContext) : M World result :=
  get_FileSystem >>= fun fs =>
  range_keys (map_to_list fs).*1 >>= fun files =>
  for_range files (ls_file context) (ret (0, None)).

Definition cmdTouch_execute (context : commandContext) : M World result :=
  match args context with
  | _ :: file :: more =>
      get_FileSystem >>= fun fs =>
      if bool_decide (is_Some (fs !! file))
         && negb (String.eqb (user context) "root")
      then
        Fprintln (stdout context)
          ("touch: cannot touch " ++ dquote ++ file ++ dquote
           ++ " : Permission denied")
        >>= fun err => ret (1, err)
      else
        (match more with
         | [] => put_FileSystem (<[file := EmptyString]> fs)
         | _ => ret tt
         end) >>= fun _ =>
        ret (0, None)
  | _ =>
      Fprintln (stdout context) touch_usage >>= fun err =>
      ret (1, err)
  end.

Definition cmdSu_execute (executeProgram : commandContext -> M World result)
    (context : commandContext) : M World result :=
  let newContext := with_user context "root" in
  let newContext :=
    match args context with
    | _ :: arg1 :: _ => with_user newContext arg1
    | _ => newContext
    end in
  let newContext := with_args newContext shellProgram in
  executeProgram newContext.

Definition execute (executeProgram : commandContext -> M World result)
    (shell : commandContext -> M World result)
    (c : command) (context : commandContext) : M World result :=
  match c with
  | cmdShell => shell context
  | cmdTrue => cmdTrue_execute context
  | cmdFalse => cmdFalse_execute context
  | cmdEcho => cmdEcho_execute context
  | cmdCat => cmdCat_execute context
  | cmdLs => cmdLs_execute context
  | cmdTouch => cmdTouch_execute context
  | cmdSu => cmdSu_execute executeProgram context
  end.

Fixpoint executeProgram (fuel : nat) (context : commandContext)
    {struct fuel} : M World result :=
  match fuel with
  | O => out_of_fuel
  | S fuel' =>
      match args context with
      | [] => ret (0, None)
      | name :: _ =>
          match commands !! name with
          | None =>
              Fprint (stderr context) (name ++ ": command not found" ++ nl)
              >>= fun err => ret (127, err)
          | Some command =>
              execute (executeProgram fuel')
                (fun context => shell_loop fuel' context (shell_prompt context) 0)
                command context
          end
      end
  end
with shell_loop (fuel : nat) (context : commandContext) (prompt : string)
    (lastStatus : uint32) {struct fuel} : M World result :=
  match fuel with
  | O => out_of_fuel
  | S fuel' =>
      Fprint (stdout context) prompt >>= fun err =>
      match err with
      | Some e => ret (lastStatus, Some e)
      | None =>
          ReadLine (stdin context) >>= fun '(line, err) =>
          match err with
          | Some e => ret (lastStatus, Some e)
          | None =>
              let args := strings.Fields line in
              match args with
              | [] => shell_loop fuel' context prompt lastStatus
              | arg0 :: _ =>
                  if String.eqb arg0 "exit" then
                    ret (exit_status lastStatus args, None)
                  else
                    let newContext := with_args context args in
                    executeProgram fuel' newContext >>= fun '(lastStatus, err) =>
                    match err with
                    | Some e => ret (lastStatus, Some e)
                    | None => shell_loop fuel' context prompt lastStatus
                    end
              end
          end
      end
  end.

Definition cmdShell_execute (fuel : nat) (context : commandContext)
  : M World result :=
  shell_loop fuel context (shell_prompt context) 0.

End Flat.

(** ** Authentication callbacks and the banner

    [src/auth.go]. *)

Module Auth.

Record authConfig : Type := {
  Enabled : bool;
  Accepted : bool
}.

Record authSettings : Type := {
  PasswordAuth : authConfig;
  PublicKeyAuth : authConfig
}.

Record sshProto : Type := {
  Banner : string
}.

(** The fields of [config] the callbacks read. *)
Record config : Type := {
  Auth : authSettings;
  SSHProto : sshProto;
  validUser : string;
  validPass : string
}.

(** [ssh.ConnMetadata], as far as the callbacks look at it. *)
Record ConnMetadata : Type := {
  User : string
}.

Record authLog : Type := {
  log_User : string;
  log_Accepted : bool
}.

(** The records handed to [logEvent]. *)
Inductive logEntry : Type :=
| passwordAuthLog (a : authLog) (Password : string)
| publicKeyAuthLog (a : authLog) (PublicKeyFingerprint : string).

(** [connContext.logEvent]: the record is appended to the event log. *)
Definition logEvent (entry : logEntry) (log : list logEntry) : list logEntry :=
  log ++ [entry].

(** What a callback returns besides the nil permissions: [None] is a nil
    error, the attempt is accepted. *)
Definition verdict : Type := option error.

(** [errors.New(msg)]. *)
Definition errors_New (msg : string) : error := msg.

(** The function [getPasswordCallback] returns, run on the event log. *)
Definition passwordCallback (cfg : config) (conn : ConnMetadata)
    (password : string) (log : list logEntry) : verdict * list logEntry :=
  if String.eqb (User conn) (validUser cfg)
     && String.eqb password (validPass cfg)
  then
    let log := logEvent (passwordAuthLog
                 {| log_User := User conn;
                    log_Accepted := Accepted (PasswordAuth (Auth cfg)) |}
                 password) log in
    (None, log)
  else
    let log := logEvent (passwordAuthLog
                 {| log_User := User conn; log_Accepted := false |}
                 password) log in
    (Some (errors_New EmptyString), log).

(** [getPasswordCallback]: [None] is the nil callback. *)
Definition getPasswordCallback (cfg : config)
  : option (ConnMetadata -> string -> list logEntry -> verdict * list logEntry) :=
  if negb (Enabled (PasswordAuth (Auth cfg))) then None
  else Some (passwordCallback cfg).

(** The function [getPublicKeyCallback] returns; [fingerprint] is
    [ssh.FingerprintSHA256(key)]. *)
Definition publicKeyCallback (cfg : config) (conn : ConnMetadata)
    (fingerprint : string) (log : list logEntry) : verdict * list logEntry :=
  let log := logEvent (publicKeyAuthLog
               {| log_User := User conn;
                  log_Accepted := Accepted (PublicKeyAuth (Auth cfg)) |}
               fingerprint) log in
  if negb (Accepted (PublicKeyAuth (Auth cfg)))
  then (Some (errors_New EmptyString), log)
  else (None, log).


(** The string [getBannerCallback] computes before it returns the
    closure. *)
Definition render_banner (configured : string) : string :=
  let banner :=
    strings.ReplaceAll (strings.ReplaceAll configured crlf nl) nl crlf in
  if negb (strings.HasSuffix banner crlf) then banner ++ crlf else banner.

(** [getBannerCallback]: [None] is the nil callback. *)
Definition getBannerCallback (cfg : config) : option (ConnMetadata -> string) :=
  if String.eqb (Banner (SSHProto cfg)) EmptyString then None
  else
    let banner := render_banner (Banner (SSHProto cfg)) in
    Some (fun conn => banner).

End Auth.

(** ** Keyboard-interactive authentication and the log of attempts

    The other two callbacks of [src/auth.go]. *)

Module Interactive.

Record keyboardInteractiveAuthQuestion : Type := {
  Text : string;
  Echo : bool
}.

Record keyboardInteractiveAuthConfig : Type := {
  Enabled : bool;
  Accepted : bool;
  Instruction : string;
  Questions : list keyboardInteractiveAuthQuestion
}.

(** The fields of [config] the callback reads. *)
Record config : Type := {
  KeyboardInteractiveAuth : keyboardInteractiveAuthConfig;
  validUser : string;
  validPass : string
}.

(** [ssh.KeyboardInteractiveChallenge]: the user, the instruction, the
    questions and the echo flags go to the client, which answers or
    fails. *)
Definition KeyboardInteractiveChallenge : Type :=
  string -> string -> list string -> list bool -> list string * option error.

(** The record handed to [logEvent]. *)
Inductive logEntry : Type :=
| keyboardInteractiveAuthLog (a : Auth.authLog) (Answers : list string).

(** The event log and the lines of [warningLogger]. *)
Record Logs : Type := {
  events : list logEntry;
  warnings : list string
}.

Definition logEvent (entry : logEntry) : M Logs unit :=
  fun st =>
    Ret (tt, {| events := (events st ++ [entry])%list;
                warnings := warnings st |}).

Definition warningLogger_Printf (line : string) : M Logs unit :=
  fun st =>
    Ret (tt, {| events := events st;
                warnings := (warnings st ++ [line])%list |}).

(** The two slices the loop over the configured questions fills. *)
Definition questions_and_echos (questions : list keyboardInteractiveAuthQuestion)
  : list string * list bool :=
  fold_left
    (fun (slices : list string * list bool) question =>
       let '(keyboardInteractiveQuestions, keyboardInteractiveEchos) := slices in
       ((keyboardInteractiveQuestions ++ [Text question])%list,
        (keyboardInteractiveEchos ++ [Echo question])%list))
    questions ([], []).

(** [answers[0]]. *)
Definition first_answer (answers : list string) : M Logs string :=
  match answers with
  | a :: _ => ret a
  | [] => panic "index out of range [0] with length 0"
  end.

(** The function [getKeyboardInteractiveCallback] returns. *)
Definition keyboardInteractiveCallback (cfg : config) (conn : Auth.ConnMetadata)
    (client : KeyboardInteractiveChallenge) : M Logs Auth.verdict :=
  let '(keyboardInteractiveQuestions, keyboardInteractiveEchos) :=
    questions_and_echos (Questions (KeyboardInteractiveAuth cfg)) in
  let '(answers, err) :=
    client (Auth.User conn) (Instruction (KeyboardInteractiveAuth cfg))
      keyboardInteractiveQuestions keyboardInteractiveEchos in
  match err with
  | Some e =>
      warningLogger_Printf
        ("Failed to process keyboard interactive authentication: " ++ e)
      >>= fun _ => ret (Some (Auth.errors_New EmptyString))
  | None =>
      logEvent (keyboardInteractiveAuthLog
                  {| Auth.log_User := Auth.User conn;
                     Auth.log_Accepted :=
                       Accepted (KeyboardInteractiveAuth cfg) |}
                  answers) >>= fun _ =>
      (if String.eqb (Auth.User conn) (validUser cfg)
       then first_answer answers >>= fun a => ret (String.eqb a (validPass cfg))
       else ret false) >>= fun correct =>
      if correct then ret None
      else if negb (Accepted (KeyboardInteractiveAuth cfg))
      then ret (Some (Auth.errors_New EmptyString))
      else ret None
  end.

(** [getKeyboardInteractiveCallback]: [None] is the nil callback. *)
Definition getKeyboardInteractiveCallback (cfg : config)
  : option (Auth.ConnMetadata -> KeyboardInteractiveChallenge
            -> M Logs Auth.verdict) :=
  if negb (Enabled (KeyboardInteractiveAuth cfg)) then None
  else Some (keyboardInteractiveCallback cfg).

End Interactive.

Module AuthLog.

(** The record handed to [logEvent]. *)
Inductive logEntry : Type :=
| noAuthLog (a : Auth.authLog).

(** The counters of [authAttemptsMetric], by the labels [method] and
    [accepted], and the event log. *)
Record State : Type := {
  authAttemptsMetric : gmap (string * string) nat;
  events : list logEntry
}.

(** [authAttemptsMetric.WithLabelValues(method, accepted).Inc()]: a
    counter that is not there yet starts at zero. *)
Definition Inc (labels : string * string) (m : gmap (string * string) nat)
  : gmap (string * string) nat :=
  <[labels := S (default 0%nat (m !! labels))]> m.

(** The function [getAuthLogCallback] returns. *)
Definition authLogCallback (conn : Auth.ConnMetadata) (method : string)
    (err : option error) (st : State) : State :=
  let acceptedLabel :=
    match err with
    | None => "true"
    | Some _ => "false"
    end in
  let metric := Inc (method, acceptedLabel) (authAttemptsMetric st) in
  if String.eqb method "none" then
    {| authAttemptsMetric := metric;
       events := (events st
                  ++ [noAuthLog {| Auth.log_User := Auth.User conn;
                                   Auth.log_Accepted :=
                                     match err with
                                     | None => true
                                     | Some _ => false
                                     end |}])%list |}
  else
    {| authAttemptsMetric := metric; events := events st |}.

End AuthLog.

(** ** The direct-tcpip channel handler

    [src/tcpip.go].  The goroutine that runs the server and the [select] of
    the handler are modelled by the order in which the communications on
    the three channels are taken: the handler is a function of that
    schedule. *)

Module Tcpip.

Record tcpipChannelData : Type := {
  Address : string;
  Port : uint32;
  OriginatorAddress : string;
  OriginatorPort : uint32
}.

(** The wire format [ssh.Unmarshal] reads: a [uint32] is four bytes, most
    significant first; a [string] is its length as a [uint32] and then
    its bytes. *)
Definition parseUint32 (data : list Byte.byte)
  : option (uint32 * list Byte.byte) :=
  match data with
  | b3 :: b2 :: b1 :: b0 :: rest =>
      let v (b : Byte.byte) := Z.of_N (Byte.to_N b) in
      Some (Z.lor (Z.shiftl (v b3) 24)
              (Z.lor (Z.shiftl (v b2) 16) (Z.lor (Z.shiftl (v b1) 8) (v b0))),
            rest)
  | _ => None
  end.

Definition parseString (data : list Byte.byte)
  : option (string * list Byte.byte) :=
  match parseUint32 data with
  | Some (len, rest) =>
      if Z.of_nat (length rest) <? len then None
      else Some (string_of_list_byte (firstn (Z.to_nat len) rest),
                 skipn (Z.to_nat len) rest)
  | None => None
  end.

(** [ssh.Unmarshal(data, &tcpipChannelData{})]: the four fields in
    order, and nothing after them. *)
Definition Unmarshal (data : list Byte.byte) : tcpipChannelData + error :=
  match parseString data with
  | None => inr "ssh: unmarshal error"
  | Some (address, data) =>
  match parseUint32 data with
  | None => inr "ssh: short read"
  | Some (port, data) =>
  match parseString data with
  | None => inr "ssh: unmarshal error"
  | Some (originatorAddress, data) =>
  match parseUint32 data with
  | None => inr "ssh: short read"
  | Some (originatorPort, data) =>
      match data with
      | [] => inl {| Address := address; Port := port;
                     OriginatorAddress := originatorAddress;
                     OriginatorPort := originatorPort |}
      | _ => inr "ssh: parse error"
      end
  end end end end.

Inductive server : Type := httpServer.

Definition servers : gmap Z server := {[ 80 := httpServer ]}.

(** [ssh.NewChannel]: the extra data of the open request, and the error
    [Accept] returns. *)
Record NewChannel : Type := {
  ExtraData : list Byte.byte;
  accept_error : option error
}.

(** [*ssh.Request]: the flag, and the error [Reply] returns. *)
Record Request : Type := {
  WantReply : bool;
  reply_error : option error
}.

(** What the handler does that can be seen from outside, in order. *)
Inductive action : Type :=
| Accept
| Reject
| LogInfo (msg : string) (extra : option tcpipChannelData)
| LogPrintln (msg : string) (port : uint32)
| Go (s : server)
| LogInput (input : string)
| Reply (ok : bool)
| Send (input : string)
| ChannelWrite (data : string)
| CloseWrite
| Close.

(** One communication the [select] of the service loop proceeds with:
    a value received, or [None] when the channel was closed. *)
Inductive received : Type :=
| FromInput (v : option string)
| FromError (v : option (option error))
| FromRequests (v : option Request).

(** How the handler ends: it returns an error value, or it waits in the
    [select] for a communication that the schedule does not have. *)
Inductive ending : Type :=
| Returned (err : option error)
| Waiting.

(** The service loop.  The three booleans tell which of [inputChan],
    [errorChan] and [requests] is not nil yet; a communication on a nil
    channel is never chosen, and is passed over. *)
Fixpoint service_loop (inputChan errorChan requests : bool)
    (schedule : list received) : list action * ending :=
  if negb (inputChan || errorChan || requests) then ([], Returned None)
  else
    match schedule with
    | [] => ([], Waiting)
    | FromInput v :: rest =>
        if negb inputChan then service_loop inputChan errorChan requests rest
        else
          match v with
          | None => service_loop false errorChan requests rest
          | Some input =>
              let '(acts, e) := service_loop inputChan errorChan requests rest in
              (LogInput input :: acts, e)
          end
    | FromError v :: rest =>
        if negb errorChan then service_loop inputChan errorChan requests rest
        else
          match v with
          | None => service_loop inputChan false requests rest
          | Some (Some err) => ([], Returned (Some err))
          | Some None => service_loop inputChan errorChan requests rest
          end
    | FromRequests v :: rest =>
        if negb requests then service_loop inputChan errorChan requests rest
        else
          match v with
          | None => service_loop inputChan errorChan false rest
          | Some request =>
              if WantReply request then
                match reply_error request with
                | Some err => ([Reply false], Returned (Some err))
                | None =>
                    let '(acts, e) :=
                      service_loop inputChan errorChan requests rest in
                    (Reply false :: acts, e)
                end
              else service_loop inputChan errorChan requests rest
          end
    end.

(** One turn of the loop of [httpServer.handle]: [http.ReadRequest]
    fails, or [httputil.DumpRequest] fails, or the dump is sent and the
    reply written, with the error of that [Write]. *)
Inductive http_round : Type :=
| ReadFails (err : error)
| DumpFails (err : error)
| Served (requestBytes : string) (write_err : option error).

Definition not_found_response : string :=
  "HTTP/1.1 404 Not Found" ++ crlf ++ "Content-Length: 0" ++ crlf ++ crlf.

(** The end of [httpServer.handle], after its loop was left with [err]. *)
Definition httpServer_finish (err : error)
    (closeWrite_err close_err : option error) : list action * option error :=
  if negb (String.eqb err EOF) then ([], Some err)
  else
    match closeWrite_err with
    | Some e => ([CloseWrite], Some e)
    | None => ([CloseWrite; Close], close_err)
    end.

(** [httpServer.handle] on the rounds the client drives it through; when
    the rounds run out the next read finds the end of the stream. *)
Fixpoint httpServer_handle (rounds : list http_round)
    (closeWrite_err close_err : option error) : list action * option error :=
  match rounds with
  | [] => httpServer_finish EOF closeWrite_err close_err
  | ReadFails err :: _ => httpServer_finish err closeWrite_err close_err
  | DumpFails err :: _ => httpServer_finish err closeWrite_err close_err
  | Served requestBytes write_err :: rest =>
      match write_err with
      | Some err =>
          let '(acts, r) := httpServer_finish err closeWrite_err close_err in
          (Send requestBytes :: ChannelWrite not_found_response :: acts, r)
      | None =>
          let '(acts, r) := httpServer_handle rest closeWrite_err close_err in
          (Send requestBytes :: ChannelWrite not_found_response :: acts, r)
      end
  end.

(** [handleDirectTCPIPChannel]; the deferred log line is written when the
    function returns after the [defer] statement. *)
Definition handleDirectTCPIPChannel (newChannel : NewChannel)
    (schedule : list received) : list action * ending :=
  match Unmarshal (ExtraData newChannel) with
  | inr err => ([], Returned (Some err))
  | inl channelData =>
      match accept_error newChannel with
      | Some err => ([Accept], Returned (Some err))
      | None =>
          let accepted :=
            [Accept; LogInfo "New channel accepted" (Some channelData)] in
          let deferred := [LogInfo "Channel closed" None] in
          match servers !! Port channelData with
          | None =>
              ((accepted
                ++ [LogPrintln "Unsupported port" (Port channelData)]
                ++ deferred)%list,
               Returned None)
          | Some server =>
              let '(acts, e) := service_loop true true true schedule in
              match e with
              | Returned err =>
                  ((accepted ++ [Go server] ++ acts ++ deferred)%list,
                   Returned err)
              | Waiting => ((accepted ++ [Go server] ++ acts)%list, Waiting)
              end
          end
      end
  end.

End Tcpip.

(** ** New channels

    [handleNewChannel] of [src/channel.go].  The handlers of the two channel
    types and of the channel requests are defined in other files: the
    handlers of the types are parameters that return an error value, and the
    two goroutines are started, but what they do beside the handler is not
    followed. *)

Module Channel.

(** [fmt.Sprint] of a [uint32]. *)
Definition Sprint_uint32 (v : uint32) : string :=
  NilZero.string_of_uint (N.to_uint (Z.to_N v)).

(** The host has a colon: [bytealg.IndexByteString(host, ':') >= 0]. *)
Fixpoint has_colon (host : string) : bool :=
  match host with
  | EmptyString => false
  | String c host' => Ascii.eqb c ":"%char || has_colon host'
  end.

(** [net.JoinHostPort]. *)
Definition JoinHostPort (host port : string) : string :=
  if has_colon host then "[" ++ host ++ "]:" ++ port
  else host ++ ":" ++ port.

(** [tcpipChannelData.String]. *)
Definition tcpipChannelData_String (data : Tcpip.tcpipChannelData) : string :=
  JoinHostPort (Tcpip.OriginatorAddress data)
    (Sprint_uint32 (Tcpip.OriginatorPort data))
  ++ " -> "
  ++ JoinHostPort (Tcpip.Address data) (Sprint_uint32 (Tcpip.Port data)).

(** The alphabet of [base64.StdEncoding]. *)
Definition encodeStd : string :=
  "ABCDEFGHIJKLMNOPQRSTUVWXYZabcdefghijklmnopqrstuvwxyz0123456789+/".

(** [enc.encode[val>>shift&0x3F]] as a string of one byte. *)
Definition encode_at (val shift : Z) : string :=
  match String.get (Z.to_nat (Z.land (Z.shiftr val shift) 0x3F)) encodeStd with
  | Some c => String c EmptyString
  | None => EmptyString
  end.

(** [base64.RawStdEncoding.EncodeToString]: three bytes give four
    characters, and a rest of two or one bytes gives three or two, without
    padding. *)
Fixpoint EncodeToString (src : list Byte.byte) : string :=
  let v (b : Byte.byte) := Z.of_N (Byte.to_N b) in
  match src with
  | [] => EmptyString
  | [b0] =>
      let val := Z.shiftl (v b0) 16 in
      encode_at val 18 ++ encode_at val 12
  | [b0; b1] =>
      let val := Z.lor (Z.shiftl (v b0) 16) (Z.shiftl (v b1) 8) in
      encode_at val 18 ++ encode_at val 12 ++ encode_at val 6
  | b0 :: b1 :: b2 :: rest =>
      let val :=
        Z.lor (Z.shiftl (v b0) 16) (Z.lor (Z.shiftl (v b1) 8) (v b2)) in
      encode_at val 18 ++ encode_at val 12 ++ encode_at val 6
      ++ encode_at val 0 ++ EncodeToString rest
  end.

(** [channelData]: a [fmt.Stringer]; [None] is the nil interface, and the
    one type behind it is [*tcpipChannelData]. *)
Definition channelData : Type := option Tcpip.tcpipChannelData.

Definition channelDataParser : Type :=
  list Byte.byte -> channelData * option error.

Definition channelDataParsers : gmap string channelDataParser :=
  {[ "session" := (fun _ => (None, None)) : channelDataParser;
     "direct-tcpip" :=
       (fun data =>
          match Tcpip.Unmarshal data with
          | inr err => (None, Some err)
          | inl tcpipData => (Some tcpipData, None)
          end) : channelDataParser ]}.

(** [ssh.NewChannel]: the type and the extra data of the open request, and
    the errors [Accept] and [Reject] return. *)
Record NewChannel : Type := {
  ChannelType : string;
  ExtraData : list Byte.byte;
  accept_error : option error;
  reject_error : option error
}.

(** The handlers of the channel types, by the error they return. *)
Record handlers : Type := {
  handleTCPIPChannel : uint32 -> option error;
  handleSessionChannel : option error
}.

(** What the handler does that can be seen from outside, in order. *)
Inductive action : Type :=
| LogPrintln (msg : string) (channelType : string)
| LogRequested (channel_extra_data : string) (accepted : bool)
| Reject (reason : string) (message : string)
| Accept
| GoRequests
| GoInput
| CallTCPIP (port : uint32)
| CallSession
| CloseInput
| LogClosed
| Close.

(** How the handler ends. *)
Inductive ending : Type :=
| Returned (err : option error)
| Panicked (msg : string).

(** The [switch] on the channel type, after the channel was accepted: the
    call of the handler of the type, and the error it returns. *)
Definition serve (h : handlers) (channelType : string) (data : channelData)
  : list action * ending :=
  if String.eqb channelType "direct-tcpip" then
    match data with
    | Some tcpipData =>
        ([CallTCPIP (Tcpip.Port tcpipData)],
         Returned (handleTCPIPChannel h (Tcpip.Port tcpipData)))
    | None =>
        ([], Panicked "interface conversion: interface is nil, not *main.tcpipChannelData")
    end
  else if String.eqb channelType "session" then
    ([CallSession], Returned (handleSessionChannel h))
  else ([], Returned None).

(** [handleNewChannel]; the three deferred calls run, last first, when the
    function returns or panics after the [defer] statements. *)
Definition handleNewChannel (h : handlers) (newChannel : NewChannel)
  : list action * ending :=
  match channelDataParsers !! ChannelType newChannel with
  | None =>
      ([LogPrintln "Unsupported channel type" (ChannelType newChannel);
        LogRequested (EncodeToString (ExtraData newChannel)) false;
        Reject "Prohibited" EmptyString],
       Returned (reject_error newChannel))
  | Some parser =>
      let '(data, err) := parser (ExtraData newChannel) in
      match err with
      | Some e => ([], Returned (Some e))
      | None =>
          let channelDataString :=
            match data with
            | Some tcpipData => tcpipChannelData_String tcpipData
            | None => EncodeToString (ExtraData newChannel)
            end in
          match accept_error newChannel with
          | Some e =>
              ([LogRequested channelDataString true; Accept],
               Returned (Some e))
          | None =>
              let '(acts, e) := serve h (ChannelType newChannel) data in
              (([LogRequested channelDataString true; Accept;
                 GoRequests; GoInput]
                ++ acts ++ [CloseInput; LogClosed; Close])%list, e)
          end
      end
  end.

End Channel.

(** ** Definitions used to state the properties *)

(** The value of a string of decimal digits read after [acc]; [None] when
    a byte is not a digit. *)
Fixpoint decimal_value (s : string) (acc : Z) : option Z :=
  match s with
  | EmptyString => Some acc
  | String c s' =>
      if strconv.is_digit c then decimal_value s' (10 * acc + strconv.digit_val c)
      else None
  end.

(** An unsigned 32-bit decimal: a non-empty string of digits whose value
    is below [2^32]. *)
Definition uint32_decimal (s : string) : option Z :=
  match s with
  | EmptyString => None
  | _ =>
      match decimal_value s 0 with
      | Some v => if v <? 2 ^ 32 then Some v else None
      | None => None
      end
  end.

(** Every line feed turned into carriage return, line feed. *)
Fixpoint lf_to_crlf (s : string) : string :=
  match s with
  | EmptyString => EmptyString
  | String c s' =>
      if Ascii.eqb c LF then String CR (String LF (lf_to_crlf s'))
      else String c (lf_to_crlf s')
  end.

(** Every carriage return that stands before a line feed dropped. *)
Fixpoint collapse_crlf (s : string) : string :=
  match s with
  | EmptyString => EmptyString
  | String c s' =>
      match s' with
      | String c' _ =>
          if Ascii.eqb c CR && Ascii.eqb c' LF then collapse_crlf s'
          else String c (collapse_crlf s')
      | EmptyString => String c EmptyString
      end
  end.

(** No carriage return stands before a line feed. *)
Fixpoint no_crlf (s : string) : bool :=
  match s with
  | EmptyString => true
  | String c s' =>
      match s' with
      | String c' _ => negb (Ascii.eqb c CR && Ascii.eqb c' LF) && no_crlf s'
      | EmptyString => true
      end
  end.

(** A trailing carriage return, line feed appended when there is none. *)
Definition ensure_crlf (s : string) : string :=
  if strings.HasSuffix s crlf then s else s ++ crlf.

(** The rendering of the banner as the specification words it. *)
Definition spec_banner (configured : string) : string :=
  ensure_crlf (lf_to_crlf configured).

(** The bytes written to the writer [w], in order, joined. *)
Definition output_on (w : nat) (log : list (nat * string)) : string :=
  String.concat EmptyString
    (List.map snd (List.filter (fun e => Nat.eqb (fst e) w) log)).

(** The entries of the current directory of the tree filesystem. *)
Definition tree_entries (w : Tree.World) : option (gmap string Tree.loc) :=
  match Tree.heap w !! Tree.Current (Tree.FileSystem w) with
  | Some cur => Tree.Children cur
  | None => None
  end.

(** The current directory is a node with a map of children. *)
Definition current_is_dir (w : Tree.World) : Prop :=
  is_Some (tree_entries w).

(** What [cat] of the flat filesystem writes for the argument [file]: the
    writer and the bytes. *)
Definition flat_cat_line (context : commandContext) (arg0 : string)
    (fs : gmap string string) (file : string) : nat * string :=
  match fs !! file with
  | Some content => (stdout context, content ++ nl)
  | None =>
      (stderr context,
       arg0 ++ ": " ++ file ++ ": No such file or directory" ++ nl)
  end.

(** No [Write] call fails. *)
Definition writers_never_fail (rt : Runtime) : Prop :=
  forall log w data, write_error rt log w data = None.

(** A triple for the monad: from a state in [P], the run of [c] that
    returns does so with a value and a state in [Q]; a panic is allowed, and
    running out of fuel is allowed when [oof] holds. *)
Definition triple {W A : Type} (oof : Prop) (P : W -> Prop) (c : M W A)
    (Q : A -> W -> Prop) : Prop :=
  forall w, P w ->
    match c w with
    | Ret (a, w') => Q a w'
    | Panic _ => True
    | OutOfFuel => oof
    end.

(** The location [l] holds a directory. *)
Definition dir_at (w : Tree.World) (l : Tree.loc) : Prop :=
  exists n, Tree.heap w !! l = Some n /\ Tree.IsDir n = true.

(** The invariant of the tree filesystem: every directory node has a map
    of children, and the current directory and the root are directories. *)
Definition well_formed (w : Tree.World) : Prop :=
  (forall l n, Tree.heap w !! l = Some n -> Tree.IsDir n = true ->
               is_Some (Tree.Children n))
  /\ dir_at w (Tree.Current (Tree.FileSystem w))
  /\ dir_at w (Tree.Root (Tree.FileSystem w)).

(** A well-formed world whose readers hold the lines [R]. *)
Definition stable (R : gmap nat (list string)) (w : Tree.World) : Prop :=
  well_formed w /\ readers (Tree.runtime w) = R.

(** The status is a value of 32 bits. *)
Definition status_ok (r : result) : Prop := 0 <= fst r < 2 ^ 32.

(** What holds when a command returns [r] in the world [w]. *)
Definition returns_stable (R : gmap nat (list string)) (r : result)
    (w : Tree.World) : Prop :=
  stable R w /\ status_ok r.

(** The number of lines the reader [h] has still to deliver. *)
Definition lines_left (h : nat) (w : Tree.World) : nat :=
  length (default [] (readers (Tree.runtime w) !! h)).

(** A run from [w] that returns leaves a well-formed world, a status of 32
    bits and no more lines on the reader [h] than before. *)
Definition outcome_ok (oof : Prop) (h : nat) (w : Tree.World)
    (o : outcome (result * Tree.World)) : Prop :=
  match o with
  | Ret (r, w') =>
      well_formed w' /\ status_ok r /\ (lines_left h w' <= lines_left h w)%nat
  | Panic _ => True
  | OutOfFuel => oof
  end.

(** ** Sample values *)

(** The no-break space U+00A0 in UTF-8. *)
Definition NBSP : string := String "194"%char (String "160"%char EmptyString).

(** Maps visited in the order their keys are listed. *)
Definition listed_order : MapOrder :=
  {| order_of := fun _ l => l; order_perm := fun _ l => Permutation_refl l |}.

(** A runtime whose writers never fail, with the lines [lines] on the
    reader 0. *)
Definition quiet_runtime (lines : list string) : Runtime :=
  {| readers := {[ 0%nat := lines ]};
     written := [];
     write_error := fun _ _ _ => None;
     ranges := 0;
     range_order := listed_order |}.

(** A session of the user [u]: reader 0, standard output 1, standard
    error 2. *)
Definition session (u : string) (with_pty : bool) (a : list string)
  : commandContext :=
  {| args := a; stdin := 0; stdout := 1; stderr := 2;
     pty := with_pty; user := u |}.

(** The world the shell leaves when it has run [lines] from the initial
    filesystem. *)
Definition world_after (lines : list string) : Tree.World :=
  let w := Tree.init_world (quiet_runtime lines) in
  match Tree.executeProgram (3 * length lines + 3)
          (session "guest" false ["sh"]) w with
  | Ret (_, w') => w'
  | _ => w
  end.

(** Another session: the user [root] on streams of its own. *)
Definition other_session (a : list string) : commandContext :=
  {| args := a; stdin := 3; stdout := 4; stderr := 5;
     pty := false; user := "root" |}.

(** A configuration with all methods enabled, the given accepted flag, the
    given banner, and the valid credentials [admin], [secret]. *)
Definition sample_config (accepted : bool) (banner : string) : Auth.config :=
  {| Auth.Auth :=
       {| Auth.PasswordAuth :=
            {| Auth.Enabled := true; Auth.Accepted := accepted |};
          Auth.PublicKeyAuth :=
            {| Auth.Enabled := true; Auth.Accepted := accepted |} |};
     Auth.SSHProto := {| Auth.Banner := banner |};
     Auth.validUser := "admin";
     Auth.validPass := "secret" |}.

(** The wire form of [uint32], of [string] and of the extra data of a
    direct-tcpip channel, as [ssh.Marshal] writes them. *)
Definition wire_uint32 (v : uint32) : list Byte.byte :=
  List.map
    (fun shift =>
       match Byte.of_N (Z.to_N (Z.land (Z.shiftr v shift) 255)) with
       | Some b => b
       | None => Byte.x00
       end)
    [24; 16; 8; 0].

Definition wire_string (s : string) : list Byte.byte :=
  (wire_uint32 (Z.of_nat (String.length s)) ++ list_byte_of_string s)%list.

Definition wire_tcpipChannelData (d : Tcpip.tcpipChannelData)
  : list Byte.byte :=
  (wire_string (Tcpip.Address d) ++ wire_uint32 (Tcpip.Port d)
   ++ wire_string (Tcpip.OriginatorAddress d)
   ++ wire_uint32 (Tcpip.OriginatorPort d))%list.

(** A forward to the SMTP port, for which no server is registered. *)
Definition smtp_forward : Tcpip.tcpipChannelData :=
  {| Tcpip.Address := "10.0.0.1"; Tcpip.Port := 25;
     Tcpip.OriginatorAddress := "10.0.0.2"; Tcpip.OriginatorPort := 4242 |}.

Definition smtp_channel : Tcpip.NewChannel :=
  {| Tcpip.ExtraData := wire_tcpipChannelData smtp_forward;
     Tcpip.accept_error := None |}.

(** The number of [Reply] calls among the actions. *)
Definition replies (acts : list Tcpip.action) : nat :=
  length (List.filter
            (fun a => match a with Tcpip.Reply _ => true | _ => false end) acts).

(** The number of requests in a schedule that want a reply. *)
Definition wanting_reply (schedule : list Tcpip.received) : nat :=
  length (List.filter
            (fun r => match r with
                      | Tcpip.FromRequests (Some request) =>
                          Tcpip.WantReply request
                      | _ => false
                      end) schedule).

(** ** Definitions for the further properties *)

(** The computation [c] keeps the property [P] of the state. *)
Definition preserves {W A : Type} (oof : Prop) (P : W -> Prop) (c : M W A)
  : Prop :=
  triple oof P c (fun _ w' => P w').

(** The lines the reader [h] has still to deliver. *)
Definition pending (h : nat) (rt : Runtime) : list string :=
  default [] (readers rt !! h).

(** The runtime [rt'] is a later stage of [rt]: writes were added at the end
    of the log, lines were taken from the front of readers, loops over maps
    were counted, and the rest is the same. *)
Definition advances (rt rt' : Runtime) : Prop :=
  written rt `prefix_of` written rt'
  /\ (forall h, pending h rt' `suffix_of` pending h rt)
  /\ (ranges rt <= ranges rt')%nat
  /\ write_error rt' = write_error rt
  /\ range_order rt' = range_order rt.

(** [P] is kept when the runtime advances. *)
Definition kept_by_io {W : Type} `{HasRuntime W} (P : W -> Prop) : Prop :=
  forall w rt, P w -> advances (get_runtime w) rt -> P (set_runtime rt w).

(** [P] is kept by an assignment to [FileSystem.Current] and
    [FileSystem.Path]. *)
Definition ignores_FileSystem (P : Tree.World -> Prop) : Prop :=
  forall w node path,
    P w ->
    P (Tree.set_FileSystem
         {| Tree.Root := Tree.Root (Tree.FileSystem w);
            Tree.Current := node; Tree.Path := path |} w).

(** [P] is kept by the allocation of a node and by the entry of a name in
    the map of children of a node that has one. *)
Definition closed_under_growth (P : Tree.World -> Prop) : Prop :=
  (forall w n, P w ->
     P (Tree.set_heap (<[fresh (dom (Tree.heap w)) := n]> (Tree.heap w)) w))
  /\ (forall w node n m name child,
        P w -> Tree.heap w !! node = Some n -> Tree.Children n = Some m ->
        P (Tree.set_heap
             (<[node := {| Tree.IsDir := Tree.IsDir n;
                           Tree.Content := Tree.Content n;
                           Tree.Children := Some (<[name := child]> m) |}]>
                (Tree.heap w)) w)).

(** The node [n'] is the node [n] with, maybe, more names in its map of
    children. *)
Definition node_grows (n n' : Tree.FileSystemNode) : Prop :=
  Tree.IsDir n' = Tree.IsDir n
  /\ Tree.Content n' = Tree.Content n
  /\ match Tree.Children n with
     | Some m => exists m', Tree.Children n' = Some m' /\ dom m ⊆ dom m'
     | None => Tree.Children n' = None
     end.

(** Every node of [w0] is still there in [w], grown, and the root is the
    same. *)
Definition extends (w0 w : Tree.World) : Prop :=
  (forall l n, Tree.heap w0 !! l = Some n ->
     exists n', Tree.heap w !! l = Some n' /\ node_grows n n')
  /\ Tree.Root (Tree.FileSystem w) = Tree.Root (Tree.FileSystem w0).

(** The heap and the variable [FileSystem] of [w] are those of [w0]. *)
Definition same_filesystem (w0 w : Tree.World) : Prop :=
  Tree.heap w = Tree.heap w0 /\ Tree.FileSystem w = Tree.FileSystem w0.

(** No byte of [s] is a slash. *)
Fixpoint no_slash (s : string) : bool :=
  match s with
  | EmptyString => true
  | String c s' => negb (Ascii.eqb c SLASH) && no_slash s'
  end.

(** A name of one path element: not empty, not [.] or [..], no slash. *)
Definition plain_name (d : string) : bool :=
  negb (String.eqb d EmptyString) && negb (String.eqb d ".")
  && negb (String.eqb d "..") && no_slash d.

(** The line [cd] writes when the path does not lead to a directory. *)
Definition cd_error_line (targetPath : string) : string :=
  "cd: " ++ targetPath ++ ": No such file or directory" ++ nl.


(** The message of the panic of a write into a nil map. *)
Definition nil_map_panic : string := "assignment to entry in nil map".

(** Every pointer held in a map of children leads to a node. *)
Definition closed (w : Tree.World) : Prop :=
  forall l n m name child,
    Tree.heap w !! l = Some n -> Tree.Children n = Some m ->
    m !! name = Some child -> is_Some (Tree.heap w !! child).

(** A well-formed world without dangling pointers. *)
Definition sound (w : Tree.World) : Prop := well_formed w /\ closed w.

(** A triple in which the only panic allowed is the write into a nil
    map. *)
Definition guarded {A : Type} (oof : Prop) (P : Tree.World -> Prop)
    (c : M Tree.World A) (Q : A -> Tree.World -> Prop) : Prop :=
  forall w, P w ->
    match c w with
    | Ret (a, w') => Q a w'
    | Panic msg => msg = nil_map_panic
    | OutOfFuel => oof
    end.

(** The line [line] is an [exit] command of the shell. *)
Definition exit_line (line : string) : Prop :=
  exists toks, strings.Fields line = "exit" :: toks.

(** [P] is kept when a name is entered in the flat filesystem with the
    empty content. *)
Definition closed_under_touch (P : Flat.World -> Prop) : Prop :=
  forall w file,
    P w ->
    P {| Flat.FileSystem := <[file := EmptyString]> (Flat.FileSystem w);
         Flat.runtime := Flat.runtime w |}.

(** Every file of [fs] is a file of [fs'], with the content it had or with
    the empty content. *)
Definition kept_or_emptied (fs fs' : gmap string string) : Prop :=
  forall file content,
    fs !! file = Some content ->
    fs' !! file = Some content \/ fs' !! file = Some EmptyString.

(** The computation [c] on the flat world returns from every state, with
    a runtime that is a later stage of the one it started with. *)
Definition always_returns {A : Type} (c : M Flat.World A) : Prop :=
  forall w, exists a w',
    c w = Ret (a, w') /\ advances (Flat.runtime w) (Flat.runtime w').

(** The flat world after the shell of the user [guest], without a pty, has
    run on the lines [lines]. *)
Definition flat_world_after (lines : list string) : Flat.World :=
  let w := Flat.init_world (quiet_runtime lines) in
  match Flat.executeProgram (3 * length lines + 3)
          (session "guest" false ["sh"]) w with
  | Ret (_, w') => w'
  | _ => w
  end.

(** Every line feed of [s] stands after a carriage return; [after_cr]
    tells whether the byte before [s] is one. *)
Fixpoint lf_after_cr (after_cr : bool) (s : string) : bool :=
  match s with
  | EmptyString => true
  | String c s' =>
      (if Ascii.eqb c LF then after_cr else true)
      && lf_after_cr (Ascii.eqb c CR) s'
  end.

(** One call of the log callback: the connection, the method and the
    error of the attempt. *)
Definition attempt : Type := Auth.ConnMetadata * string * option error.

(** The state after the log callback was called for each attempt in
    turn. *)
Definition after_attempts (attempts : list attempt) (st : AuthLog.State)
  : AuthLog.State :=
  fold_left
    (fun st '(conn, method, err) => AuthLog.authLogCallback conn method err st)
    attempts st.

(** The attempt carries the labels [labels]. *)
Definition has_labels (labels : string * string) (a : attempt) : bool :=
  let '(_, method, err) := a in
  bool_decide (labels = (method, match err with
                                 | None => "true"
                                 | Some _ => "false"
                                 end)).

(** The record logged for an attempt with the method [none]. *)
Definition none_events (attempts : list attempt) : list AuthLog.logEntry :=
  List.map
    (fun '(conn, _, err) =>
       AuthLog.noAuthLog {| Auth.log_User := Auth.User conn;
                            Auth.log_Accepted :=
                              match err with
                              | None => true
                              | Some _ => false
                              end |})
    (List.filter (fun '(_, method, _) => String.eqb method "none") attempts).

(** A client that gives the answers [answers]. *)
Definition answering (answers : list string)
  : Interactive.KeyboardInteractiveChallenge :=
  fun _ _ _ _ => (answers, None).

Definition interactive_config (accepted : bool)
    (questions : list Interactive.keyboardInteractiveAuthQuestion)
  : Interactive.config :=
  {| Interactive.KeyboardInteractiveAuth :=
       {| Interactive.Enabled := true; Interactive.Accepted := accepted;
          Interactive.Instruction := "Answer";
          Interactive.Questions := questions |};
     Interactive.validUser := "admin";
     Interactive.validPass := "secret" |}.

Definition no_logs : Interactive.Logs :=
  {| Interactive.events := []; Interactive.warnings := [] |}.

(** The fields of [d] can be written in the wire format: the ports are
    values of 32 bits and the lengths of the addresses fit in 32 bits. *)
Definition wire_sized (d : Tcpip.tcpipChannelData) : Prop :=
  0 <= Tcpip.Port d < 2 ^ 32
  /\ 0 <= Tcpip.OriginatorPort d < 2 ^ 32
  /\ Z.of_nat (String.length (Tcpip.Address d)) < 2 ^ 32
  /\ Z.of_nat (String.length (Tcpip.OriginatorAddress d)) < 2 ^ 32.


(** An action of the service loop itself: a log line for an input, or a
    reply to a request. *)
Definition loop_action (a : Tcpip.action) : bool :=
  match a with
  | Tcpip.LogInput _ | Tcpip.Reply _ => true
  | _ => false
  end.

(** The action answers the open request of the channel. *)
Definition answers_request (a : Channel.action) : bool :=
  match a with
  | Channel.Accept | Channel.Reject _ _ => true
  | _ => false
  end.

(** * Properties *)

(** ** The executor *)

Lemma Tree_executeProgram_empty fuel context w :
  args context = [] ->
  Tree.executeProgram (S fuel) context w = Ret ((0, None), w).
Proof. intros Hargs. simpl. rewrite Hargs. reflexivity. Qed.

Lemma Tree_executeProgram_unknown fuel context w name rest :
  args context = name :: rest ->
  Tree.commands !! name = None ->
  Tree.executeProgram (S fuel) context w =
    Ret ((127,
          write_error (Tree.runtime w) (written (Tree.runtime w))
            (stderr context) (name ++ ": command not found" ++ nl)),
         set_runtime
           (record_write (stderr context)
              (name ++ ": command not found" ++ nl) (Tree.runtime w)) w).
Proof. intros Hargs Hcmd. simpl. rewrite Hargs, Hcmd. reflexivity. Qed.

Lemma Tree_executeProgram_known fuel context w name rest command :
  args context = name :: rest ->
  Tree.commands !! name = Some command ->
  Tree.executeProgram (S fuel) context w =
    Tree.execute (Tree.executeProgram fuel)
      (fun c => Tree.cmdShell_execute fuel c) command context w.
Proof. intros Hargs Hcmd. simpl. rewrite Hargs, Hcmd. reflexivity. Qed.

Lemma Flat_executeProgram_empty fuel context w :
  args context = [] ->
  Flat.executeProgram (S fuel) context w = Ret ((0, None), w).
Proof. intros Hargs. simpl. rewrite Hargs. reflexivity. Qed.

Lemma Flat_executeProgram_unknown fuel context w name rest :
  args context = name :: rest ->
  Flat.commands !! name = None ->
  Flat.executeProgram (S fuel) context w =
    Ret ((127,
          write_error (Flat.runtime w) (written (Flat.runtime w))
            (stderr context) (name ++ ": command not found" ++ nl)),
         set_runtime
           (record_write (stderr context)
              (name ++ ": command not found" ++ nl) (Flat.runtime w)) w).
Proof. intros Hargs Hcmd. simpl. rewrite Hargs, Hcmd. reflexivity. Qed.

Lemma Flat_executeProgram_known fuel context w name rest command :
  args context = name :: rest ->
  Flat.commands !! name = Some command ->
  Flat.executeProgram (S fuel) context w =
    Flat.execute (Flat.executeProgram fuel)
      (fun c => Flat.cmdShell_execute fuel c) command context w.
Proof. intros Hargs Hcmd. simpl. rewrite Hargs, Hcmd. reflexivity. Qed.

(** The keys of the two registries. *)
Lemma Tree_commands_keys name :
  Tree.commands !! name = None <->
  name ∉ ["sh"; "true"; "false"; "echo"; "cat"; "ls"; "touch"; "mkdir";
          "cd"; "pwd"; "su"].
Proof.
  rewrite <- not_elem_of_dom.
  assert (Hdom : dom Tree.commands =
    list_to_set ["sh"; "true"; "false"; "echo"; "cat"; "ls"; "touch";
                 "mkdir"; "cd"; "pwd"; "su"]) by (vm_compute; reflexivity).
  rewrite Hdom, elem_of_list_to_set. reflexivity.
Qed.

Lemma Flat_commands_keys name :
  Flat.commands !! name = None <->
  name ∉ ["sh"; "true"; "false"; "echo"; "cat"; "ls"; "touch"; "su"].
Proof.
  rewrite <- not_elem_of_dom.
  assert (Hdom : dom Flat.commands =
    list_to_set ["sh"; "true"; "false"; "echo"; "cat"; "ls"; "touch"; "su"])
    by (vm_compute; reflexivity).
  rewrite Hdom, elem_of_list_to_set. reflexivity.
Qed.

(** C1.  In both versions of the interpreter the executor, given fuel,
    returns status 0 and does nothing when argv is empty.  When argv[0] is
    not a key of the registry it performs exactly one write, of the line
    [argv[0]: command not found] to the standard error of the context, and
    returns 127 with the error of that write.  Otherwise it returns what the
    [execute] method of the registered command returns on the same
    context. *)
Theorem executeProgram_contract (fuel : nat) (context : commandContext)
    (tw : Tree.World) (fw : Flat.World) :
  (args context = [] ->
     Tree.executeProgram (S fuel) context tw = Ret ((0, None), tw)
     /\ Flat.executeProgram (S fuel) context fw = Ret ((0, None), fw))
  /\ (forall name rest, args context = name :: rest ->
        let line := name ++ ": command not found" ++ nl in
        (Tree.commands !! name = None ->
           exists tw',
             Tree.executeProgram (S fuel) context tw =
               Ret ((127, write_error (Tree.runtime tw)
                            (written (Tree.runtime tw)) (stderr context) line),
                    tw')
             /\ written (Tree.runtime tw') =
                  (written (Tree.runtime tw) ++ [(stderr context, line)])%list
             /\ Tree.heap tw' = Tree.heap tw
             /\ Tree.FileSystem tw' = Tree.FileSystem tw)
        /\ (Flat.commands !! name = None ->
              exists fw',
                Flat.executeProgram (S fuel) context fw =
                  Ret ((127, write_error (Flat.runtime fw)
                               (written (Flat.runtime fw)) (stderr context) line),
                       fw')
                /\ written (Flat.runtime fw') =
                     (written (Flat.runtime fw) ++ [(stderr context, line)])%list
                /\ Flat.FileSystem fw' = Flat.FileSystem fw)
        /\ (forall command, Tree.commands !! name = Some command ->
              Tree.executeProgram (S fuel) context tw =
                Tree.execute (Tree.executeProgram fuel)
                  (fun c => Tree.cmdShell_execute fuel c) command context tw)
        /\ (forall command, Flat.commands !! name = Some command ->
              Flat.executeProgram (S fuel) context fw =
                Flat.execute (Flat.executeProgram fuel)
                  (fun c => Flat.cmdShell_execute fuel c) command context fw)).
Proof.
  split.
  - intros Hargs. split.
    + exact (Tree_executeProgram_empty fuel context tw Hargs).
    + exact (Flat_executeProgram_empty fuel context fw Hargs).
  - intros name rest Hargs line. repeat split.
    + intros Hcmd. eexists. split.
      * exact (Tree_executeProgram_unknown fuel context tw name rest Hargs Hcmd).
      * repeat split.
    + intros Hcmd. eexists. split.
      * exact (Flat_executeProgram_unknown fuel context fw name rest Hargs Hcmd).
      * repeat split.
    + intros command Hcmd.
      exact (Tree_executeProgram_known fuel context tw name rest command Hargs Hcmd).
    + intros command Hcmd.
      exact (Flat_executeProgram_known fuel context fw name rest command Hargs Hcmd).
Qed.

Lemma executeProgram_contract_witness :
  let tw := Tree.init_world (quiet_runtime []) in
  let fw := Flat.init_world (quiet_runtime []) in
  (Tree.executeProgram 1 (session "guest" true []) tw = Ret ((0, None), tw)
   /\ Flat.executeProgram 1 (session "guest" true []) fw = Ret ((0, None), fw))
  /\ (exists tw',
        Tree.executeProgram 1 (session "guest" true ["foo"]) tw =
          Ret ((127, None), tw')
        /\ written (Tree.runtime tw') =
             [(2%nat, "foo: command not found" ++ nl)])
  /\ Flat.executeProgram 1 (session "guest" true ["false"]) fw =
       Ret ((1, None), fw).
Proof.
  intros tw fw. split; [|split].
  - apply (proj1 (executeProgram_contract 0 (session "guest" true []) tw fw)).
    reflexivity.
  - destruct (proj2 (executeProgram_contract 0
                       (session "guest" true ["foo"]) tw fw)
                "foo" [] eq_refl) as (Hunknown & _).
    destruct Hunknown as (tw' & Hrun & Hlog & _).
    + vm_compute. reflexivity.
    + exists tw'. split; [exact Hrun | exact Hlog].
  - destruct (proj2 (executeProgram_contract 0
                       (session "guest" true ["false"]) tw fw)
                "false" [] eq_refl) as (_ & _ & _ & Hknown).
    rewrite (Hknown Flat.cmdFalse); [reflexivity | vm_compute; reflexivity].
Defined.
(** ** Parsing the argument of [exit] *)

Lemma digit_val_range c : strconv.is_digit c = true -> 0 <= strconv.digit_val c <= 9.
Proof.
  unfold strconv.is_digit, strconv.digit_val. intros H.
  apply andb_true_iff in H as [H1 H2]. lia.
Qed.

Lemma decimal_value_ge s : forall acc v,
  0 <= acc -> decimal_value s acc = Some v -> acc <= v.
Proof.
  induction s as [|c s IH]; intros acc v Hacc Hv; simpl in Hv.
  - injection Hv as <-. lia.
  - destruct (strconv.is_digit c) eqn:Hd; [|discriminate].
    pose proof (digit_val_range c Hd).
    apply IH in Hv; lia.
Qed.

(** The digit loop agrees with the value of the numeral as long as that
    value fits in 32 bits, and reports an error otherwise. *)
Lemma parse_digits_spec s : forall n,
  0 <= n < 2 ^ 32 ->
  match decimal_value s n with
  | Some v =>
      if v <? 2 ^ 32 then strconv.parse_digits s n (2 ^ 32 - 1) = (v, None)
      else exists x e, strconv.parse_digits s n (2 ^ 32 - 1) = (x, Some e)
  | None => exists x e, strconv.parse_digits s n (2 ^ 32 - 1) = (x, Some e)
  end.
Proof.
  induction s as [|c s IH]; intros n Hn; simpl.
  - destruct (n <? 2 ^ 32) eqn:E; [reflexivity | lia].
  - destruct (strconv.is_digit c) eqn:Hd; simpl; [|eauto].
    pose proof (digit_val_range c Hd) as Hc.
    assert (Hcut : (strconv.maxUint64 / 10 + 1 <=? n) = false).
    { apply Z.leb_gt. unfold strconv.maxUint64.
      change ((2 ^ 64 - 1) / 10 + 1) with 1844674407370955162. lia. }
    rewrite Hcut.
    destruct ((strconv.maxUint64 <? n * 10 + strconv.digit_val c)
              || (2 ^ 32 - 1 <? n * 10 + strconv.digit_val c)) eqn:Hov.
    + assert (Hbig : 2 ^ 32 <= n * 10 + strconv.digit_val c).
      { apply orb_true_iff in Hov as [H1 | H1]; apply Z.ltb_lt in H1;
          unfold strconv.maxUint64 in *; lia. }
      replace (10 * n) with (n * 10) by lia.
      destruct (decimal_value s (n * 10 + strconv.digit_val c)) as [v|] eqn:Hv;
        [|eauto].
      apply decimal_value_ge in Hv; [|lia].
      destruct (v <? 2 ^ 32) eqn:E; [lia | eauto].
    + apply orb_false_iff in Hov as [_ H2]. apply Z.ltb_ge in H2.
      replace (10 * n) with (n * 10) by lia.
      apply IH. lia.
Qed.

(** [strconv.ParseUint(s, 10, 32)] succeeds exactly on the unsigned 32-bit
    decimals, with their value. *)
Lemma ParseUint10_spec s :
  match uint32_decimal s with
  | Some v => strconv.ParseUint10 s 32 = (v, None) /\ 0 <= v < 2 ^ 32
  | None => exists x e, strconv.ParseUint10 s 32 = (x, Some e)
  end.
Proof.
  destruct s as [|c s]; [simpl; eauto|].
  unfold uint32_decimal, strconv.ParseUint10.
  pose proof (parse_digits_spec (String c s) 0 ltac:(lia)) as H.
  destruct (decimal_value (String c s) 0) as [v|] eqn:Hv; [|exact H].
  destruct (v <? 2 ^ 32) eqn:E; [|exact H].
  split; [exact H|]. apply decimal_value_ge in Hv; lia.
Qed.

Lemma exit_status_spec lastStatus toks :
  0 <= lastStatus < 2 ^ 32 ->
  exit_status lastStatus ("exit" :: toks) =
    match toks with
    | [] => lastStatus
    | tok :: _ =>
        match uint32_decimal tok with
        | Some v => v
        | None => 255
        end
    end.
Proof.
  intros Hl. unfold exit_status, to_uint32.
  destruct toks as [|tok toks].
  - apply Z.mod_small. lia.
  - pose proof (ParseUint10_spec tok) as H.
    destruct (uint32_decimal tok) as [v|].
    + destruct H as [-> Hv]. apply Z.mod_small. lia.
    + destruct H as (x & e & ->). reflexivity.
Qed.

(** The shell loop on a line that was read. *)
Lemma Tree_shell_loop_exit fuel context prompt lastStatus w line lines toks :
  write_error (Tree.runtime w) (written (Tree.runtime w))
    (stdout context) prompt = None ->
  readers (Tree.runtime w) !! stdin context = Some (line :: lines) ->
  strings.Fields line = "exit" :: toks ->
  exists w',
    Tree.shell_loop (S fuel) context prompt lastStatus w =
      Ret ((exit_status lastStatus ("exit" :: toks), None), w').
Proof.
  intros Hw Hr Hf. simpl. unfold bind, Fprint, Write. simpl.
  rewrite Hw. unfold ReadLine. simpl. rewrite Hr. rewrite Hf. simpl.
  eexists. reflexivity.
Qed.

(** C4.  When the shell loop, holding the last status [lastStatus], has
    written its prompt and reads a line whose first token is [exit], the
    shell returns without an error: the last status when there is no second
    token, the value of the second token when that is an unsigned 32-bit
    decimal (a value in [0, 2^32)), and 255 when the second token does not
    parse. *)
Theorem shell_exit_status (fuel : nat) (context : commandContext)
    (prompt : string) (lastStatus : uint32) (w : Tree.World)
    (line : string) (lines toks : list string) :
  0 <= lastStatus < 2 ^ 32 ->
  write_error (Tree.runtime w) (written (Tree.runtime w))
    (stdout context) prompt = None ->
  readers (Tree.runtime w) !! stdin context = Some (line :: lines) ->
  strings.Fields line = "exit" :: toks ->
  exists w',
    Tree.shell_loop (S fuel) context prompt lastStatus w =
      Ret ((match toks with
            | [] => lastStatus
            | tok :: _ =>
                match uint32_decimal tok with
                | Some v => v
                | None => 255
                end
            end, None), w').
Proof.
  intros Hl Hw Hr Hf.
  destruct (Tree_shell_loop_exit fuel context prompt lastStatus w line lines
              toks Hw Hr Hf) as (w' & Hrun).
  exists w'. rewrite Hrun, (exit_status_spec lastStatus toks Hl). reflexivity.
Qed.

Lemma shell_exit_status_witness :
  (exists w',
     Tree.shell_loop 1 (session "guest" true ["sh"]) "$ " 7
       (Tree.init_world (quiet_runtime ["exit"])) = Ret ((7, None), w'))
  /\ (exists w',
        Tree.shell_loop 1 (session "guest" true ["sh"]) "$ " 7
          (Tree.init_world (quiet_runtime ["exit 4294967295"])) =
          Ret ((4294967295, None), w'))
  /\ (exists w',
        Tree.shell_loop 1 (session "guest" true ["sh"]) "$ " 7
          (Tree.init_world (quiet_runtime ["exit 4294967296 1"])) =
          Ret ((255, None), w'))
  /\ (exists w',
        Tree.shell_loop 1 (session "guest" true ["sh"]) "$ " 7
          (Tree.init_world (quiet_runtime ["exit 5" ++ NBSP ++ "x"])) =
          Ret ((5, None), w'))
  /\ (exists w',
        Tree.shell_loop 1 (session "guest" true ["sh"]) "$ " 7
          (Tree.init_world (quiet_runtime ["exit" ++ NBSP ++ "5"])) =
          Ret ((5, None), w')).
Proof.
  split; [|split; [|split; [|split]]].
  - apply (shell_exit_status 0 (session "guest" true ["sh"]) "$ " 7
             (Tree.init_world (quiet_runtime ["exit"])) "exit" [] []);
      [lia | reflexivity | reflexivity | reflexivity].
  - apply (shell_exit_status 0 (session "guest" true ["sh"]) "$ " 7
             (Tree.init_world (quiet_runtime ["exit 4294967295"]))
             "exit 4294967295" [] ["4294967295"]);
      [lia | reflexivity | reflexivity | reflexivity].
  - apply (shell_exit_status 0 (session "guest" true ["sh"]) "$ " 7
             (Tree.init_world (quiet_runtime ["exit 4294967296 1"]))
             "exit 4294967296 1" [] ["4294967296"; "1"]);
      [lia | reflexivity | reflexivity | reflexivity].
  - apply (shell_exit_status 0 (session "guest" true ["sh"]) "$ " 7
             (Tree.init_world (quiet_runtime ["exit 5" ++ NBSP ++ "x"]))
             ("exit 5" ++ NBSP ++ "x") [] ["5"; "x"]);
      [lia | reflexivity | reflexivity | vm_compute; reflexivity].
  - apply (shell_exit_status 0 (session "guest" true ["sh"]) "$ " 7
             (Tree.init_world (quiet_runtime ["exit" ++ NBSP ++ "5"]))
             ("exit" ++ NBSP ++ "5") [] ["5"]);
      [lia | reflexivity | reflexivity | vm_compute; reflexivity].
Defined.

(** ** Fuel *)

Lemma Tree_executeProgram_S fuel context :
  Tree.executeProgram (S fuel) context =
    match args context with
    | [] => ret (0, None)
    | name :: _ =>
        match Tree.commands !! name with
        | None =>
            Fprint (stderr context) (name ++ ": command not found" ++ nl)
            >>= fun err => ret (127, err)
        | Some command =>
            Tree.execute (Tree.executeProgram fuel)
              (fun context =>
                 Tree.shell_loop fuel context (shell_prompt context) 0)
              command context
        end
    end.
Proof. reflexivity. Qed.

Lemma Tree_shell_loop_S fuel context prompt lastStatus :
  Tree.shell_loop (S fuel) context prompt lastStatus =
    (Fprint (stdout context) prompt >>= fun err =>
     match err with
     | Some e => ret (lastStatus, Some e)
     | None =>
         ReadLine (stdin context) >>= fun '(line, err) =>
         match err with
         | Some e => ret (lastStatus, Some e)
         | None =>
             let args := strings.Fields line in
             match args with
             | [] => Tree.shell_loop fuel context prompt lastStatus
             | arg0 :: _ =>
                 if String.eqb arg0 "exit" then
                   ret (exit_status lastStatus args, None)
                 else
                   let newContext := with_args context args in
                   Tree.executeProgram fuel newContext
                   >>= fun '(lastStatus, err) =>
                   match err with
                   | Some e => ret (lastStatus, Some e)
                   | None => Tree.shell_loop fuel context prompt lastStatus
                   end
             end
         end
     end).
Proof. reflexivity. Qed.

(** A run that did not stop for lack of fuel is not changed by more
    fuel. *)
Lemma Tree_fuel_succ n :
  (forall context w,
     Tree.executeProgram n context w <> OutOfFuel ->
     Tree.executeProgram (S n) context w = Tree.executeProgram n context w)
  /\ (forall context prompt lastStatus w,
        Tree.shell_loop n context prompt lastStatus w <> OutOfFuel ->
        Tree.shell_loop (S n) context prompt lastStatus w =
          Tree.shell_loop n context prompt lastStatus w).
Proof.
  induction n as [|n [IHe IHs]].
  - split; intros; simpl in *; unfold out_of_fuel in *; congruence.
  - split.
    + intros context w Hfin.
      rewrite (Tree_executeProgram_S (S n)).
      rewrite (Tree_executeProgram_S n) in Hfin |- *.
      destruct (args context) as [|name rest]; [reflexivity|].
      destruct (Tree.commands !! name) as [c|]; [|reflexivity].
      destruct c; try reflexivity; unfold Tree.execute in *.
      * apply IHs. exact Hfin.
      * unfold Tree.cmdSu_execute in *. apply IHe. exact Hfin.
    + intros context prompt lastStatus w Hfin.
      rewrite (Tree_shell_loop_S (S n)).
      rewrite (Tree_shell_loop_S n) in Hfin |- *.
      unfold bind, Fprint, Write, ReadLine in Hfin |- *.
      cbv beta iota zeta in Hfin |- *.
      destruct (write_error _ _ _ _) as [e|]; [reflexivity|].
      destruct (readers _ !! _) as [[|line lines]|]; [reflexivity| |reflexivity].
      destruct (strings.Fields line) as [|arg0 toks].
      * apply IHs. exact Hfin.
      * destruct (String.eqb arg0 "exit"); [reflexivity|].
        match type of Hfin with
        | context [Tree.executeProgram n ?c ?w2] =>
            destruct (Tree.executeProgram n c w2) as [[[st err] w3]|msg|] eqn:Hrun
        end.
        -- rewrite IHe, Hrun by (rewrite Hrun; discriminate).
           destruct err as [e|]; [reflexivity|].
           apply IHs. exact Hfin.
        -- rewrite IHe, Hrun by (rewrite Hrun; discriminate). reflexivity.
        -- exfalso. apply Hfin. reflexivity.
Qed.

Lemma Tree_executeProgram_fuel k : forall n context w,
  Tree.executeProgram n context w <> OutOfFuel ->
  Tree.executeProgram (n + k) context w = Tree.executeProgram n context w.
Proof.
  induction k as [|k IH]; intros n context w Hfin.
  - rewrite Nat.add_0_r. reflexivity.
  - replace (n + S k)%nat with (S n + k)%nat by lia.
    rewrite IH; rewrite (proj1 (Tree_fuel_succ n)); auto.
Qed.

(** ** Rules for the monad *)

Section Rules.
Context {W : Type} (oof : Prop).

Lemma triple_ret {A} (P : W -> Prop) (a : A) (Q : A -> W -> Prop) :
  (forall w, P w -> Q a w) -> triple oof P (ret a) Q.
Proof. intros H w Hw. simpl. auto. Qed.

Lemma triple_bind {A B} (P : W -> Prop) (c : M W A) (k : A -> M W B)
    (Q' : A -> W -> Prop) (Q : B -> W -> Prop) :
  triple oof P c Q' ->
  (forall a, triple oof (Q' a) (k a) Q) ->
  triple oof P (c >>= k) Q.
Proof.
  intros Hc Hk w Hw. specialize (Hc w Hw). unfold bind.
  destruct (c w) as [[a w']|msg|]; [|exact I|exact Hc].
  apply Hk. exact Hc.
Qed.

Lemma triple_weaken {A} (P P' : W -> Prop) (c : M W A) (Q Q' : A -> W -> Prop) :
  triple oof P' c Q' ->
  (forall w, P w -> P' w) ->
  (forall a w, Q' a w -> Q a w) ->
  triple oof P c Q.
Proof.
  intros Hc HP HQ w Hw. specialize (Hc w (HP w Hw)).
  destruct (c w) as [[a w']|msg|]; auto.
Qed.

Lemma triple_panic {A} (P : W -> Prop) msg (Q : A -> W -> Prop) :
  triple oof P (panic msg) Q.
Proof. intros w _. exact I. Qed.

Lemma triple_for_range {A R} (I : W -> Prop) (xs : list A)
    (body : A -> M W (option R)) (after : M W R) (Q : R -> W -> Prop) :
  (forall x, triple oof I (body x)
               (fun r w' => match r with Some v => Q v w' | None => I w' end)) ->
  triple oof I after Q ->
  triple oof I (for_range xs body after) Q.
Proof.
  intros Hbody Hafter. induction xs as [|x xs IH]; [exact Hafter|].
  simpl. eapply triple_bind; [apply Hbody|].
  intros [v|]; [apply triple_ret; auto | exact IH].
Qed.

Lemma triple_for_fold {A S R} (I : S -> W -> Prop) (xs : list A) (s : S)
    (body : A -> S -> M W (S + R)) (after : S -> M W R) (Q : R -> W -> Prop) :
  (forall x s, triple oof (I s) (body x s)
                 (fun r w' => match r with inl s' => I s' w' | inr v => Q v w' end)) ->
  (forall s, triple oof (I s) (after s) Q) ->
  triple oof (I s) (for_fold xs s body after) Q.
Proof.
  intros Hbody Hafter. revert s. induction xs as [|x xs IH]; intros s;
    [apply Hafter|].
  simpl. eapply triple_bind; [apply Hbody|].
  intros [s'|v]; [apply IH | apply triple_ret; auto].
Qed.

End Rules.

(** ** The operations of the tree filesystem keep it well formed *)

Section TreeRules.
Context (oof : Prop) (R : gmap nat (list string)).

Lemma triple_Write h data :
  triple oof (stable R) (Write h data) (fun _ w' => stable R w').
Proof. intros w Hw. exact Hw. Qed.

Lemma triple_range_keys keys :
  triple oof (stable R) (range_keys keys) (fun _ w' => stable R w').
Proof. intros w Hw. exact Hw. Qed.

Lemma triple_get_FileSystem (P : Tree.World -> Prop) :
  triple oof P Tree.get_FileSystem
    (fun fs w' => P w' /\ fs = Tree.FileSystem w').
Proof. intros w Hw. simpl. auto. Qed.

Lemma triple_deref (P : Tree.World -> Prop) l :
  triple oof P (Tree.deref l)
    (fun n w' => P w' /\ Tree.heap w' !! l = Some n).
Proof.
  intros w Hw. unfold Tree.deref. destruct (Tree.heap w !! l) eqn:E; auto.
Qed.

Lemma dir_at_alloc w l n :
  dir_at w l ->
  dir_at (Tree.set_heap
            (<[fresh (dom (Tree.heap w)) := n]> (Tree.heap w)) w) l.
Proof.
  intros (d & Hd & Hdir). exists d. split; [|exact Hdir]. simpl.
  rewrite lookup_insert_ne; [exact Hd|].
  intros Heq. apply (is_fresh (dom (Tree.heap w))). rewrite Heq.
  apply elem_of_dom. eauto.
Qed.

Lemma triple_new n :
  (Tree.IsDir n = true -> is_Some (Tree.Children n)) ->
  triple oof (stable R) (Tree.new n) (fun _ w' => stable R w').
Proof.
  intros Hn w [(Hch & Hcur & Hroot) Hr]. unfold Tree.new.
  split; [|exact Hr]. split; [|split].
  - intros l d. simpl. rewrite lookup_insert. case_decide.
    + intros [= <-]. exact Hn.
    + apply Hch.
  - apply (dir_at_alloc w _ n Hcur).
  - apply (dir_at_alloc w _ n Hroot).
Qed.

Lemma dir_at_set_child w node n m name child l :
  Tree.heap w !! node = Some n ->
  dir_at w l ->
  dir_at (Tree.set_heap
            (<[node := {| Tree.IsDir := Tree.IsDir n;
                          Tree.Content := Tree.Content n;
                          Tree.Children := Some (<[name := child]> m) |}]>
               (Tree.heap w)) w) l.
Proof.
  intros Hnode (d & Hd & Hdir). simpl. unfold dir_at. simpl.
  rewrite lookup_insert. case_decide.
  - subst l. eexists. split; [reflexivity|]. simpl. congruence.
  - eauto.
Qed.

Lemma triple_set_child node name child :
  triple oof (stable R) (Tree.set_child node name child)
    (fun _ w' => stable R w').
Proof.
  intros w [(Hch & Hcur & Hroot) Hr]. unfold Tree.set_child, bind, Tree.deref.
  destruct (Tree.heap w !! node) as [n|] eqn:Hnode; [|exact I].
  destruct (Tree.Children n) as [m|] eqn:Hm; [|exact I].
  split; [|exact Hr]. split; [|split].
  - intros l d. simpl. rewrite lookup_insert. case_decide.
    + intros [= <-] _. simpl. eauto.
    + apply Hch.
  - apply (dir_at_set_child w node n m name child _ Hnode Hcur).
  - apply (dir_at_set_child w node n m name child _ Hnode Hroot).
Qed.

Lemma triple_set_Current_Path node path :
  triple oof (fun w => stable R w /\ dir_at w node)
    (Tree.set_Current_Path node path) (fun _ w' => stable R w').
Proof.
  intros w [[(Hch & Hcur & Hroot) Hr] Hnode].
  unfold Tree.set_Current_Path, bind, Tree.get_FileSystem, Tree.put_FileSystem.
  split; [|exact Hr]. split; [exact Hch|]. split; [exact Hnode | exact Hroot].
Qed.

End TreeRules.

(** ** The commands of the tree filesystem keep it well formed *)

Section TreeCommands.
Context (oof : Prop) (R : gmap nat (list string)).

Lemma status_ok_small st e : 0 <= st <= 255 -> status_ok (st, e).
Proof. unfold status_ok. simpl. lia. Qed.

(** A write followed by the return of a constant status. *)
Lemma triple_write_status h data st :
  0 <= st <= 255 ->
  triple oof (stable R)
    (Write h data >>= fun err => ret (st, err)) (returns_stable R).
Proof.
  intros Hst. eapply triple_bind; [apply triple_Write|].
  intros err. apply triple_ret. intros w Hw. split; [exact Hw|].
  apply status_ok_small. exact Hst.
Qed.

Lemma triple_write_status_opt (P : Tree.World -> Prop) h data st :
  0 <= st <= 255 ->
  (forall w, P w -> stable R w) ->
  triple oof P
    (Write h data >>= fun err => ret (Some (st, err)))
    (fun r w' =>
       match r with
       | Some v => returns_stable R v w'
       | None => stable R w'
       end).
Proof.
  intros Hst HP w Hw. simpl. split; [apply (HP w Hw)|].
  apply status_ok_small. exact Hst.
Qed.

Lemma triple_cmdTrue context :
  triple oof (stable R) (Tree.cmdTrue_execute context) (returns_stable R).
Proof.
  apply triple_ret. intros w Hw.
  split; [exact Hw | apply status_ok_small; lia].
Qed.

Lemma triple_cmdFalse context :
  triple oof (stable R) (Tree.cmdFalse_execute context) (returns_stable R).
Proof.
  apply triple_ret. intros w Hw.
  split; [exact Hw | apply status_ok_small; lia].
Qed.

Lemma triple_cmdEcho context :
  triple oof (stable R) (Tree.cmdEcho_execute context) (returns_stable R).
Proof.
  unfold Tree.cmdEcho_execute. destruct (args context); [apply triple_panic|].
  apply triple_write_status. lia.
Qed.

Lemma triple_cmdPwd context :
  triple oof (stable R) (Tree.cmdPwd_execute context) (returns_stable R).
Proof.
  unfold Tree.cmdPwd_execute.
  eapply triple_bind; [apply triple_get_FileSystem|].
  intros fs. eapply triple_weaken;
    [apply (triple_write_status (stdout context) (Tree.Path fs ++ nl) 0); lia
    | intros w [Hw _]; exact Hw | auto].
Qed.

Lemma triple_ret_status st :
  0 <= st <= 255 ->
  triple oof (stable R) (ret (st, None)) (returns_stable R).
Proof.
  intros Hst. apply triple_ret. intros w Hw.
  split; [exact Hw | apply status_ok_small; exact Hst].
Qed.

Lemma triple_ls_file context file :
  triple oof (stable R) (ls_file context file)
    (fun r w' =>
       match r with
       | Some v => returns_stable R v w'
       | None => stable R w'
       end).
Proof.
  unfold ls_file. eapply triple_bind; [apply triple_Write|].
  intros [e|]; apply triple_ret; intros w Hw; [|exact Hw].
  split; [exact Hw | apply status_ok_small; lia].
Qed.

Lemma triple_cmdLs context :
  triple oof (stable R) (Tree.cmdLs_execute context) (returns_stable R).
Proof.
  unfold Tree.cmdLs_execute.
  eapply triple_bind; [apply triple_get_FileSystem|]. intros fs.
  eapply triple_bind; [apply triple_deref|]. intros cur.
  eapply triple_bind.
  { eapply triple_weaken; [apply (triple_range_keys oof R) | | intros a w H; exact H].
    intros w [[Hw _] _]. exact Hw. }
  intros files. apply triple_for_range.
  - intros file. apply triple_ls_file.
  - apply triple_ret_status. lia.
Qed.

Lemma triple_touch_file file :
  triple oof (stable R) (Tree.touch_file file)
    (fun r w' =>
       match r with
       | Some v => returns_stable R v w'
       | None => stable R w'
       end).
Proof.
  unfold Tree.touch_file.
  eapply triple_bind; [apply triple_get_FileSystem|]. intros fs.
  eapply triple_bind.
  { eapply triple_weaken; [apply (triple_new oof R) | | intros a w H; exact H].
    - discriminate.
    - intros w [Hw _]. exact Hw. }
  intros l. eapply triple_bind; [apply triple_set_child|].
  intros ?. apply triple_ret. auto.
Qed.

Lemma triple_cmdTouch context :
  triple oof (stable R) (Tree.cmdTouch_execute context) (returns_stable R).
Proof.
  unfold Tree.cmdTouch_execute. destruct (_ <? _)%nat.
  - apply triple_write_status. lia.
  - apply triple_for_range; [apply triple_touch_file|].
    apply triple_ret_status. lia.
Qed.

Lemma triple_cat_file context file :
  triple oof (stable R) (Tree.cat_file context file)
    (fun r w' =>
       match r with
       | Some v => returns_stable R v w'
       | None => stable R w'
       end).
Proof.
  unfold Tree.cat_file.
  eapply triple_bind; [apply triple_get_FileSystem|]. intros fs.
  eapply triple_bind; [apply triple_deref|]. intros cur.
  destruct (Tree.lookup_child cur file) as [l|].
  - eapply triple_bind; [apply triple_deref|]. intros node.
    destruct (negb (Tree.IsDir node)).
    + apply triple_write_status_opt; [lia|]. intros w [[[Hw _] _] _]. exact Hw.
    + apply triple_write_status_opt; [lia|]. intros w [[[Hw _] _] _]. exact Hw.
  - apply triple_write_status_opt; [lia|]. intros w [[Hw _] _]. exact Hw.
Qed.

Lemma triple_cmdCat context :
  triple oof (stable R) (Tree.cmdCat_execute context) (returns_stable R).
Proof.
  unfold Tree.cmdCat_execute. destruct (_ <? _)%nat.
  - apply triple_write_status. lia.
  - apply triple_for_range; [apply triple_cat_file|].
    apply triple_ret_status. lia.
Qed.

Lemma triple_mkdir_part part node :
  triple oof (stable R) (Tree.mkdir_part part node)
    (fun r w' => match r with
                 | inl _ => stable R w'
                 | inr v => match v with
                            | Some v => returns_stable R v w'
                            | None => stable R w'
                            end
                 end).
Proof.
  unfold Tree.mkdir_part. destruct (String.eqb part EmptyString);
    [apply triple_ret; auto|].
  eapply triple_bind; [apply triple_deref|]. intros n.
  eapply triple_bind with (Q' := fun _ w' => stable R w').
  - destruct (Tree.lookup_child n part).
    + apply triple_ret. intros w [Hw _]. exact Hw.
    + eapply triple_bind.
      * eapply triple_weaken;
          [apply (triple_new oof R Tree.dir_node) | | intros a w H; exact H].
        -- intros _. simpl. eauto.
        -- intros w [Hw _]. exact Hw.
      * intros child. apply triple_set_child.
  - intros ?. eapply triple_bind; [apply triple_deref|]. intros n'.
    destruct (Tree.lookup_child n' part); [|apply triple_panic].
    apply triple_ret. intros w [Hw _]. exact Hw.
Qed.

Lemma triple_cmdMkdir context :
  triple oof (stable R) (Tree.cmdMkdir_execute context) (returns_stable R).
Proof.
  unfold Tree.cmdMkdir_execute. destruct (_ <? _)%nat.
  - apply triple_write_status. lia.
  - apply triple_for_range; [|apply triple_ret_status; lia].
    intros dir. eapply triple_bind; [apply triple_get_FileSystem|]. intros fs.
    eapply triple_weaken.
    + apply (triple_for_fold oof (fun _ w => stable R w)) with
        (Q := fun r w' =>
                match r with
                | Some v => returns_stable R v w'
                | None => stable R w'
                end).
      * intros part node. apply triple_mkdir_part.
      * intros ?. apply triple_ret. auto.
    + intros w [Hw _]. exact Hw.
    + auto.
Qed.

Lemma triple_cd_part context targetPath part node :
  triple oof (fun w => stable R w /\ dir_at w node)
    (Tree.cd_part context targetPath part node)
    (fun r w' => match r with
                 | inl node' => stable R w' /\ dir_at w' node'
                 | inr v => returns_stable R v w'
                 end).
Proof.
  unfold Tree.cd_part. destruct (String.eqb part "..");
    [apply triple_ret; auto|].
  destruct (String.eqb part "." || String.eqb part EmptyString);
    [apply triple_ret; auto|].
  eapply triple_bind; [apply triple_deref|]. intros n.
  destruct (Tree.lookup_child n part) as [child|].
  - eapply triple_bind; [apply triple_deref|]. intros c.
    destruct (Tree.IsDir c) eqn:Hdir.
    + apply triple_ret. intros w [[[Hw _] _] Hc]. split; [exact Hw|].
      exists c. auto.
    + intros w [[[Hw _] _] _]. simpl. split; [exact Hw|].
      apply status_ok_small. lia.
  - intros w [[Hw _] _]. simpl. split; [exact Hw|].
    apply status_ok_small. lia.
Qed.

Lemma triple_cd_root :
  triple oof (stable R)
    (Tree.get_FileSystem >>= fun fs =>
     Tree.set_Current_Path (Tree.Root fs) "/" >>= fun _ => ret (0, None))
    (returns_stable R).
Proof.
  eapply triple_bind; [apply triple_get_FileSystem|]. intros fs.
  eapply triple_bind.
  - eapply triple_weaken;
      [apply (triple_set_Current_Path oof R) | | intros a w H; exact H].
    intros w [Hw ->]. split; [exact Hw|]. apply Hw.
  - intros ?. apply triple_ret_status. lia.
Qed.

Lemma triple_cmdCd context :
  triple oof (stable R) (Tree.cmdCd_execute context) (returns_stable R).
Proof.
  unfold Tree.cmdCd_execute.
  destruct (args context) as [|arg0 [|arg1 rest]];
    [apply triple_cd_root | apply triple_cd_root |].
  destruct (String.eqb (filepath.Clean arg1) "/"); [apply triple_cd_root|].
  eapply triple_bind; [apply triple_get_FileSystem|]. intros fs.
  eapply triple_weaken.
  - apply (triple_for_fold oof (fun node w => stable R w /\ dir_at w node))
      with (Q := (returns_stable R)).
    + intros part node. apply triple_cd_part.
    + intros node. eapply triple_bind; [apply triple_set_Current_Path|].
      intros ?. apply triple_ret_status. lia.
  - intros w [Hw ->]. split; [exact Hw|]. apply Hw.
  - auto.
Qed.

End TreeCommands.

(** ** The executor and the shell: invariant and termination *)

Lemma exit_status_ok lastStatus toks e :
  status_ok (exit_status lastStatus toks, e).
Proof.
  unfold status_ok, exit_status, to_uint32. simpl.
  apply Z.mod_pos_bound. lia.
Qed.

(** What a command that is not the shell or [su] does to a well-formed
    world. *)
Lemma leaf_outcome_ok oof h (c : M Tree.World result) w :
  (forall R, triple oof (stable R) c (fun r w' => stable R w' /\ status_ok r)) ->
  well_formed w ->
  outcome_ok oof h w (c w).
Proof.
  intros Hc Hw. specialize (Hc (readers (Tree.runtime w)) w (conj Hw eq_refl)).
  unfold outcome_ok. destruct (c w) as [[r w']|msg|]; [|exact I|exact Hc].
  destruct Hc as [[Hw' Hr] Hst]. split; [exact Hw'|]. split; [exact Hst|].
  unfold lines_left. rewrite Hr. lia.
Qed.

Lemma lines_left_read h w line rest :
  readers (Tree.runtime w) !! h = Some (line :: rest) ->
  forall w',
    readers (Tree.runtime w') = <[h := rest]> (readers (Tree.runtime w)) ->
    S (lines_left h w') = lines_left h w.
Proof.
  intros Hr w' Hw'. unfold lines_left. rewrite Hw', Hr, lookup_insert_eq.
  reflexivity.
Qed.

Theorem Tree_outcome_ok (oof : Prop) (fuel : nat) :
  (forall context w,
     well_formed w ->
     oof \/ (3 * lines_left (stdin context) w + 3 <= fuel)%nat ->
     outcome_ok oof (stdin context) w (Tree.executeProgram fuel context w))
  /\ (forall context rest w,
        args context = "sh" :: rest ->
        well_formed w ->
        oof \/ (3 * lines_left (stdin context) w + 2 <= fuel)%nat ->
        outcome_ok oof (stdin context) w (Tree.executeProgram fuel context w))
  /\ (forall context prompt lastStatus w,
        well_formed w ->
        0 <= lastStatus < 2 ^ 32 ->
        oof \/ (3 * lines_left (stdin context) w + 1 <= fuel)%nat ->
        outcome_ok oof (stdin context) w
          (Tree.shell_loop fuel context prompt lastStatus w)).
Proof.
  induction fuel as [|fuel (IHe & IHsh & IHl)].
  - repeat split; intros; simpl; unfold out_of_fuel;
      match goal with H : _ \/ _ |- _ => destruct H; [assumption | lia] end.
  - assert (Hsh : forall context w,
              well_formed w ->
              oof \/ (3 * lines_left (stdin context) w + 2 <= S fuel)%nat ->
              outcome_ok oof (stdin context) w
                (Tree.shell_loop fuel context (shell_prompt context) 0 w)).
    { intros context w Hw Hfuel. apply IHl; [exact Hw | lia |].
      destruct Hfuel; [left; assumption | right; lia]. }
    split; [|split].
    + intros context w Hw Hfuel. rewrite Tree_executeProgram_S.
      destruct (args context) as [|name rest] eqn:Hargs.
      { simpl. repeat split; try apply Hw; unfold status_ok; simpl; lia. }
      destruct (Tree.commands !! name) as [c|].
      2:{ apply leaf_outcome_ok; [|exact Hw]. intros R.
          apply triple_write_status. lia. }
      destruct c; unfold Tree.execute.
      * apply Hsh; [exact Hw|]. destruct Hfuel; [left; assumption | right; lia].
      * apply leaf_outcome_ok; [intros R; apply triple_cmdTrue | exact Hw].
      * apply leaf_outcome_ok; [intros R; apply triple_cmdFalse | exact Hw].
      * apply leaf_outcome_ok; [intros R; apply triple_cmdEcho | exact Hw].
      * apply leaf_outcome_ok; [intros R; apply triple_cmdCat | exact Hw].
      * apply leaf_outcome_ok; [intros R; apply triple_cmdLs | exact Hw].
      * apply leaf_outcome_ok; [intros R; apply triple_cmdTouch | exact Hw].
      * apply leaf_outcome_ok; [intros R; apply triple_cmdMkdir | exact Hw].
      * apply leaf_outcome_ok; [intros R; apply triple_cmdCd | exact Hw].
      * apply leaf_outcome_ok; [intros R; apply triple_cmdPwd | exact Hw].
      * unfold Tree.cmdSu_execute. rewrite Hargs.
        destruct rest as [|arg1 rest'];
          match goal with
          | |- outcome_ok _ _ _ (Tree.executeProgram fuel ?c w) =>
              apply (IHsh c [] w eq_refl Hw)
          end;
          (destruct Hfuel; [left; assumption | right; simpl; lia]).
    + intros context rest w Hargs Hw Hfuel. rewrite Tree_executeProgram_S, Hargs.
      change (Tree.commands !! "sh") with (Some Tree.cmdShell).
      unfold Tree.execute. apply Hsh; assumption.
    + intros context prompt lastStatus w Hw Hst Hfuel.
      rewrite Tree_shell_loop_S.
      unfold bind at 1. unfold Fprint, Write.
      destruct (write_error _ _ _ _) as [e|].
      { simpl. repeat split; try apply Hw; try exact Hst;
        unfold lines_left; simpl; lia. }
      unfold bind at 1. unfold ReadLine.
      cbn [get_runtime set_runtime Tree.World_runtime Tree.runtime
           record_write readers].
      destruct (readers (Tree.runtime w) !! stdin context) as [[|line lines]|] eqn:Hr;
        try (simpl; repeat split; try apply Hw; try exact Hst;
             unfold lines_left; simpl; lia).
      match goal with
      | |- outcome_ok _ _ _ (_ ?x) => set (w2 := x)
      end.
      assert (Hw2 : well_formed w2) by exact Hw.
      assert (Hl2 : S (lines_left (stdin context) w2) = lines_left (stdin context) w).
      { apply (lines_left_read (stdin context) w line lines Hr). reflexivity. }
      cbv zeta.
      assert (Hf1 : oof \/ (3 * lines_left (stdin context) w2 + 1 <= fuel)%nat)
        by (destruct Hfuel; [left; assumption | right; lia]).
      assert (Hf3 : oof \/ (3 * lines_left (stdin context) w2 + 3 <= fuel)%nat)
        by (destruct Hfuel; [left; assumption | right; lia]).
      destruct (strings.Fields line) as [|arg0 toks].
      { specialize (IHl context prompt lastStatus w2 Hw2 Hst Hf1).
        unfold outcome_ok in *.
        destruct (Tree.shell_loop fuel context prompt lastStatus w2)
          as [[r w']|msg|]; [|exact I|exact IHl].
        destruct IHl as (? & ? & ?).
        split; [assumption|]. split; [assumption | lia]. }
      destruct (String.eqb arg0 "exit").
      { unfold outcome_ok, ret. split; [exact Hw2|].
        split; [apply exit_status_ok | lia]. }
      unfold bind.
      specialize (IHe (with_args context (arg0 :: toks)) w2 Hw2 Hf3).
      change (stdin (with_args context (arg0 :: toks))) with (stdin context) in IHe.
      unfold outcome_ok in IHe.
      destruct (Tree.executeProgram fuel (with_args context (arg0 :: toks)) w2)
        as [[[st err] w3]|msg|]; [|exact I|exact IHe].
      destruct IHe as (Hw3 & Hst3 & Hl3).
      destruct err as [e|].
      { unfold ret. split; [exact Hw3|]. split; [exact Hst3 | lia]. }
      assert (Hf : oof \/ (3 * lines_left (stdin context) w3 + 1 <= fuel)%nat)
        by (destruct Hfuel; [left; assumption | right; lia]).
      specialize (IHl context prompt st w3 Hw3 Hst3 Hf).
      unfold outcome_ok in *.
      destruct (Tree.shell_loop fuel context prompt st w3) as [[r w']|msg|];
        [|exact I|exact IHl].
      destruct IHl as (? & ? & ?).
      split; [assumption|]. split; [assumption | lia].
Qed.

(** Whatever the fuel, a run from a well-formed world that returns leaves a
    well-formed world and a status of 32 bits. *)
Corollary Tree_executeProgram_well_formed fuel context w r w' :
  well_formed w ->
  Tree.executeProgram fuel context w = Ret (r, w') ->
  well_formed w' /\ status_ok r.
Proof.
  intros Hw Hrun.
  pose proof (proj1 (Tree_outcome_ok True fuel) context w Hw (or_introl I)) as H.
  rewrite Hrun in H. destruct H as (Hw' & Hst & _). auto.
Qed.

(** With three units of fuel for each line left on the standard input, and
    three more, the executor does not run out of fuel. *)
Corollary Tree_executeProgram_terminates context w :
  well_formed w ->
  Tree.executeProgram (3 * lines_left (stdin context) w + 3) context w
    <> OutOfFuel.
Proof.
  intros Hw Hrun.
  pose proof (proj1 (Tree_outcome_ok False _) context w Hw
                (or_intror (le_n _))) as H.
  rewrite Hrun in H. exact H.
Qed.

Lemma well_formed_init rt : well_formed (Tree.init_world rt).
Proof.
  split; [|split].
  - intros l n Hl Hdir. simpl in Hl. unfold Tree.init_heap in Hl.
    repeat (apply lookup_insert_Some in Hl as [[<- <-]|[_ Hl]];
            [first [discriminate Hdir | simpl; eauto]|]).
    apply lookup_singleton_Some in Hl as [<- <-]. discriminate Hdir.
  - eexists. split; [reflexivity | reflexivity].
  - eexists. split; [reflexivity | reflexivity].
Qed.

Lemma well_formed_current_is_dir w : well_formed w -> current_is_dir w.
Proof.
  intros (Hch & (n & Hn & Hdir) & _). unfold current_is_dir, tree_entries.
  rewrite Hn. exact (Hch _ _ Hn Hdir).
Qed.

(** ** [cd] and [pwd] *)

(** [pwd] writes the string held in [FileSystem.Path] and a newline to the
    standard output and returns 0 with the error of that write. *)
Lemma Tree_cmdPwd_execute_eq context w :
  Tree.cmdPwd_execute context w =
    Ret ((0, write_error (Tree.runtime w) (written (Tree.runtime w))
               (stdout context) (Tree.Path (Tree.FileSystem w) ++ nl)),
         set_runtime
           (record_write (stdout context)
              (Tree.Path (Tree.FileSystem w) ++ nl) (Tree.runtime w)) w).
Proof. reflexivity. Qed.

(** C5.  The shell run on the lines [mkdir a/b/c], [cd a/b/c], [pwd] from
    the initial filesystem, without a pty, ends at the end of its input with
    status 0, and what it has written to the standard output is [a/b/c] and a
    newline: [cd] has stored the cleaned argument, a relative path, in
    [FileSystem.Path], and [pwd] prints that string. *)
Theorem mkdir_cd_pwd_prints_relative_path (k : nat) :
  exists w',
    Tree.executeProgram (5 + k) (session "guest" false ["sh"])
      (Tree.init_world (quiet_runtime ["mkdir a/b/c"; "cd a/b/c"; "pwd"])) =
      Ret ((0, Some EOF), w')
    /\ output_on 1 (written (Tree.runtime w')) = "a/b/c" ++ nl
    /\ output_on 1 (written (Tree.runtime w')) <> "/a/b/c" ++ nl
    /\ Tree.Path (Tree.FileSystem w') = "a/b/c".
Proof.
  set (context := session "guest" false ["sh"]).
  set (w := Tree.init_world (quiet_runtime ["mkdir a/b/c"; "cd a/b/c"; "pwd"])).
  assert (Hrun : match Tree.executeProgram 5 context w with
                 | Ret ((st, e), w') =>
                     st = 0 /\ e = Some EOF
                     /\ output_on 1 (written (Tree.runtime w')) = "a/b/c" ++ nl
                     /\ Tree.Path (Tree.FileSystem w') = "a/b/c"
                 | _ => False
                 end)
    by (vm_compute; repeat split; reflexivity).
  rewrite Tree_executeProgram_fuel
    by (destruct (Tree.executeProgram 5 context w);
        [discriminate | discriminate | destruct Hrun]).
  destruct (Tree.executeProgram 5 context w) as [[[st e] w']|msg|];
    [|destruct Hrun|destruct Hrun].
  destruct Hrun as (-> & -> & Hout & Hpath).
  exists w'. repeat split; [exact Hout | | exact Hpath].
  rewrite Hout. discriminate.
Qed.

(** C6.  [cd ..] from any current directory returns 0 and writes nothing,
    leaves [FileSystem.Current] where it was and stores [..] in
    [FileSystem.Path]: the [..] element is passed over, not resolved to the
    parent.  At the root of the initial filesystem the path reported by [pwd]
    changes from [/] to [..]; after [mkdir a] and [cd a], [cd ..] leaves the
    current directory at [a], which is not the root. *)
Theorem cd_dotdot_is_passed_over (context : commandContext) (w : Tree.World) :
  Tree.cmdCd_execute (with_args context ["cd"; ".."]) w =
    Ret ((0, None),
         Tree.set_FileSystem
           {| Tree.Root := Tree.Root (Tree.FileSystem w);
              Tree.Current := Tree.Current (Tree.FileSystem w);
              Tree.Path := ".." |} w)
  /\ (exists w',
        Tree.executeProgram 4 (session "guest" false ["sh"])
          (Tree.init_world (quiet_runtime ["cd .."; "pwd"])) =
          Ret ((0, Some EOF), w')
        /\ output_on 1 (written (Tree.runtime w')) = ".." ++ nl
        /\ output_on 2 (written (Tree.runtime w')) = EmptyString)
  /\ (exists w',
        Tree.executeProgram 5 (session "guest" false ["sh"])
          (Tree.init_world (quiet_runtime ["mkdir a"; "cd a"; "cd .."])) =
          Ret ((0, Some EOF), w')
        /\ Tree.Current (Tree.FileSystem w') <> Tree.Root (Tree.FileSystem w')
        /\ tree_entries w' = Some ∅).
Proof.
  split; [reflexivity|]. split.
  - eexists. split; [vm_compute; reflexivity|].
    split; vm_compute; reflexivity.
  - eexists. split; [vm_compute; reflexivity|].
    split; [vm_compute; discriminate | vm_compute; reflexivity].
Qed.

(** ** [touch] on the tree filesystem *)

Lemma fresh_loc_not_allocated (w : Tree.World) l n :
  Tree.heap w !! l = Some n -> fresh (dom (Tree.heap w)) <> l.
Proof.
  intros Hl Heq. apply (is_fresh (dom (Tree.heap w))).
  rewrite Heq. apply elem_of_dom. eauto.
Qed.

Lemma tree_entries_Some w m :
  tree_entries w = Some m ->
  exists cur, Tree.heap w !! Tree.Current (Tree.FileSystem w) = Some cur
              /\ Tree.Children cur = Some m.
Proof.
  unfold tree_entries. destruct (Tree.heap w !! _) as [cur|]; [eauto|discriminate].
Qed.

(** One name: a new empty file node is allocated and entered under the
    name in the current directory; nothing else changes. *)
Lemma Tree_touch_one file w m :
  tree_entries w = Some m ->
  exists w',
    Tree.touch_file file w = Ret (None, w')
    /\ Tree.FileSystem w' = Tree.FileSystem w
    /\ Tree.runtime w' = Tree.runtime w
    /\ tree_entries w' = Some (<[file := fresh (dom (Tree.heap w))]> m)
    /\ Tree.heap w' !! fresh (dom (Tree.heap w)) =
         Some (Tree.file_node EmptyString)
    /\ (forall l, l <> Tree.Current (Tree.FileSystem w) ->
                  l <> fresh (dom (Tree.heap w)) ->
                  Tree.heap w' !! l = Tree.heap w !! l).
Proof.
  intros Hm. destruct (tree_entries_Some w m Hm) as (cur & Hcur & Hch).
  pose proof (fresh_loc_not_allocated w _ _ Hcur) as Hfresh.
  unfold Tree.touch_file, bind, Tree.get_FileSystem, Tree.new, Tree.set_child,
    bind, Tree.deref, ret. simpl.
  rewrite lookup_insert_ne by exact Hfresh. rewrite Hcur, Hch.
  eexists. split; [reflexivity|]. simpl.
  repeat split.
  - unfold tree_entries. simpl. rewrite lookup_insert_eq. reflexivity.
  - rewrite lookup_insert_ne by congruence. apply lookup_insert_eq.
  - intros l H1 H2. rewrite !lookup_insert_ne by congruence. reflexivity.
Qed.

(** Several names, in order. *)
Lemma Tree_touch_files files : forall w m,
  tree_entries w = Some m ->
  exists w' m',
    for_range files Tree.touch_file (ret (0, None)) w = Ret ((0, None), w')
    /\ Tree.FileSystem w' = Tree.FileSystem w
    /\ Tree.runtime w' = Tree.runtime w
    /\ tree_entries w' = Some m'
    /\ (forall name, name ∉ files -> m' !! name = m !! name)
    /\ (forall name, name ∈ files ->
          exists l, m' !! name = Some l
                    /\ l <> Tree.Current (Tree.FileSystem w)
                    /\ Tree.heap w' !! l = Some (Tree.file_node EmptyString))
    /\ (forall l n, Tree.heap w !! l = Some n ->
                    l <> Tree.Current (Tree.FileSystem w) ->
                    Tree.heap w' !! l = Some n).
Proof.
  induction files as [|file files IH]; intros w m Hm.
  - exists w, m. simpl. repeat split; auto.
    intros name Hin. inversion Hin.
  - destruct (Tree_touch_one file w m Hm)
      as (w1 & Hrun1 & Hfs1 & Hrt1 & Hm1 & Hnew1 & Hold1).
    destruct (IH w1 _ Hm1)
      as (w' & m' & Hrun & Hfs & Hrt & Hm' & Hother & Hfiles & Hold).
    destruct (tree_entries_Some w m Hm) as (cur & Hcur & Hch).
    pose proof (fresh_loc_not_allocated w _ _ Hcur) as Hfresh.
    exists w', m'. simpl. unfold bind at 1. rewrite Hrun1.
    split; [exact Hrun|].
    split; [congruence|]. split; [congruence|]. split; [exact Hm'|].
    split; [|split].
    + intros name Hnot. apply not_elem_of_cons in Hnot as [Hne Hnot].
      rewrite (Hother name Hnot). apply lookup_insert_ne. congruence.
    + intros name Hin. rewrite Hfs1 in Hfiles.
      destruct (decide (name ∈ files)) as [Hin'|Hnot].
      * apply Hfiles. exact Hin'.
      * apply elem_of_cons in Hin as [->|Hin]; [|contradiction].
        exists (fresh (dom (Tree.heap w))).
        rewrite (Hother file Hnot), lookup_insert_eq.
        split; [reflexivity|]. split; [exact Hfresh|].
        apply Hold; [exact Hnew1|]. rewrite Hfs1. exact Hfresh.
    + intros l n Hl Hne. apply Hold; [|rewrite Hfs1; exact Hne].
      rewrite Hold1; [exact Hl|exact Hne|].
      intros ->. apply (fresh_loc_not_allocated w _ _ Hl). reflexivity.
Qed.

Lemma Tree_cmdTouch_execute_files context arg0 file files :
  args context = arg0 :: file :: files ->
  Tree.cmdTouch_execute context =
    for_range (file :: files) Tree.touch_file (ret (0, None)).
Proof. intros Hargs. unfold Tree.cmdTouch_execute. rewrite Hargs. reflexivity. Qed.

(** ** [cat] and [ls] on the tree filesystem *)

(** [cat] of a name entered in the current directory as a file. *)
Lemma Tree_cat_file_found context file w m l node :
  tree_entries w = Some m ->
  m !! file = Some l ->
  Tree.heap w !! l = Some node ->
  Tree.IsDir node = false ->
  Tree.cat_file context file w =
    Ret (Some (0, write_error (Tree.runtime w) (written (Tree.runtime w))
                    (stdout context) (Tree.Content node ++ nl)),
         set_runtime
           (record_write (stdout context) (Tree.Content node ++ nl)
              (Tree.runtime w)) w).
Proof.
  intros Hm Hfile Hl Hdir.
  destruct (tree_entries_Some w m Hm) as (cur & Hcur & Hch).
  unfold Tree.cat_file, bind, Tree.get_FileSystem, Tree.deref,
    Tree.lookup_child. simpl.
  rewrite Hcur, Hch, Hfile, Hl, Hdir. reflexivity.
Qed.

(** [cat] of a name that is not entered, or is entered as a directory. *)
Lemma Tree_cat_file_missing context file w m :
  tree_entries w = Some m ->
  (m !! file = None
   \/ exists l node, m !! file = Some l /\ Tree.heap w !! l = Some node
                     /\ Tree.IsDir node = true) ->
  let line := "cat: " ++ file ++ ": No such file or directory" ++ nl in
  Tree.cat_file context file w =
    Ret (Some (1, write_error (Tree.runtime w) (written (Tree.runtime w))
                    (stderr context) line),
         set_runtime (record_write (stderr context) line (Tree.runtime w)) w).
Proof.
  intros Hm Hcase line.
  destruct (tree_entries_Some w m Hm) as (cur & Hcur & Hch).
  unfold Tree.cat_file, bind, Tree.get_FileSystem, Tree.deref,
    Tree.lookup_child. simpl.
  rewrite Hcur, Hch.
  destruct Hcase as [Hnone | (l & node & Hfile & Hl & Hdir)].
  - rewrite Hnone. reflexivity.
  - rewrite Hfile, Hl, Hdir. reflexivity.
Qed.

Lemma Tree_ls_file_eq context file (w : Tree.World) :
  ls_file context file w =
    Ret (match write_error (Tree.runtime w) (written (Tree.runtime w))
                 (stdout context) (file ++ nl) with
         | Some e => Some (1, Some e)
         | None => None
         end,
         set_runtime
           (record_write (stdout context) (file ++ nl) (Tree.runtime w)) w).
Proof.
  unfold ls_file, bind, Fprintln, Write. simpl.
  destruct (write_error _ _ _ _); reflexivity.
Qed.

(** The loop of [ls] writes the names in order, each with a newline, up to
    the first write that fails. *)
Lemma Tree_ls_loop context files : forall w,
  exists st e w',
    for_range files (ls_file context) (ret (0, None)) w = Ret ((st, e), w')
    /\ Tree.heap w' = Tree.heap w
    /\ Tree.FileSystem w' = Tree.FileSystem w
    /\ (e = None ->
          st = 0
          /\ written (Tree.runtime w') =
               (written (Tree.runtime w)
                ++ List.map
                     (fun file => (stdout context, (file ++ nl)%string))
                     files)%list).
Proof.
  induction files as [|file files IH]; intros w.
  - exists 0, None, w. simpl. rewrite app_nil_r. auto.
  - simpl. unfold bind at 1. rewrite Tree_ls_file_eq.
    destruct (write_error _ _ _ _) as [e|].
    + eexists _, _, _. split; [reflexivity|]. simpl.
      repeat split; discriminate.
    + destruct (IH (set_runtime
                      (record_write (stdout context) (file ++ nl)
                         (Tree.runtime w)) w))
        as (st & e & w' & Hrun & Hheap & Hfs & Hlog).
      exists st, e, w'. split; [exact Hrun|].
      split; [exact Hheap|]. split; [exact Hfs|].
      intros He. destruct (Hlog He) as [Hst Hw].
      split; [exact Hst|]. rewrite Hw. simpl. rewrite <- app_assoc. reflexivity.
Qed.

Lemma Tree_cmdLs_execute_lists context w m :
  tree_entries w = Some m ->
  exists st e w',
    Tree.cmdLs_execute context w = Ret ((st, e), w')
    /\ Tree.heap w' = Tree.heap w
    /\ Tree.FileSystem w' = Tree.FileSystem w
    /\ (e = None ->
          st = 0
          /\ exists files,
               Permutation files (map_to_list m).*1
               /\ written (Tree.runtime w') =
                    (written (Tree.runtime w)
                     ++ List.map
                          (fun file => (stdout context, (file ++ nl)%string))
                          files)%list).
Proof.
  intros Hm. destruct (tree_entries_Some w m Hm) as (cur & Hcur & Hch).
  unfold Tree.cmdLs_execute, bind, Tree.get_FileSystem, Tree.deref, range_keys.
  simpl. rewrite Hcur. unfold Tree.child_names. rewrite Hch.
  match goal with
  | |- context [for_range ?fs _ _ ?w1] =>
      destruct (Tree_ls_loop context fs w1) as (st & e & w' & Hrun & Hheap & Hfs & Hlog)
  end.
  exists st, e, w'. split; [exact Hrun|]. split; [exact Hheap|].
  split; [exact Hfs|]. intros He. destruct (Hlog He) as [Hst Hw].
  split; [exact Hst|]. eexists. split; [apply order_perm|exact Hw].
Qed.

(** ** [cd] on the tree filesystem *)

(** One element of the path: the walk goes on and nothing has changed, or
    [cd] returns status 1, or a dangling pointer was followed. *)
Lemma Tree_cd_part_cases context targetPath part node w :
  match Tree.cd_part context targetPath part node w with
  | Ret (inl _, w') => w' = w
  | Ret (inr (st, _), _) => st = 1
  | Panic _ => True
  | OutOfFuel => False
  end.
Proof.
  unfold Tree.cd_part.
  destruct (String.eqb part ".."); [reflexivity|].
  destruct (String.eqb part "." || String.eqb part EmptyString); [reflexivity|].
  unfold bind, Tree.deref.
  destruct (Tree.heap w !! node) as [n|]; [|exact I].
  destruct (Tree.lookup_child n part) as [child|]; [|reflexivity].
  destruct (Tree.heap w !! child) as [c|]; [|exact I].
  destruct (Tree.IsDir c); reflexivity.
Qed.

(** When [cd] walks a path and returns status 0, [FileSystem.Path] is the
    cleaned argument. *)
Lemma Tree_cd_walk_path context targetPath parts : forall node w st e w1,
  for_fold parts node (Tree.cd_part context targetPath)
    (fun node =>
       Tree.set_Current_Path node targetPath >>= fun _ => ret (0, None)) w =
    Ret ((st, e), w1) ->
  st = 0 ->
  Tree.Path (Tree.FileSystem w1) = targetPath.
Proof.
  induction parts as [|part parts IH]; intros node w st e w1 Hrun Hst.
  - simpl in Hrun. injection Hrun as _ _ <-. reflexivity.
  - simpl in Hrun. unfold bind at 1 in Hrun.
    pose proof (Tree_cd_part_cases context targetPath part node w) as Hpart.
    destruct (Tree.cd_part context targetPath part node w)
      as [[[node'|[st' e']] w']|msg|]; try discriminate.
    + subst w'. eapply IH; eauto.
    + injection Hrun as <- _ _. lia.
Qed.

Lemma Tree_cmdCd_execute_path context arg0 dir rest w st e w1 :
  args context = arg0 :: dir :: rest ->
  Tree.cmdCd_execute context w = Ret ((st, e), w1) ->
  st = 0 ->
  Tree.Path (Tree.FileSystem w1) = filepath.Clean dir.
Proof.
  intros Hargs Hrun Hst. unfold Tree.cmdCd_execute in Hrun. rewrite Hargs in Hrun.
  destruct (String.eqb (filepath.Clean dir) "/") eqn:Hroot.
  - apply String.eqb_eq in Hroot. rewrite Hroot.
    injection Hrun as _ _ <-. reflexivity.
  - unfold bind at 1 in Hrun. simpl in Hrun.
    eapply Tree_cd_walk_path; eauto.
Qed.

(** ** One filesystem for all contexts *)

(** C10.  The filesystem is part of the state of the process, not of the
    command context.  For all contexts [c1] and [c2], whatever their users
    and their streams: after [touch file] run in [c1], [cat file] run in
    [c2] returns 0 and writes the empty content and a newline to the standard
    output of [c2], and [ls] run in [c2] writes the name among the entries
    it lists, unless a write fails; and after a [cd dir] that returned 0 in
    [c1], [pwd] run in [c2] writes the path that [cd] has stored. *)
Theorem filesystem_shared_between_contexts (fuel1 fuel2 : nat)
    (c1 c2 : commandContext) (w : Tree.World) :
  (current_is_dir w ->
   forall file, exists w1,
     Tree.executeProgram (S fuel1) (with_args c1 ["touch"; file]) w =
       Ret ((0, None), w1)
     /\ Tree.executeProgram (S fuel2) (with_args c2 ["cat"; file]) w1 =
          Ret ((0, write_error (Tree.runtime w1) (written (Tree.runtime w1))
                     (stdout c2) nl),
               set_runtime (record_write (stdout c2) nl (Tree.runtime w1)) w1)
     /\ exists st e w2,
          Tree.executeProgram (S fuel2) (with_args c2 ["ls"]) w1 =
            Ret ((st, e), w2)
          /\ (e = None ->
                st = 0
                /\ exists files,
                     file ∈ files
                     /\ written (Tree.runtime w2) =
                          (written (Tree.runtime w1)
                           ++ List.map
                                (fun name => (stdout c2, (name ++ nl)%string))
                                files)%list))
  /\ (forall dir e w1,
        Tree.executeProgram (S fuel1) (with_args c1 ["cd"; dir]) w =
          Ret ((0, e), w1) ->
        Tree.Path (Tree.FileSystem w1) = filepath.Clean dir
        /\ Tree.executeProgram (S fuel2) (with_args c2 ["pwd"]) w1 =
             Ret ((0, write_error (Tree.runtime w1) (written (Tree.runtime w1))
                        (stdout c2) (filepath.Clean dir ++ nl)),
                  set_runtime
                    (record_write (stdout c2) (filepath.Clean dir ++ nl)
                       (Tree.runtime w1)) w1)).
Proof.
  split.
  - intros [m Hm] file.
    destruct (Tree_touch_files [file] w m Hm)
      as (w1 & m1 & Hrun & Hfs & Hrt & Hm1 & _ & Hnew & _).
    destruct (Hnew file) as (l & Hl & _ & Hnode);
      [apply list_elem_of_singleton; reflexivity|].
    exists w1. split; [|split].
    + rewrite (Tree_executeProgram_known fuel1 _ w "touch" [file] Tree.cmdTouch)
        by reflexivity.
      exact Hrun.
    + rewrite (Tree_executeProgram_known fuel2 _ w1 "cat" [file] Tree.cmdCat)
        by reflexivity.
      unfold Tree.execute, Tree.cmdCat_execute. simpl. unfold bind at 1.
      rewrite (Tree_cat_file_found (with_args c2 ["cat"; file]) file w1 m1 l
                 (Tree.file_node EmptyString) Hm1 Hl Hnode eq_refl).
      reflexivity.
    + rewrite (Tree_executeProgram_known fuel2 _ w1 "ls" [] Tree.cmdLs)
        by reflexivity.
      destruct (Tree_cmdLs_execute_lists (with_args c2 ["ls"]) w1 m1 Hm1)
        as (st & e & w2 & Hls & _ & _ & Hlog).
      exists st, e, w2. split; [exact Hls|].
      intros He. destruct (Hlog He) as (Hst & files & Hperm & Hw).
      split; [exact Hst|]. exists files. split; [|exact Hw].
      rewrite Hperm. apply list_elem_of_fmap.
      exists (file, l). split; [reflexivity|].
      apply elem_of_map_to_list. exact Hl.
  - intros dir e w1 Hcd.
    rewrite (Tree_executeProgram_known fuel1 _ w "cd" [dir] Tree.cmdCd) in Hcd
      by reflexivity.
    pose proof (Tree_cmdCd_execute_path (with_args c1 ["cd"; dir]) "cd" dir []
                  w 0 e w1 eq_refl Hcd eq_refl) as Hpath.
    split; [exact Hpath|].
    rewrite (Tree_executeProgram_known fuel2 _ w1 "pwd" [] Tree.cmdPwd)
      by reflexivity.
    unfold Tree.execute. rewrite Tree_cmdPwd_execute_eq, Hpath. reflexivity.
Qed.

Lemma filesystem_shared_between_contexts_witness :
  let c1 := session "guest" true [] in
  let c2 := other_session [] in
  let w := world_after ["mkdir d"] in
  let w1 := Tree.set_FileSystem
              {| Tree.Root := 0%nat; Tree.Current := 4%nat; Tree.Path := "d" |}
              w in
  current_is_dir w
  /\ (exists w1,
        Tree.executeProgram 1 (with_args c1 ["touch"; "new.txt"]) w =
          Ret ((0, None), w1)
        /\ Tree.executeProgram 1 (with_args c2 ["cat"; "new.txt"]) w1 =
             Ret ((0, write_error (Tree.runtime w1)
                        (written (Tree.runtime w1)) 4%nat nl),
                  set_runtime (record_write 4 nl (Tree.runtime w1)) w1))
  /\ Tree.executeProgram 1 (with_args c1 ["cd"; "d"]) w = Ret ((0, None), w1)
  /\ Tree.executeProgram 1 (with_args c2 ["pwd"]) w1 =
       Ret ((0, None),
            set_runtime (record_write 4 ("d" ++ nl) (Tree.runtime w1)) w1).
Proof.
  intros c1 c2 w w1.
  assert (Hdir : current_is_dir w) by (eexists; vm_compute; reflexivity).
  assert (Hcd : Tree.executeProgram 1 (with_args c1 ["cd"; "d"]) w =
                Ret ((0, None), w1)) by (vm_compute; reflexivity).
  split; [exact Hdir|]. split; [|split; [exact Hcd|]].
  - destruct (proj1 (filesystem_shared_between_contexts 0 0 c1 c2 w) Hdir
                "new.txt") as (w2 & Htouch & Hcat & _).
    exists w2. split; [exact Htouch | exact Hcat].
  - exact (proj2 (proj2 (filesystem_shared_between_contexts 0 0 c1 c2 w)
                    "d" None w1 Hcd)).
Defined.

(** ** [touch] *)

Lemma Tree_cmdTouch_execute_usage context w :
  (length (args context) < 2)%nat ->
  Tree.cmdTouch_execute context w =
    Ret ((1, write_error (Tree.runtime w) (written (Tree.runtime w))
               (stderr context) (touch_usage ++ nl)),
         set_runtime
           (record_write (stderr context) (touch_usage ++ nl) (Tree.runtime w))
           w).
Proof.
  intros Hlen. unfold Tree.cmdTouch_execute.
  destruct (Nat.ltb_spec (length (args context)) 2); [reflexivity | lia].
Qed.

Lemma Flat_cmdTouch_execute_usage context w :
  (length (args context) < 2)%nat ->
  Flat.cmdTouch_execute context w =
    Ret ((1, write_error (Flat.runtime w) (written (Flat.runtime w))
               (stdout context) (touch_usage ++ nl)),
         set_runtime
           (record_write (stdout context) (touch_usage ++ nl) (Flat.runtime w))
           w).
Proof.
  intros Hlen. unfold Flat.cmdTouch_execute.
  destruct (args context) as [|arg0 [|file more]]; simpl in Hlen;
    [reflexivity | reflexivity | lia].
Qed.

Lemma Flat_cmdTouch_execute_denied context w arg0 file more :
  args context = arg0 :: file :: more ->
  is_Some (Flat.FileSystem w !! file) ->
  user context <> "root" ->
  let line := ("touch: cannot touch " ++ dquote ++ file ++ dquote
               ++ " : Permission denied") ++ nl in
  Flat.cmdTouch_execute context w =
    Ret ((1, write_error (Flat.runtime w) (written (Flat.runtime w))
               (stdout context) line),
         set_runtime (record_write (stdout context) line (Flat.runtime w)) w).
Proof.
  intros Hargs Hex Huser line. unfold Flat.cmdTouch_execute. rewrite Hargs.
  unfold bind, Flat.get_FileSystem.
  rewrite bool_decide_eq_true_2 by exact Hex.
  apply String.eqb_neq in Huser. rewrite Huser. simpl.
  reflexivity.
Qed.

Lemma Flat_cmdTouch_execute_allowed context w arg0 file more :
  args context = arg0 :: file :: more ->
  Flat.FileSystem w !! file = None \/ user context = "root" ->
  Flat.cmdTouch_execute context w =
    Ret ((0, None),
         {| Flat.FileSystem :=
              match more with
              | [] => <[file := EmptyString]> (Flat.FileSystem w)
              | _ => Flat.FileSystem w
              end;
            Flat.runtime := Flat.runtime w |}).
Proof.
  intros Hargs Hcase. unfold Flat.cmdTouch_execute. rewrite Hargs.
  unfold bind, Flat.get_FileSystem.
  assert (Hcond : bool_decide (is_Some (Flat.FileSystem w !! file))
                  && negb (String.eqb (user context) "root") = false).
  { destruct Hcase as [Hnone | Hroot].
    - rewrite bool_decide_eq_false_2; [reflexivity|].
      rewrite Hnone. intros [? ?]. discriminate.
    - rewrite Hroot, String.eqb_refl. apply andb_false_r. }
  rewrite Hcond. destruct more; destruct w; reflexivity.
Qed.

(** C2, as the code has it.  On the tree filesystem [touch] without a file
    argument writes the usage line to the standard error and returns 1; with
    file arguments it writes nothing and returns 0, whoever the user is, and
    every name given is then entered in the current directory as a new empty
    file, also when the name was entered before, while the other entries
    stay as they were.  On the flat filesystem [touch] without a file
    argument writes the usage line to the standard output and returns 1; with
    file arguments it looks at the first name only: when that name exists and
    the user is not root it writes the permission-denied line to the standard
    output, returns 1 and leaves the filesystem as it was; otherwise it
    returns 0, having set the content of that name to the empty string when
    it is the only name given, and having left the filesystem as it was when
    more names are given. *)
Theorem touch_behaviour (context : commandContext)
    (tw : Tree.World) (fw : Flat.World) :
  ((length (args context) < 2)%nat ->
     Tree.cmdTouch_execute context tw =
       Ret ((1, write_error (Tree.runtime tw) (written (Tree.runtime tw))
                  (stderr context) (touch_usage ++ nl)),
            set_runtime
              (record_write (stderr context) (touch_usage ++ nl)
                 (Tree.runtime tw)) tw)
     /\ Flat.cmdTouch_execute context fw =
          Ret ((1, write_error (Flat.runtime fw) (written (Flat.runtime fw))
                     (stdout context) (touch_usage ++ nl)),
               set_runtime
                 (record_write (stdout context) (touch_usage ++ nl)
                    (Flat.runtime fw)) fw))
  /\ (forall arg0 file files, args context = arg0 :: file :: files ->
        (forall m, tree_entries tw = Some m ->
           exists tw' m',
             Tree.cmdTouch_execute context tw = Ret ((0, None), tw')
             /\ Tree.FileSystem tw' = Tree.FileSystem tw
             /\ Tree.runtime tw' = Tree.runtime tw
             /\ tree_entries tw' = Some m'
             /\ (forall name, name ∉ file :: files -> m' !! name = m !! name)
             /\ (forall name, name ∈ file :: files ->
                   exists l, m' !! name = Some l
                             /\ Tree.heap tw' !! l =
                                  Some (Tree.file_node EmptyString)))
        /\ (is_Some (Flat.FileSystem fw !! file) -> user context <> "root" ->
              let line := ("touch: cannot touch " ++ dquote ++ file ++ dquote
                           ++ " : Permission denied") ++ nl in
              Flat.cmdTouch_execute context fw =
                Ret ((1, write_error (Flat.runtime fw)
                           (written (Flat.runtime fw)) (stdout context) line),
                     set_runtime
                       (record_write (stdout context) line (Flat.runtime fw))
                       fw))
        /\ (Flat.FileSystem fw !! file = None \/ user context = "root" ->
              Flat.cmdTouch_execute context fw =
                Ret ((0, None),
                     {| Flat.FileSystem :=
                          match files with
                          | [] => <[file := EmptyString]> (Flat.FileSystem fw)
                          | _ => Flat.FileSystem fw
                          end;
                        Flat.runtime := Flat.runtime fw |}))).
Proof.
  split.
  - intros Hlen. split.
    + exact (Tree_cmdTouch_execute_usage context tw Hlen).
    + exact (Flat_cmdTouch_execute_usage context fw Hlen).
  - intros arg0 file files Hargs. split; [|split].
    + intros m Hm.
      destruct (Tree_touch_files (file :: files) tw m Hm)
        as (tw' & m' & Hrun & Hfs & Hrt & Hm' & Hother & Hnew & _).
      exists tw', m'.
      rewrite (Tree_cmdTouch_execute_files context arg0 file files Hargs).
      repeat split; try assumption.
      intros name Hin. destruct (Hnew name Hin) as (l & Hl & _ & Hnode).
      exists l. split; assumption.
    + intros Hex Huser.
      exact (Flat_cmdTouch_execute_denied context fw arg0 file files
               Hargs Hex Huser).
    + intros Hcase.
      exact (Flat_cmdTouch_execute_allowed context fw arg0 file files
               Hargs Hcase).
Qed.

Lemma touch_behaviour_witness :
  let tw := Tree.init_world (quiet_runtime []) in
  let fw := Flat.init_world (quiet_runtime []) in
  (Tree.cmdTouch_execute (session "guest" true ["touch"]) tw =
     Ret ((1, None),
          set_runtime (record_write 2 (touch_usage ++ nl) (Tree.runtime tw)) tw)
   /\ Flat.cmdTouch_execute (session "guest" true ["touch"]) fw =
        Ret ((1, None),
             set_runtime (record_write 1 (touch_usage ++ nl) (Flat.runtime fw))
               fw))
  /\ (exists tw' m',
        Tree.cmdTouch_execute (session "guest" true ["touch"; "usr.txt"; "x"])
          tw = Ret ((0, None), tw')
        /\ tree_entries tw' = Some m'
        /\ (exists l, m' !! "usr.txt" = Some l
                      /\ Tree.heap tw' !! l = Some (Tree.file_node EmptyString)))
  /\ Flat.cmdTouch_execute (session "guest" true ["touch"; "usr.txt"]) fw =
       Ret ((1, None),
            set_runtime
              (record_write 1
                 (("touch: cannot touch " ++ dquote ++ "usr.txt" ++ dquote
                   ++ " : Permission denied") ++ nl) (Flat.runtime fw)) fw)
  /\ Flat.cmdTouch_execute (session "root" true ["touch"; "usr.txt"]) fw =
       Ret ((0, None),
            {| Flat.FileSystem :=
                 <["usr.txt" := EmptyString]> (Flat.FileSystem fw);
               Flat.runtime := Flat.runtime fw |}).
Proof.
  intros tw fw. split; [|split; [|split]].
  - apply (proj1 (touch_behaviour (session "guest" true ["touch"]) tw fw)).
    simpl. lia.
  - destruct (proj2 (touch_behaviour
                       (session "guest" true ["touch"; "usr.txt"; "x"]) tw fw)
                "touch" "usr.txt" ["x"] eq_refl) as (Htree & _ & _).
    destruct (Htree {[ "usr.txt" := 1%nat; "pwd.txt" := 2%nat;
                       "checking_account.txt" := 3%nat ]} eq_refl)
      as (tw' & m' & Hrun & _ & _ & Hm' & _ & Hnew).
    exists tw', m'. split; [exact Hrun|]. split; [exact Hm'|].
    apply Hnew. apply elem_of_cons. left. reflexivity.
  - destruct (proj2 (touch_behaviour
                       (session "guest" true ["touch"; "usr.txt"]) tw fw)
                "touch" "usr.txt" [] eq_refl) as (_ & Hdenied & _).
    apply Hdenied; [vm_compute; eauto | discriminate].
  - destruct (proj2 (touch_behaviour
                       (session "root" true ["touch"; "usr.txt"]) tw fw)
                "touch" "usr.txt" [] eq_refl) as (_ & _ & Hallowed).
    apply Hallowed. right. reflexivity.
Defined.

(** The claim C2 fails on the code.  On the tree filesystem a user who is
    not root touches the existing [usr.txt]: the command returns 0 and writes
    nothing, where the claim has a permission-denied line and status 1.  On
    the flat filesystem root touches the existing [usr.txt]: its content is
    then empty, where the claim leaves it intact. *)
Lemma touch_claim_fails :
  (exists w',
     Tree.executeProgram 1 (session "guest" true ["touch"; "usr.txt"])
       (Tree.init_world (quiet_runtime [])) = Ret ((0, None), w')
     /\ written (Tree.runtime w') = [])
  /\ (exists w',
        Flat.executeProgram 1 (session "root" true ["touch"; "usr.txt"])
          (Flat.init_world (quiet_runtime [])) = Ret ((0, None), w')
        /\ Flat.init_FileSystem !! "usr.txt" = Some usr_txt
        /\ Flat.FileSystem w' !! "usr.txt" = Some EmptyString
        /\ usr_txt <> EmptyString).
Proof.
  split.
  - eexists. split; vm_compute; reflexivity.
  - eexists. split; [vm_compute; reflexivity|].
    split; [vm_compute; reflexivity|].
    split; [vm_compute; reflexivity | discriminate].
Qed.
(** ** [cat] *)

Lemma Tree_cmdCat_execute_no_operand context w :
  (length (args context) < 2)%nat ->
  Tree.cmdCat_execute context w =
    Ret ((1, write_error (Tree.runtime w) (written (Tree.runtime w))
               (stderr context) ("cat: missing operand" ++ nl)),
         set_runtime
           (record_write (stderr context) ("cat: missing operand" ++ nl)
              (Tree.runtime w)) w).
Proof.
  intros Hlen. unfold Tree.cmdCat_execute.
  destruct (Nat.ltb_spec (length (args context)) 2); [reflexivity | lia].
Qed.

Lemma Flat_cmdCat_execute_no_operand context w :
  (length (args context) < 2)%nat ->
  Flat.cmdCat_execute context w = Ret ((0, None), w).
Proof.
  intros Hlen. unfold Flat.cmdCat_execute.
  destruct (args context) as [|arg0 [|file more]]; simpl in Hlen;
    [reflexivity | reflexivity | lia].
Qed.

Lemma Flat_cat_file_eq context arg0 file w :
  writers_never_fail (Flat.runtime w) ->
  Flat.cat_file context arg0 file w =
    Ret (None,
         set_runtime
           (record_write (fst (flat_cat_line context arg0 (Flat.FileSystem w) file))
              (snd (flat_cat_line context arg0 (Flat.FileSystem w) file))
              (Flat.runtime w)) w).
Proof.
  intros Hok. unfold Flat.cat_file, flat_cat_line, bind, Flat.get_FileSystem,
    Fprintln, Fprint, Write. simpl.
  destruct (Flat.FileSystem w !! file); simpl; rewrite Hok; reflexivity.
Qed.

(** The loop of [cat] on the flat filesystem goes through all its
    arguments when no write fails. *)
Lemma Flat_cat_loop context arg0 files : forall w,
  writers_never_fail (Flat.runtime w) ->
  exists w',
    for_range files (Flat.cat_file context arg0) (ret (1, None)) w =
      Ret ((1, None), w')
    /\ Flat.FileSystem w' = Flat.FileSystem w
    /\ written (Flat.runtime w') =
         (written (Flat.runtime w)
          ++ List.map (flat_cat_line context arg0 (Flat.FileSystem w)) files)%list.
Proof.
  induction files as [|file files IH]; intros w Hok.
  - exists w. simpl. rewrite app_nil_r. auto.
  - simpl. unfold bind at 1. rewrite Flat_cat_file_eq by exact Hok.
    match goal with
    | |- context [for_range files _ _ ?w1] =>
        destruct (IH w1) as (w' & Hrun & Hfs & Hlog); [exact Hok|]
    end.
    exists w'. split; [exact Hrun|]. split; [exact Hfs|].
    rewrite Hlog. simpl.
    destruct (flat_cat_line context arg0 (Flat.FileSystem w) file).
    rewrite <- app_assoc. reflexivity.
Qed.

Lemma Tree_cmdCat_execute_one context arg0 file :
  args context = [arg0; file] ->
  forall w,
    Tree.cmdCat_execute context w =
      match Tree.cat_file context file w with
      | Ret (Some r, w') => Ret (r, w')
      | Ret (None, w') => Ret ((0, None), w')
      | Panic msg => Panic msg
      | OutOfFuel => OutOfFuel
      end.
Proof.
  intros Hargs w. unfold Tree.cmdCat_execute. rewrite Hargs. simpl.
  unfold bind. destruct (Tree.cat_file context file w) as [[[r|] w']|msg|];
    reflexivity.
Qed.

(** C3, as the code has it.  On the flat filesystem [cat] without a file
    argument returns 0 and writes nothing; with file arguments, and writers
    that do not fail, it goes through all of them in order and writes, for a
    name that exists, its content and a newline to the standard output, and
    for any other name the line [argv[0]: name: No such file or directory]
    to the standard error, and returns without an error.  On the tree
    filesystem [cat] without a file argument writes [cat: missing operand]
    to the standard error and returns 1; with one file argument it writes
    the content and a newline to the standard output and returns 0 when the
    name is entered in the current directory as a file, and writes
    [cat: name: No such file or directory] to the standard error and
    returns 1 when the name is not entered or is a directory. *)
Theorem cat_behaviour (context : commandContext)
    (tw : Tree.World) (fw : Flat.World) :
  ((length (args context) < 2)%nat ->
     Flat.cmdCat_execute context fw = Ret ((0, None), fw)
     /\ Tree.cmdCat_execute context tw =
          Ret ((1, write_error (Tree.runtime tw) (written (Tree.runtime tw))
                     (stderr context) ("cat: missing operand" ++ nl)),
               set_runtime
                 (record_write (stderr context) ("cat: missing operand" ++ nl)
                    (Tree.runtime tw)) tw))
  /\ (forall arg0 file files, args context = arg0 :: file :: files ->
        writers_never_fail (Flat.runtime fw) ->
        exists st fw',
          Flat.cmdCat_execute context fw = Ret ((st, None), fw')
          /\ Flat.FileSystem fw' = Flat.FileSystem fw
          /\ written (Flat.runtime fw') =
               (written (Flat.runtime fw)
                ++ List.map (flat_cat_line context arg0 (Flat.FileSystem fw))
                     (file :: files))%list)
  /\ (forall arg0 file m, args context = [arg0; file] ->
        tree_entries tw = Some m ->
        (forall l node,
           m !! file = Some l -> Tree.heap tw !! l = Some node ->
           Tree.IsDir node = false ->
           Tree.cmdCat_execute context tw =
             Ret ((0, write_error (Tree.runtime tw) (written (Tree.runtime tw))
                        (stdout context) (Tree.Content node ++ nl)),
                  set_runtime
                    (record_write (stdout context) (Tree.Content node ++ nl)
                       (Tree.runtime tw)) tw))
        /\ (m !! file = None
            \/ (exists l node, m !! file = Some l
                               /\ Tree.heap tw !! l = Some node
                               /\ Tree.IsDir node = true) ->
            let line := "cat: " ++ file ++ ": No such file or directory" ++ nl in
            Tree.cmdCat_execute context tw =
              Ret ((1, write_error (Tree.runtime tw) (written (Tree.runtime tw))
                         (stderr context) line),
                   set_runtime
                     (record_write (stderr context) line (Tree.runtime tw))
                     tw))).
Proof.
  split; [|split].
  - intros Hlen. split.
    + exact (Flat_cmdCat_execute_no_operand context fw Hlen).
    + exact (Tree_cmdCat_execute_no_operand context tw Hlen).
  - intros arg0 file files Hargs Hok.
    destruct (Flat_cat_loop context arg0 (file :: files) fw Hok)
      as (fw' & Hrun & Hfs & Hlog).
    exists 1, fw'. unfold Flat.cmdCat_execute. rewrite Hargs.
    split; [exact Hrun|]. split; [exact Hfs | exact Hlog].
  - intros arg0 file m Hargs Hm. split.
    + intros l node Hfile Hl Hdir.
      rewrite (Tree_cmdCat_execute_one context arg0 file Hargs).
      rewrite (Tree_cat_file_found context file tw m l node Hm Hfile Hl Hdir).
      reflexivity.
    + intros Hcase line.
      rewrite (Tree_cmdCat_execute_one context arg0 file Hargs).
      rewrite (Tree_cat_file_missing context file tw m Hm Hcase).
      reflexivity.
Qed.

Lemma cat_behaviour_witness :
  let tw := Tree.init_world (quiet_runtime []) in
  let fw := Flat.init_world (quiet_runtime []) in
  (Flat.cmdCat_execute (session "guest" true ["cat"]) fw = Ret ((0, None), fw)
   /\ Tree.cmdCat_execute (session "guest" true ["cat"]) tw =
        Ret ((1, None),
             set_runtime
               (record_write 2 ("cat: missing operand" ++ nl) (Tree.runtime tw))
               tw))
  /\ (exists st fw',
        Flat.cmdCat_execute (session "guest" true ["cat"; "usr.txt"; "nope"]) fw
          = Ret ((st, None), fw')
        /\ written (Flat.runtime fw') =
             [(1%nat, usr_txt ++ nl);
              (2%nat, "cat: nope: No such file or directory" ++ nl)])
  /\ Tree.cmdCat_execute (session "guest" true ["cat"; "usr.txt"]) tw =
       Ret ((0, None),
            set_runtime (record_write 1 (usr_txt ++ nl) (Tree.runtime tw)) tw)
  /\ Tree.cmdCat_execute (session "guest" true ["cat"; "nope"]) tw =
       Ret ((1, None),
            set_runtime
              (record_write 2 ("cat: nope: No such file or directory" ++ nl)
                 (Tree.runtime tw)) tw).
Proof.
  intros tw fw. split; [|split; [|split]].
  - apply (proj1 (cat_behaviour (session "guest" true ["cat"]) tw fw)).
    simpl. lia.
  - destruct (proj1 (proj2 (cat_behaviour
                (session "guest" true ["cat"; "usr.txt"; "nope"]) tw fw))
                "cat" "usr.txt" ["nope"] eq_refl)
      as (st & fw' & Hrun & _ & Hlog).
    + intros log w data. reflexivity.
    + exists st, fw'. split; [exact Hrun | exact Hlog].
  - destruct (proj2 (proj2 (cat_behaviour
                (session "guest" true ["cat"; "usr.txt"]) tw fw))
                "cat" "usr.txt"
                {[ "usr.txt" := 1%nat; "pwd.txt" := 2%nat;
                   "checking_account.txt" := 3%nat ]} eq_refl eq_refl)
      as (Hfound & _).
    apply (Hfound 1%nat (Tree.file_node usr_txt));
      [vm_compute; reflexivity | vm_compute; reflexivity | reflexivity].
  - destruct (proj2 (proj2 (cat_behaviour
                (session "guest" true ["cat"; "nope"]) tw fw))
                "cat" "nope"
                {[ "usr.txt" := 1%nat; "pwd.txt" := 2%nat;
                   "checking_account.txt" := 3%nat ]} eq_refl eq_refl)
      as (_ & Hmissing).
    apply Hmissing. left. vm_compute. reflexivity.
Defined.

(** The claim C3 fails on the code.  On the tree filesystem [cat] without a
    file argument writes a line to the standard error and returns 1, where
    the claim has no output and status 0; and [cat nope usr.txt] writes the
    line for [nope] only, where the claim has every argument processed.  On
    the flat filesystem [cat usr.txt] writes the content of the existing file
    and returns 1, where the claim has status 0. *)
Lemma cat_claim_fails :
  (exists w',
     Tree.executeProgram 1 (session "guest" true ["cat"])
       (Tree.init_world (quiet_runtime [])) = Ret ((1, None), w')
     /\ written (Tree.runtime w') = [(2%nat, "cat: missing operand" ++ nl)])
  /\ (exists w',
        Tree.executeProgram 1 (session "guest" true ["cat"; "nope"; "usr.txt"])
          (Tree.init_world (quiet_runtime [])) = Ret ((1, None), w')
        /\ written (Tree.runtime w') =
             [(2%nat, "cat: nope: No such file or directory" ++ nl)])
  /\ (exists w',
        Flat.executeProgram 1 (session "guest" true ["cat"; "usr.txt"])
          (Flat.init_world (quiet_runtime [])) = Ret ((1, None), w')
        /\ written (Flat.runtime w') = [(1%nat, usr_txt ++ nl)]).
Proof.
  split; [|split]; eexists; split; vm_compute; reflexivity.
Qed.
(** ** The banner *)

Lemma prefix_cons a s1 b s2 :
  String.prefix (String a s1) (String b s2) =
    Ascii.eqb b a && String.prefix s1 s2.
Proof.
  cbn [String.prefix]. destruct (ascii_dec a b) as [<-|Hne].
  - rewrite Ascii.eqb_refl. reflexivity.
  - assert (Ascii.eqb b a = false) as -> by (apply Ascii.eqb_neq; congruence).
    reflexivity.
Qed.

Lemma prefix_empty s : String.prefix EmptyString s = true.
Proof. destruct s; reflexivity. Qed.

Lemma prefix_nl c s : String.prefix nl (String c s) = Ascii.eqb c LF.
Proof.
  unfold nl. rewrite prefix_cons, prefix_empty. apply andb_true_r.
Qed.

Lemma prefix_crlf c c' s :
  String.prefix crlf (String c (String c' s)) =
    Ascii.eqb c CR && Ascii.eqb c' LF.
Proof.
  unfold crlf. rewrite !prefix_cons, prefix_empty, andb_true_r. reflexivity.
Qed.

Lemma prefix_crlf_short c : String.prefix crlf (String c EmptyString) = false.
Proof. unfold crlf. rewrite prefix_cons. apply andb_false_r. Qed.

Lemma replace_from_cons c s old new :
  strings.replace_from (String c s) old new 0 =
    if String.prefix old (String c s)
    then new ++ strings.replace_from s old new (String.length old - 1)
    else String c (strings.replace_from s old new 0).
Proof. reflexivity. Qed.

Lemma replace_from_skip c s old new k :
  strings.replace_from (String c s) old new (S k) =
    strings.replace_from s old new k.
Proof. reflexivity. Qed.

Lemma collapse_crlf_cons c c' s :
  collapse_crlf (String c (String c' s)) =
    if Ascii.eqb c CR && Ascii.eqb c' LF then collapse_crlf (String c' s)
    else String c (collapse_crlf (String c' s)).
Proof. reflexivity. Qed.

(** Replacing line feed by carriage return, line feed. *)
Lemma replace_lf s : strings.replace_from s nl crlf 0 = lf_to_crlf s.
Proof.
  induction s as [|c s IH]; [reflexivity|].
  rewrite replace_from_cons, prefix_nl. cbn [lf_to_crlf].
  destruct (Ascii.eqb c LF); rewrite <- IH; reflexivity.
Qed.

(** Replacing carriage return, line feed by line feed. *)
Lemma replace_crlf s :
  strings.replace_from s crlf nl 0 = collapse_crlf s
  /\ forall c, strings.replace_from (String c s) crlf nl 0 =
               collapse_crlf (String c s).
Proof.
  induction s as [|c' s [IH1 IH2]].
  - split; [reflexivity|]. intros c.
    rewrite replace_from_cons, prefix_crlf_short. reflexivity.
  - split; [apply IH2|]. intros c.
    rewrite replace_from_cons, prefix_crlf, collapse_crlf_cons.
    destruct (Ascii.eqb c CR && Ascii.eqb c' LF) eqn:E.
    + apply andb_true_iff in E as [_ E2]. apply Ascii.eqb_eq in E2. subst c'.
      change (String.length crlf - 1)%nat with 1%nat.
      rewrite replace_from_skip, IH1.
      destruct s as [|c'' s]; [reflexivity|].
      rewrite collapse_crlf_cons. reflexivity.
    + rewrite IH2. reflexivity.
Qed.

Lemma collapse_no_crlf s : no_crlf s = true -> collapse_crlf s = s.
Proof.
  induction s as [|c s IH]; [reflexivity|].
  destruct s as [|c' s]; [reflexivity|].
  intros H. change (no_crlf (String c (String c' s))) with
    (negb (Ascii.eqb c CR && Ascii.eqb c' LF) && no_crlf (String c' s)) in H.
  apply andb_true_iff in H as [H1 H2].
  rewrite collapse_crlf_cons. apply negb_true_iff in H1. rewrite H1.
  rewrite (IH H2). reflexivity.
Qed.

Lemma render_banner_spec configured :
  Auth.render_banner configured =
    ensure_crlf (lf_to_crlf (collapse_crlf configured)).
Proof.
  unfold Auth.render_banner, ensure_crlf, strings.ReplaceAll. simpl.
  rewrite (proj1 (replace_crlf configured)), replace_lf.
  destruct (strings.HasSuffix _ crlf); reflexivity.
Qed.

(** C9, as the code has it.  For a configured banner that is not empty the
    banner sent to the client is the configured string in which every
    carriage return standing before a line feed is first dropped, then every
    line feed is turned into carriage return, line feed, and a trailing
    carriage return, line feed is appended when there is none.  For a
    configured banner in which no carriage return stands before a line feed
    this is the configured string with every line feed turned into carriage
    return, line feed and the trailing pair ensured. *)
Theorem banner_rendering (cfg : Auth.config) :
  Auth.Banner (Auth.SSHProto cfg) <> EmptyString ->
  exists callback,
    Auth.getBannerCallback cfg = Some callback
    /\ forall conn,
         callback conn =
           ensure_crlf (lf_to_crlf (collapse_crlf (Auth.Banner (Auth.SSHProto cfg))))
         /\ (no_crlf (Auth.Banner (Auth.SSHProto cfg)) = true ->
             callback conn = spec_banner (Auth.Banner (Auth.SSHProto cfg))).
Proof.
  intros Hne. unfold Auth.getBannerCallback.
  apply String.eqb_neq in Hne. rewrite Hne.
  eexists. split; [reflexivity|]. intros conn. cbv beta.
  rewrite render_banner_spec. split; [reflexivity|].
  intros Hno. rewrite (collapse_no_crlf _ Hno). reflexivity.
Qed.

Lemma banner_rendering_witness :
  exists callback,
    Auth.getBannerCallback (sample_config true ("Hello" ++ nl ++ "World")) =
      Some callback
    /\ callback {| Auth.User := "guest" |} =
         "Hello" ++ crlf ++ "World" ++ crlf.
Proof.
  destruct (banner_rendering (sample_config true ("Hello" ++ nl ++ "World")))
    as (callback & Hcb & Hspec).
  - discriminate.
  - exists callback. split; [exact Hcb|].
    destruct (Hspec {| Auth.User := "guest" |}) as [_ Hno].
    rewrite Hno; reflexivity.
Defined.

(** The claim C9 fails on the code.  The configured banner [a], carriage
    return, line feed, [b] is sent as [a], carriage return, line feed, [b],
    carriage return, line feed: the pair that is there is kept.  Turning
    every line feed of the configured string into carriage return, line
    feed gives two carriage returns after [a]. *)
Lemma banner_claim_fails :
  exists callback,
    Auth.getBannerCallback (sample_config true ("a" ++ crlf ++ "b")) =
      Some callback
    /\ callback {| Auth.User := "guest" |} = "a" ++ crlf ++ "b" ++ crlf
    /\ spec_banner ("a" ++ crlf ++ "b") =
         "a" ++ String CR crlf ++ "b" ++ crlf
    /\ callback {| Auth.User := "guest" |} <> spec_banner ("a" ++ crlf ++ "b").
Proof.
  eexists. split; [reflexivity|]. split; [reflexivity|].
  split; [reflexivity | discriminate].
Qed.

(** ** Password authentication *)

Lemma getPasswordCallback_enabled cfg :
  Auth.Enabled (Auth.PasswordAuth (Auth.Auth cfg)) = true ->
  Auth.getPasswordCallback cfg = Some (Auth.passwordCallback cfg).
Proof. intros H. unfold Auth.getPasswordCallback. rewrite H. reflexivity. Qed.

Lemma getPasswordCallback_Some cfg callback :
  Auth.getPasswordCallback cfg = Some callback ->
  Auth.Enabled (Auth.PasswordAuth (Auth.Auth cfg)) = true
  /\ callback = Auth.passwordCallback cfg.
Proof.
  unfold Auth.getPasswordCallback.
  destruct (Auth.Enabled (Auth.PasswordAuth (Auth.Auth cfg))); simpl;
    intros H; [injection H as <-; auto | discriminate].
Qed.

Lemma publicKeyCallback_verdict cfg conn fingerprint log :
  fst (Auth.publicKeyCallback cfg conn fingerprint log) = None <->
  Auth.Accepted (Auth.PublicKeyAuth (Auth.Auth cfg)) = true.
Proof.
  unfold Auth.publicKeyCallback.
  destruct (Auth.Accepted (Auth.PublicKeyAuth (Auth.Auth cfg))); simpl;
    split; congruence.
Qed.

(** C7, as the code has it.  When password authentication is enabled, an
    attempt succeeds exactly when the user is [valid_user] and the password
    is [valid_pass], whatever [auth.password.accepted] is; every other
    attempt is rejected with an error whose message is the empty string; and
    every attempt appends exactly one record to the event log, with the user
    and the password of the attempt, and with the accepted flag of the
    configuration for an attempt that succeeds and false for one that is
    rejected. *)
Theorem password_callback_verdict (cfg : Auth.config)
    (callback : Auth.ConnMetadata -> string -> list Auth.logEntry ->
                Auth.verdict * list Auth.logEntry)
    (conn : Auth.ConnMetadata) (password : string) (log : list Auth.logEntry) :
  Auth.getPasswordCallback cfg = Some callback ->
  (fst (callback conn password log) = None <->
     Auth.User conn = Auth.validUser cfg /\ password = Auth.validPass cfg)
  /\ (fst (callback conn password log) <> None ->
        fst (callback conn password log) = Some EmptyString)
  /\ snd (callback conn password log) =
       (log ++ [Auth.passwordAuthLog
                  {| Auth.log_User := Auth.User conn;
                     Auth.log_Accepted :=
                       match fst (callback conn password log) with
                       | None => Auth.Accepted (Auth.PasswordAuth (Auth.Auth cfg))
                       | Some _ => false
                       end |} password])%list.
Proof.
  intros Hcb. apply getPasswordCallback_Some in Hcb as [_ ->].
  unfold Auth.passwordCallback.
  destruct (String.eqb (Auth.User conn) (Auth.validUser cfg)) eqn:Hu;
    [destruct (String.eqb password (Auth.validPass cfg)) eqn:Hp|]; simpl.
  - apply String.eqb_eq in Hu, Hp. repeat split; auto. congruence.
  - apply String.eqb_neq in Hp. repeat split; try congruence.
    intros [_ ?]. contradiction.
  - apply String.eqb_neq in Hu. repeat split; try congruence.
    intros [? _]. contradiction.
Qed.

Lemma password_callback_verdict_witness :
  fst (Auth.passwordCallback (sample_config false EmptyString)
         {| Auth.User := "admin" |} "secret" []) = None
  /\ snd (Auth.passwordCallback (sample_config true EmptyString)
            {| Auth.User := "guest" |} "1234" []) =
       [Auth.passwordAuthLog
          {| Auth.log_User := "guest"; Auth.log_Accepted := false |} "1234"].
Proof.
  split.
  - apply (password_callback_verdict (sample_config false EmptyString)
             (Auth.passwordCallback (sample_config false EmptyString))
             {| Auth.User := "admin" |} "secret" [] eq_refl).
    split; reflexivity.
  - exact (proj2 (proj2 (password_callback_verdict
             (sample_config true EmptyString)
             (Auth.passwordCallback (sample_config true EmptyString))
             {| Auth.User := "guest" |} "1234" [] eq_refl))).
Defined.

(** The claim C7 fails on the code.  With [auth.password.accepted] set, an
    attempt of the user [guest] with the password [1234], which are not the
    valid credentials, is rejected, where the claim has it succeed. *)
Lemma password_accepted_flag_is_ignored :
  exists callback,
    Auth.getPasswordCallback (sample_config true EmptyString) = Some callback
    /\ Auth.Accepted (Auth.PasswordAuth (Auth.Auth (sample_config true EmptyString)))
       = true
    /\ fst (callback {| Auth.User := "guest" |} "1234" []) = Some EmptyString.
Proof. eexists. split; [reflexivity|]. split; reflexivity. Qed.
(** ** The direct-tcpip channel *)

Example Unmarshal_smtp_forward :
  Tcpip.Unmarshal (wire_tcpipChannelData smtp_forward) = inl smtp_forward.
Proof. vm_compute. reflexivity. Qed.

(** X20.  Every reply of the service loop is negative, and there is at most one
    for each request of the schedule that wants one. *)
Lemma service_loop_replies schedule : forall inputChan errorChan requests,
  Forall (fun a => forall ok, a = Tcpip.Reply ok -> ok = false)
    (fst (Tcpip.service_loop inputChan errorChan requests schedule))
  /\ (replies (fst (Tcpip.service_loop inputChan errorChan requests schedule))
      <= wanting_reply schedule)%nat.
Proof.
  induction schedule as [|ev schedule IH]; intros inputChan errorChan requests.
  - simpl. destruct (negb _); simpl; split; auto; apply Nat.le_0_l.
  - cbn [Tcpip.service_loop].
    destruct (negb (inputChan || errorChan || requests));
      [simpl; split; [constructor | apply Nat.le_0_l]|].
    assert (Hle : forall i e r,
              (replies (fst (Tcpip.service_loop i e r schedule))
               <= wanting_reply (ev :: schedule))%nat).
    { intros i e r. destruct (IH i e r) as [_ H].
      unfold wanting_reply in *. simpl. destruct ev as [?|?|[?|]]; simpl;
        try destruct (Tcpip.WantReply _); simpl; lia. }
    destruct ev as [v|v|v].
    + destruct (negb inputChan); [split; [apply IH | apply Hle]|].
      destruct v as [input|]; [|split; [apply IH | apply Hle]].
      destruct (Tcpip.service_loop inputChan errorChan requests schedule)
        as [acts e] eqn:Hrun.
      specialize (IH inputChan errorChan requests).
      specialize (Hle inputChan errorChan requests).
      rewrite Hrun in IH, Hle. simpl in *. split.
      * constructor; [discriminate | apply IH].
      * exact Hle.
    + destruct (negb errorChan); [split; [apply IH | apply Hle]|].
      destruct v as [[err|]|]; try (split; [apply IH | apply Hle]).
      simpl. split; [constructor | apply Nat.le_0_l].
    + destruct (negb requests); [split; [apply IH | apply Hle]|].
      destruct v as [request|]; [|split; [apply IH | apply Hle]].
      destruct (Tcpip.WantReply request) eqn:Hwant;
        [|split; [apply IH | apply Hle]].
      destruct (Tcpip.reply_error request) as [err|].
      * simpl. split.
        -- constructor; [intros ok [= <-]; reflexivity | constructor].
        -- unfold wanting_reply, replies. simpl. rewrite Hwant. simpl. lia.
      * destruct (Tcpip.service_loop inputChan errorChan requests schedule)
          as [acts e] eqn:Hrun.
        specialize (IH inputChan errorChan requests).
        rewrite Hrun in IH. simpl in *. destruct IH as [IH1 IH2]. split.
        -- constructor; [intros ok [= <-]; reflexivity | exact IH1].
        -- unfold wanting_reply in *. simpl. rewrite Hwant.
           unfold replies in *. simpl. lia.
Qed.

(** X21.  While the three channels are open and nothing fails, each request of
    the schedule that wants a reply gets exactly one, and the others none. *)
Lemma service_loop_answers_each schedule :
  Forall (fun ev =>
            match ev with
            | Tcpip.FromInput (Some _) => True
            | Tcpip.FromError (Some None) => True
            | Tcpip.FromRequests (Some request) =>
                Tcpip.reply_error request = None
            | _ => False
            end) schedule ->
  replies (fst (Tcpip.service_loop true true true schedule)) =
    wanting_reply schedule
  /\ snd (Tcpip.service_loop true true true schedule) = Tcpip.Waiting.
Proof.
  induction 1 as [|ev schedule Hev _ [IH1 IH2]]; [split; reflexivity|].
  cbn [Tcpip.service_loop]. simpl negb. cbv iota.
  destruct ev as [[input|]|[[err|]|]|[request|]]; try contradiction.
  - destruct (Tcpip.service_loop true true true schedule) as [acts e].
    simpl in *. split; [exact IH1 | exact IH2].
  - split; [exact IH1 | exact IH2].
  - rewrite Hev. unfold wanting_reply. simpl.
    destruct (Tcpip.WantReply request).
    + destruct (Tcpip.service_loop true true true schedule) as [acts e].
      simpl in *. unfold replies in *. simpl. split; [|exact IH2].
      f_equal. exact IH1.
    + split; [exact IH1 | exact IH2].
Qed.

(** On the rounds of a client that ends its stream, [httpServer.handle]
    closes the channel when the half close succeeds. *)
Lemma httpServer_handle_closes rounds close_err :
  Forall (fun r => exists requestBytes, r = Tcpip.Served requestBytes None)
    rounds ->
  In Tcpip.Close (fst (Tcpip.httpServer_handle rounds None close_err)).
Proof.
  induction 1 as [|r rounds [requestBytes ->] _ IH].
  - simpl. auto.
  - simpl. destruct (Tcpip.httpServer_handle rounds None close_err).
    simpl in *. auto.
Qed.

(** C8.  For a direct-tcpip channel whose extra data parse, whose
    acceptance succeeds and whose port has no registered server, the handler
    accepts the channel, logs the acceptance, logs the unsupported port,
    logs [Channel closed] and returns nil, whatever requests arrive: it does
    not reject the channel, starts no server and answers no request, and it
    does not close the channel. *)
Theorem unsupported_port_is_not_closed (newChannel : Tcpip.NewChannel)
    (schedule : list Tcpip.received) (channelData : Tcpip.tcpipChannelData) :
  Tcpip.Unmarshal (Tcpip.ExtraData newChannel) = inl channelData ->
  Tcpip.accept_error newChannel = None ->
  Tcpip.servers !! Tcpip.Port channelData = None ->
  Tcpip.handleDirectTCPIPChannel newChannel schedule =
    ([Tcpip.Accept;
      Tcpip.LogInfo "New channel accepted" (Some channelData);
      Tcpip.LogPrintln "Unsupported port" (Tcpip.Port channelData);
      Tcpip.LogInfo "Channel closed" None],
     Tcpip.Returned None)
  /\ ~ In Tcpip.Close (fst (Tcpip.handleDirectTCPIPChannel newChannel schedule))
  /\ ~ In Tcpip.Reject (fst (Tcpip.handleDirectTCPIPChannel newChannel schedule))
  /\ replies (fst (Tcpip.handleDirectTCPIPChannel newChannel schedule)) = 0%nat.
Proof.
  intros Hdata Haccept Hport.
  assert (Hrun : Tcpip.handleDirectTCPIPChannel newChannel schedule =
    ([Tcpip.Accept;
      Tcpip.LogInfo "New channel accepted" (Some channelData);
      Tcpip.LogPrintln "Unsupported port" (Tcpip.Port channelData);
      Tcpip.LogInfo "Channel closed" None],
     Tcpip.Returned None)).
  { unfold Tcpip.handleDirectTCPIPChannel.
    rewrite Hdata, Haccept, Hport. reflexivity. }
  rewrite Hrun. split; [reflexivity|]. simpl.
  repeat split; try reflexivity; intros H;
    repeat (destruct H as [H|H]; [discriminate|]); exact H.
Qed.

Lemma unsupported_port_is_not_closed_witness :
  Tcpip.handleDirectTCPIPChannel smtp_channel
    [Tcpip.FromRequests
       (Some {| Tcpip.WantReply := true; Tcpip.reply_error := None |})] =
    ([Tcpip.Accept;
      Tcpip.LogInfo "New channel accepted" (Some smtp_forward);
      Tcpip.LogPrintln "Unsupported port" 25;
      Tcpip.LogInfo "Channel closed" None],
     Tcpip.Returned None).
Proof.
  apply (unsupported_port_is_not_closed smtp_channel _ smtp_forward).
  - vm_compute. reflexivity.
  - reflexivity.
  - vm_compute. reflexivity.
Defined.

(** * Further properties of the code *)

(** ** Properties kept by the commands *)

Lemma advances_refl rt : advances rt rt.
Proof. repeat split; try reflexivity. Qed.

Lemma advances_trans rt1 rt2 rt3 :
  advances rt1 rt2 -> advances rt2 rt3 -> advances rt1 rt3.
Proof.
  intros (Hw1 & Hr1 & Hn1 & He1 & Ho1) (Hw2 & Hr2 & Hn2 & He2 & Ho2).
  split; [etrans; eassumption|]. split; [intros h; etrans; eauto|].
  split; [lia|]. split; congruence.
Qed.

Lemma advances_write h data rt : advances rt (record_write h data rt).
Proof.
  split; [apply prefix_app_r; reflexivity|]. repeat split; reflexivity.
Qed.

Lemma advances_read h line rest rt :
  readers rt !! h = Some (line :: rest) ->
  advances rt {| readers := <[h := rest]> (readers rt);
                 written := written rt;
                 write_error := write_error rt;
                 ranges := ranges rt;
                 range_order := range_order rt |}.
Proof.
  intros Hr. split; [reflexivity|]. split; [|repeat split; reflexivity].
  intros h'. unfold pending. simpl. destruct (decide (h' = h)) as [->|Hne].
  - rewrite lookup_insert_eq, Hr. simpl. apply suffix_cons_r. reflexivity.
  - rewrite lookup_insert_ne by congruence. reflexivity.
Qed.

Lemma advances_range rt :
  advances rt {| readers := readers rt;
                 written := written rt;
                 write_error := write_error rt;
                 ranges := S (ranges rt);
                 range_order := range_order rt |}.
Proof. repeat split; try reflexivity. simpl. lia. Qed.

Section Preserves.
Context {W : Type} `{HasRuntime W} (oof : Prop) (P : W -> Prop).

Lemma preserves_ret {A} (a : A) : preserves oof P (ret a).
Proof. apply triple_ret. auto. Qed.

Lemma preserves_panic {A} msg : preserves oof P (panic (A := A) msg).
Proof. apply triple_panic. Qed.

Lemma preserves_bind {A B} (c : M W A) (k : A -> M W B) :
  preserves oof P c -> (forall a, preserves oof P (k a)) ->
  preserves oof P (c >>= k).
Proof. intros Hc Hk. eapply triple_bind; [exact Hc|]. intros a. apply Hk. Qed.

Lemma preserves_for_range {A R} (xs : list A) (body : A -> M W (option R))
    (after : M W R) :
  (forall x, preserves oof P (body x)) -> preserves oof P after ->
  preserves oof P (for_range xs body after).
Proof.
  intros Hbody Hafter. apply triple_for_range; [|exact Hafter].
  intros x. eapply triple_weaken; [apply Hbody | auto |].
  intros [v|] w Hw; exact Hw.
Qed.

Lemma preserves_for_fold {A S R} (xs : list A) (s : S)
    (body : A -> S -> M W (S + R)) (after : S -> M W R) :
  (forall x s, preserves oof P (body x s)) ->
  (forall s, preserves oof P (after s)) ->
  preserves oof P (for_fold xs s body after).
Proof.
  intros Hbody Hafter.
  apply (triple_for_fold oof (fun _ w => P w)); [|exact Hafter].
  intros x s'. eapply triple_weaken; [apply Hbody | auto |].
  intros [v|v] w Hw; exact Hw.
Qed.

Context (P_runtime : kept_by_io P).

Lemma preserves_Write h data : preserves oof P (Write h data).
Proof using P_runtime.
  intros w Hw. simpl. apply P_runtime; [exact Hw|]. apply advances_write.
Qed.

Lemma preserves_ReadLine h : preserves oof P (ReadLine h).
Proof using P_runtime.
  intros w Hw. unfold ReadLine.
  destruct (readers (get_runtime w) !! h) as [[|line rest]|] eqn:Hr; simpl;
    try exact Hw.
  apply P_runtime; [exact Hw|]. exact (advances_read h line rest _ Hr).
Qed.

Lemma preserves_range_keys keys : preserves oof P (range_keys keys).
Proof using P_runtime.
  intros w Hw. simpl. apply P_runtime; [exact Hw|]. apply advances_range.
Qed.

Lemma preserves_ls_file context file : preserves oof P (ls_file context file).
Proof using P_runtime.
  unfold ls_file. apply preserves_bind; [apply preserves_Write|].
  intros [e|]; apply preserves_ret.
Qed.

End Preserves.

(** One step of a proof that a command keeps a property: the rule for the
    construct at the head of the command. *)
Ltac preserve_step :=
  first
    [ apply preserves_ret
    | apply preserves_panic
    | apply preserves_Write; assumption
    | apply preserves_range_keys; assumption
    | apply preserves_ls_file; assumption
    | apply preserves_bind; [|intros ?]
    | apply preserves_for_range; [intros ?|]
    | apply preserves_for_fold; [intros ? ?|intros ?]
    | match goal with
      | |- preserves _ _ (match ?x with _ => _ end) => destruct x
      | |- preserves _ _ (if ?x then _ else _) => destruct x
      end ].

Section TreePreserves.
Context (oof : Prop) (P : Tree.World -> Prop).

Lemma preserves_get_FileSystem : preserves oof P Tree.get_FileSystem.
Proof. intros w Hw. exact Hw. Qed.

Lemma preserves_deref l : preserves oof P (Tree.deref l).
Proof.
  intros w Hw. unfold Tree.deref. destruct (Tree.heap w !! l); [exact Hw | exact I].
Qed.

Context (P_runtime : kept_by_io P).

Lemma preserves_cmdTrue context : preserves oof P (Tree.cmdTrue_execute context).
Proof. apply preserves_ret. Qed.

Lemma preserves_cmdFalse context :
  preserves oof P (Tree.cmdFalse_execute context).
Proof. apply preserves_ret. Qed.

Lemma preserves_cmdEcho context : preserves oof P (Tree.cmdEcho_execute context).
Proof using P_runtime.
  unfold Tree.cmdEcho_execute, Fprintln. repeat preserve_step.
Qed.

Lemma preserves_cmdPwd context : preserves oof P (Tree.cmdPwd_execute context).
Proof using P_runtime.
  unfold Tree.cmdPwd_execute, Fprintln.
  apply preserves_bind; [apply preserves_get_FileSystem|]. intros fs.
  repeat preserve_step.
Qed.

Lemma preserves_cat_file context file :
  preserves oof P (Tree.cat_file context file).
Proof using P_runtime.
  unfold Tree.cat_file, Fprintln, Fprint.
  apply preserves_bind; [apply preserves_get_FileSystem|]. intros fs.
  apply preserves_bind; [apply preserves_deref|]. intros cur.
  destruct (Tree.lookup_child cur file); [|repeat preserve_step].
  apply preserves_bind; [apply preserves_deref|]. intros node.
  repeat preserve_step.
Qed.

Lemma preserves_cmdCat context : preserves oof P (Tree.cmdCat_execute context).
Proof using P_runtime.
  unfold Tree.cmdCat_execute, Fprintln.
  destruct (_ <? _)%nat; [repeat preserve_step|].
  apply preserves_for_range; [intros file; apply preserves_cat_file|].
  apply preserves_ret.
Qed.

Lemma preserves_cmdLs context : preserves oof P (Tree.cmdLs_execute context).
Proof using P_runtime.
  unfold Tree.cmdLs_execute.
  apply preserves_bind; [apply preserves_get_FileSystem|]. intros fs.
  apply preserves_bind; [apply preserves_deref|]. intros cur.
  repeat preserve_step.
Qed.

Lemma preserves_not_found context name :
  preserves oof P
    (Fprint (stderr context) (name ++ ": command not found" ++ nl)
     >>= fun err => ret (127, err)).
Proof using P_runtime. unfold Fprint. repeat preserve_step. Qed.

Context (P_FileSystem : ignores_FileSystem P).

Lemma preserves_set_Current_Path node path :
  preserves oof P (Tree.set_Current_Path node path).
Proof using P_FileSystem.
  intros w Hw. unfold Tree.set_Current_Path, bind, Tree.get_FileSystem,
    Tree.put_FileSystem. apply P_FileSystem. exact Hw.
Qed.

Lemma preserves_cd_part context targetPath part node :
  preserves oof P (Tree.cd_part context targetPath part node).
Proof using P_runtime.
  unfold Tree.cd_part, Fprint.
  destruct (String.eqb part ".."); [apply preserves_ret|].
  destruct (_ || _); [apply preserves_ret|].
  apply preserves_bind; [apply preserves_deref|]. intros n.
  destruct (Tree.lookup_child n part); [|repeat preserve_step].
  apply preserves_bind; [apply preserves_deref|]. intros c.
  repeat preserve_step.
Qed.

Lemma preserves_cmdCd context : preserves oof P (Tree.cmdCd_execute context).
Proof using P_runtime P_FileSystem.
  assert (Hroot : preserves oof P
            (Tree.get_FileSystem >>= fun fs =>
             Tree.set_Current_Path (Tree.Root fs) "/" >>= fun _ =>
             ret ((0, None) : result))).
  { apply preserves_bind; [apply preserves_get_FileSystem|]. intros fs.
    apply preserves_bind; [apply preserves_set_Current_Path|]. intros ?.
    apply preserves_ret. }
  unfold Tree.cmdCd_execute.
  destruct (args context) as [|arg0 [|arg1 rest]]; try exact Hroot.
  destruct (String.eqb _ "/"); [exact Hroot|].
  apply preserves_bind; [apply preserves_get_FileSystem|]. intros fs.
  apply preserves_for_fold.
  - intros part node. apply preserves_cd_part.
  - intros node. apply preserves_bind; [apply preserves_set_Current_Path|].
    intros ?. apply preserves_ret.
Qed.

Context (P_growth : closed_under_growth P).

Lemma preserves_new n : preserves oof P (Tree.new n).
Proof using P_growth. intros w Hw. apply (proj1 P_growth). exact Hw. Qed.

Lemma preserves_set_child node name child :
  preserves oof P (Tree.set_child node name child).
Proof using P_growth.
  intros w Hw. unfold Tree.set_child, bind, Tree.deref.
  destruct (Tree.heap w !! node) as [n|] eqn:Hnode; [|exact I].
  destruct (Tree.Children n) as [m|] eqn:Hm; [|exact I].
  apply (proj2 P_growth w node n m name child Hw Hnode Hm).
Qed.

Lemma preserves_touch_file file : preserves oof P (Tree.touch_file file).
Proof using P_growth.
  unfold Tree.touch_file.
  apply preserves_bind; [apply preserves_get_FileSystem|]. intros fs.
  apply preserves_bind; [apply preserves_new|]. intros l.
  apply preserves_bind; [apply preserves_set_child|]. intros ?.
  apply preserves_ret.
Qed.

Lemma preserves_cmdTouch context :
  preserves oof P (Tree.cmdTouch_execute context).
Proof using P_runtime P_growth.
  unfold Tree.cmdTouch_execute, Fprintln.
  destruct (_ <? _)%nat; [repeat preserve_step|].
  apply preserves_for_range; [intros file; apply preserves_touch_file|].
  apply preserves_ret.
Qed.

Lemma preserves_mkdir_part part node :
  preserves oof P (Tree.mkdir_part part node).
Proof using P_growth.
  unfold Tree.mkdir_part.
  destruct (String.eqb part EmptyString); [apply preserves_ret|].
  apply preserves_bind; [apply preserves_deref|]. intros n.
  apply preserves_bind.
  - destruct (Tree.lookup_child n part); [apply preserves_ret|].
    apply preserves_bind; [apply preserves_new|]. intros child.
    apply preserves_set_child.
  - intros ?. apply preserves_bind; [apply preserves_deref|]. intros n'.
    destruct (Tree.lookup_child n' part);
      [apply preserves_ret | apply preserves_panic].
Qed.

Lemma preserves_cmdMkdir context :
  preserves oof P (Tree.cmdMkdir_execute context).
Proof using P_runtime P_growth.
  unfold Tree.cmdMkdir_execute, Fprintln.
  destruct (_ <? _)%nat; [repeat preserve_step|].
  apply preserves_for_range; [|apply preserves_ret].
  intros dir. apply preserves_bind; [apply preserves_get_FileSystem|].
  intros fs. apply preserves_for_fold.
  - intros part node. apply preserves_mkdir_part.
  - intros ?. apply preserves_ret.
Qed.

End TreePreserves.

(** A property of the state that the primitive changes keep is kept by
    every run of the executor and of the shell, whatever the fuel. *)
Theorem Tree_preserves (P : Tree.World -> Prop) (fuel : nat) :
  kept_by_io P -> ignores_FileSystem P -> closed_under_growth P ->
  (forall context, preserves True P (Tree.executeProgram fuel context))
  /\ (forall context prompt lastStatus,
        preserves True P (Tree.shell_loop fuel context prompt lastStatus)).
Proof.
  intros P_runtime P_FileSystem P_growth.
  induction fuel as [|fuel [IHe IHl]].
  - split; intros; intros w Hw; exact I.
  - split.
    + intros context. rewrite Tree_executeProgram_S.
      destruct (args context) as [|name rest]; [apply preserves_ret|].
      destruct (Tree.commands !! name) as [c|];
        [|apply preserves_not_found; assumption].
      destruct c; unfold Tree.execute.
      * apply IHl.
      * apply preserves_cmdTrue.
      * apply preserves_cmdFalse.
      * apply preserves_cmdEcho; assumption.
      * apply preserves_cmdCat; assumption.
      * apply preserves_cmdLs; assumption.
      * apply preserves_cmdTouch; assumption.
      * apply preserves_cmdMkdir; assumption.
      * apply preserves_cmdCd; assumption.
      * apply preserves_cmdPwd; assumption.
      * unfold Tree.cmdSu_execute. apply IHe.
    + intros context prompt lastStatus. rewrite Tree_shell_loop_S.
      unfold Fprint.
      apply preserves_bind; [apply preserves_Write; assumption|].
      intros [e|]; [apply preserves_ret|].
      apply preserves_bind; [apply preserves_ReadLine; assumption|].
      intros [line [e|]]; [apply preserves_ret|]. cbv zeta.
      destruct (strings.Fields line) as [|arg0 toks]; [apply IHl|].
      destruct (String.eqb arg0 "exit"); [apply preserves_ret|].
      apply preserves_bind; [apply IHe|].
      intros [st [e|]]; [apply preserves_ret | apply IHl].
Qed.

(** ** Nothing is removed from the tree *)

Lemma node_grows_refl n : node_grows n n.
Proof.
  split; [reflexivity|]. split; [reflexivity|].
  destruct (Tree.Children n) as [m|]; [|reflexivity]. exists m. split; auto.
Qed.

Lemma node_grows_trans n1 n2 n3 :
  node_grows n1 n2 -> node_grows n2 n3 -> node_grows n1 n3.
Proof.
  intros (Hd1 & Hc1 & Hm1) (Hd2 & Hc2 & Hm2).
  split; [congruence|]. split; [congruence|].
  destruct (Tree.Children n1) as [m1|].
  - destruct Hm1 as (m2 & Hm2' & Hsub). rewrite Hm2' in Hm2.
    destruct Hm2 as (m3 & Hm3 & Hsub'). exists m3. split; [exact Hm3|].
    set_solver.
  - rewrite Hm1 in Hm2. exact Hm2.
Qed.

Lemma extends_refl w : extends w w.
Proof. split; [|reflexivity]. intros l n Hl. exists n. split; [exact Hl | apply node_grows_refl]. Qed.

Lemma extends_kept_by_io w0 : kept_by_io (extends w0).
Proof. intros w rt Hw _. exact Hw. Qed.

Lemma extends_ignores_FileSystem w0 : ignores_FileSystem (extends w0).
Proof. intros w node path Hw. exact Hw. Qed.

Lemma extends_closed_under_growth w0 : closed_under_growth (extends w0).
Proof.
  split.
  - intros w n [Hw Hroot]. split; [|exact Hroot].
    intros l n0 Hl. destruct (Hw l n0 Hl) as (n' & Hn' & Hg).
    exists n'. split; [|exact Hg]. simpl.
    rewrite lookup_insert_ne; [exact Hn'|].
    intros Heq. apply (is_fresh (dom (Tree.heap w))). rewrite Heq.
    apply elem_of_dom. eauto.
  - intros w node n m name child [Hw Hroot] Hnode Hm. split; [|exact Hroot].
    intros l n0 Hl. destruct (Hw l n0 Hl) as (n' & Hn' & Hg). simpl.
    rewrite lookup_insert. case_decide as Heq.
    + subst l. eexists. split; [reflexivity|].
      apply (node_grows_trans _ n'); [exact Hg|].
      assert (n' = n) as -> by congruence.
      split; [reflexivity|]. split; [reflexivity|]. rewrite Hm. simpl.
      eexists. split; [reflexivity|]. rewrite dom_insert. set_solver.
    + exists n'. split; [exact Hn' | exact Hg].
Qed.

(** X1.  No run of the executor frees a node of the heap, changes the kind or
    the content of a node, takes a name out of the map of a directory, or
    moves the root: nodes are only added, and names are only entered or
    pointed at another node. *)
Theorem nothing_is_removed (fuel : nat) (context : commandContext)
    (w w' : Tree.World) (r : result) :
  Tree.executeProgram fuel context w = Ret (r, w') ->
  extends w w'.
Proof.
  intros Hrun.
  pose proof (proj1 (Tree_preserves (extends w) fuel
                       (extends_kept_by_io w)
                       (extends_ignores_FileSystem w)
                       (extends_closed_under_growth w))
                context w (extends_refl w)) as H.
  rewrite Hrun in H. exact H.
Qed.

Lemma nothing_is_removed_witness :
  extends (Tree.init_world (quiet_runtime ["touch usr.txt"; "mkdir d"; "cd d"]))
    (world_after ["touch usr.txt"; "mkdir d"; "cd d"]).
Proof.
  apply (nothing_is_removed 12 (session "guest" false ["sh"])
           (Tree.init_world (quiet_runtime ["touch usr.txt"; "mkdir d"; "cd d"]))
           (world_after ["touch usr.txt"; "mkdir d"; "cd d"]) (0, Some EOF)).
  vm_compute. reflexivity.
Defined.

(** ** [mkdir] *)

Lemma Split_no_slash s : no_slash s = true -> strings.Split s SLASH = [s].
Proof.
  induction s as [|c s IH]; [reflexivity|]. simpl. intros H.
  apply andb_true_iff in H as [Hc Hs]. apply negb_true_iff in Hc.
  rewrite Hc, (IH Hs). reflexivity.
Qed.

Lemma plain_name_facts d :
  plain_name d = true ->
  String.eqb d EmptyString = false /\ String.eqb d "." = false
  /\ String.eqb d ".." = false /\ strings.Split d SLASH = [d].
Proof.
  unfold plain_name. intros H.
  apply andb_true_iff in H as [H H4]. apply andb_true_iff in H as [H H3].
  apply andb_true_iff in H as [H1 H2].
  apply negb_true_iff in H1, H2, H3.
  repeat split; try assumption. apply Split_no_slash. exact H4.
Qed.

Lemma Clean_plain_name d : plain_name d = true -> filepath.Clean d = d.
Proof.
  intros H. destruct (plain_name_facts d H) as (H1 & H2 & H3 & H4).
  destruct d as [|c s]; [discriminate H1|].
  unfold filepath.Clean. rewrite H4. simpl fold_left.
  unfold filepath.clean_step. rewrite H1, H2, H3. simpl.
  unfold plain_name in H. simpl in H.
  apply andb_true_iff in H as [_ H]. apply andb_true_iff in H as [H _].
  apply negb_true_iff in H. rewrite H. reflexivity.
Qed.

Lemma Clean_plain_name_not_root d :
  plain_name d = true -> String.eqb (filepath.Clean d) "/" = false.
Proof.
  intros H. rewrite (Clean_plain_name d H). apply String.eqb_neq. intros ->.
  discriminate H.
Qed.

(** [mkdir] of a plain name that is not entered in the current directory:
    one node is allocated and entered, and nothing is written. *)
Lemma Tree_mkdir_new context arg0 d w m :
  args context = [arg0; d] ->
  plain_name d = true ->
  tree_entries w = Some m ->
  m !! d = None ->
  exists w1,
    Tree.cmdMkdir_execute context w = Ret ((0, None), w1)
    /\ Tree.runtime w1 = Tree.runtime w
    /\ Tree.FileSystem w1 = Tree.FileSystem w
    /\ tree_entries w1 = Some (<[d := fresh (dom (Tree.heap w))]> m)
    /\ Tree.heap w1 !! fresh (dom (Tree.heap w)) = Some Tree.dir_node.
Proof.
  intros Hargs Hplain Hm Hd.
  destruct (tree_entries_Some w m Hm) as (cur & Hcur & Hch).
  pose proof (fresh_loc_not_allocated w _ _ Hcur) as Hfresh.
  destruct (plain_name_facts d Hplain) as (H1 & _ & _ & Hsplit).
  unfold Tree.cmdMkdir_execute. rewrite Hargs. simpl.
  unfold bind at 1. unfold bind at 1. unfold Tree.get_FileSystem.
  rewrite (Clean_plain_name d Hplain), Hsplit. simpl.
  unfold bind at 1. unfold Tree.mkdir_part. rewrite H1.
  unfold bind, Tree.deref, Tree.lookup_child, Tree.new, Tree.set_child, bind,
    Tree.deref, ret. simpl.
  rewrite Hcur, Hch, Hd. simpl.
  rewrite lookup_insert_ne by exact Hfresh. rewrite Hcur, Hch. simpl.
  rewrite lookup_insert_eq. simpl. rewrite lookup_insert_eq.
  eexists. split; [reflexivity|]. simpl.
  split; [reflexivity|]. split; [reflexivity|]. split.
  - unfold tree_entries. simpl. rewrite lookup_insert_eq. reflexivity.
  - rewrite lookup_insert_ne by congruence. apply lookup_insert_eq.
Qed.

(** X2.  [mkdir] of a plain name that is entered in the current directory
    already, as a file or as a directory, returns 0 without an error, writes
    nothing and leaves the world as it was: there is no complaint that the
    name exists. *)
Theorem mkdir_of_existing_name_changes_nothing (context : commandContext)
    (arg0 d : string) (w : Tree.World) (m : gmap string Tree.loc)
    (l : Tree.loc) :
  args context = [arg0; d] ->
  plain_name d = true ->
  tree_entries w = Some m ->
  m !! d = Some l ->
  Tree.cmdMkdir_execute context w = Ret ((0, None), w).
Proof.
  intros Hargs Hplain Hm Hd.
  destruct (tree_entries_Some w m Hm) as (cur & Hcur & Hch).
  destruct (plain_name_facts d Hplain) as (H1 & _ & _ & Hsplit).
  unfold Tree.cmdMkdir_execute. rewrite Hargs. simpl.
  unfold bind at 1. unfold bind at 1. unfold Tree.get_FileSystem.
  rewrite (Clean_plain_name d Hplain), Hsplit. simpl.
  unfold bind at 1. unfold Tree.mkdir_part. rewrite H1.
  unfold bind, Tree.deref, Tree.lookup_child, ret. simpl.
  rewrite Hcur, Hch, Hd. simpl. rewrite Hcur, Hch, Hd. reflexivity.
Qed.

(** [cd] to a plain name entered in the current directory as a
    directory. *)
Lemma Tree_cd_plain context arg0 d w m l node :
  args context = [arg0; d] ->
  plain_name d = true ->
  tree_entries w = Some m ->
  m !! d = Some l ->
  Tree.heap w !! l = Some node ->
  Tree.IsDir node = true ->
  Tree.cmdCd_execute context w =
    Ret ((0, None),
         Tree.set_FileSystem
           {| Tree.Root := Tree.Root (Tree.FileSystem w);
              Tree.Current := l; Tree.Path := d |} w).
Proof.
  intros Hargs Hplain Hm Hd Hl Hdir.
  destruct (tree_entries_Some w m Hm) as (cur & Hcur & Hch).
  destruct (plain_name_facts d Hplain) as (H1 & H2 & H3 & Hsplit).
  unfold Tree.cmdCd_execute. rewrite Hargs.
  rewrite (Clean_plain_name_not_root d Hplain), (Clean_plain_name d Hplain).
  rewrite Hsplit. unfold bind at 1. unfold Tree.get_FileSystem. simpl.
  unfold bind at 1. unfold Tree.cd_part. rewrite H3, H2, H1. simpl.
  unfold bind, Tree.deref, Tree.lookup_child, ret. simpl.
  rewrite Hcur, Hch, Hd, Hl, Hdir. reflexivity.
Qed.

Lemma mkdir_of_existing_name_changes_nothing_witness :
  Tree.cmdMkdir_execute (session "guest" true ["mkdir"; "usr.txt"])
    (Tree.init_world (quiet_runtime [])) =
    Ret ((0, None), Tree.init_world (quiet_runtime [])).
Proof.
  apply (mkdir_of_existing_name_changes_nothing _ "mkdir" "usr.txt" _
           {[ "usr.txt" := 1%nat; "pwd.txt" := 2%nat;
              "checking_account.txt" := 3%nat ]} 1%nat);
    [reflexivity | reflexivity | reflexivity | vm_compute; reflexivity].
Defined.

(** X3.  After [mkdir d] on a plain name [d] that is not entered in the current
    directory, which writes nothing and returns 0, [cd d] from any context
    returns 0 and writes nothing: the current directory is then the new node,
    which is an empty directory, and the path is [d]. *)
Theorem mkdir_then_cd (c1 c2 : commandContext) (w : Tree.World)
    (d : string) (m : gmap string Tree.loc) :
  plain_name d = true ->
  tree_entries w = Some m ->
  m !! d = None ->
  exists w1 w2 l,
    Tree.cmdMkdir_execute (with_args c1 ["mkdir"; d]) w = Ret ((0, None), w1)
    /\ Tree.runtime w1 = Tree.runtime w
    /\ tree_entries w1 = Some (<[d := l]> m)
    /\ Tree.cmdCd_execute (with_args c2 ["cd"; d]) w1 = Ret ((0, None), w2)
    /\ Tree.runtime w2 = Tree.runtime w
    /\ Tree.Current (Tree.FileSystem w2) = l
    /\ Tree.Path (Tree.FileSystem w2) = d
    /\ tree_entries w2 = Some ∅.
Proof.
  intros Hplain Hm Hd.
  destruct (Tree_mkdir_new (with_args c1 ["mkdir"; d]) "mkdir" d w m
              eq_refl Hplain Hm Hd) as (w1 & Hmk & Hrt & Hfs & Hm1 & Hnew).
  exists w1. eexists. exists (fresh (dom (Tree.heap w))).
  split; [exact Hmk|]. split; [exact Hrt|]. split; [exact Hm1|].
  split.
  - apply (Tree_cd_plain (with_args c2 ["cd"; d]) "cd" d w1 _ _ Tree.dir_node
             eq_refl Hplain Hm1 (lookup_insert_eq _ _ _) Hnew eq_refl).
  - simpl. split; [exact Hrt|]. split; [reflexivity|]. split; [reflexivity|].
    unfold tree_entries. simpl. rewrite Hnew. reflexivity.
Qed.

Lemma mkdir_then_cd_witness :
  exists w1 w2 l,
    Tree.cmdMkdir_execute (session "guest" true ["mkdir"; "d"])
      (Tree.init_world (quiet_runtime [])) = Ret ((0, None), w1)
    /\ Tree.cmdCd_execute (other_session ["cd"; "d"]) w1 = Ret ((0, None), w2)
    /\ Tree.Current (Tree.FileSystem w2) = l
    /\ tree_entries w2 = Some ∅.
Proof.
  destruct (mkdir_then_cd (session "guest" true []) (other_session [])
              (Tree.init_world (quiet_runtime [])) "d"
              {[ "usr.txt" := 1%nat; "pwd.txt" := 2%nat;
                 "checking_account.txt" := 3%nat ]})
    as (w1 & w2 & l & Hmk & _ & _ & Hcd & _ & Hl & _ & He);
    [reflexivity | reflexivity | vm_compute; reflexivity |].
  exists w1, w2, l. auto.
Defined.

(** X4.  [mkdir] of a path whose first element names a file of the current
    directory and which has a further element panics: the file node has a
    nil map of children, and the directory for the next element is assigned
    into it. *)
Theorem mkdir_through_file_panics (context : commandContext) (w : Tree.World)
    (arg0 dir file part : string) (rest : list string)
    (m : gmap string Tree.loc) (l : Tree.loc) (node : Tree.FileSystemNode) :
  args context = [arg0; dir] ->
  strings.Split (filepath.Clean dir) SLASH = file :: part :: rest ->
  file <> EmptyString -> part <> EmptyString ->
  tree_entries w = Some m ->
  m !! file = Some l ->
  Tree.heap w !! l = Some node ->
  Tree.Children node = None ->
  Tree.cmdMkdir_execute context w = Panic "assignment to entry in nil map".
Proof.
  intros Hargs Hsplit Hfile Hpart Hm Hl Hnode Hnil.
  destruct (tree_entries_Some w m Hm) as (cur & Hcur & Hch).
  pose proof (fresh_loc_not_allocated w _ _ Hnode) as Hfresh.
  apply String.eqb_neq in Hfile, Hpart.
  unfold Tree.cmdMkdir_execute. rewrite Hargs. simpl.
  unfold bind at 1. unfold bind at 1. unfold Tree.get_FileSystem.
  rewrite Hsplit. simpl.
  unfold bind at 1. unfold Tree.mkdir_part at 1. rewrite Hfile.
  unfold bind, Tree.deref, Tree.lookup_child, ret. simpl.
  rewrite Hcur, Hch, Hl. simpl. rewrite Hcur, Hch, Hl. simpl.
  unfold Tree.mkdir_part. rewrite Hpart.
  unfold bind, Tree.deref, Tree.lookup_child, Tree.new, Tree.set_child, bind,
    Tree.deref. simpl.
  rewrite Hnode, Hnil. simpl.
  rewrite lookup_insert_ne by exact Hfresh. rewrite Hnode, Hnil. reflexivity.
Qed.

Lemma mkdir_through_file_panics_witness :
  Tree.cmdMkdir_execute (session "guest" true ["mkdir"; "usr.txt/x"])
    (Tree.init_world (quiet_runtime [])) =
    Panic "assignment to entry in nil map".
Proof.
  apply (mkdir_through_file_panics _ _ "mkdir" "usr.txt/x" "usr.txt" "x" []
           {[ "usr.txt" := 1%nat; "pwd.txt" := 2%nat;
              "checking_account.txt" := 3%nat ]} 1%nat
           (Tree.file_node usr_txt));
    try reflexivity; try discriminate.
Defined.

(** ** The outcome of [cd] *)

Lemma Tree_cd_part_outcome context targetPath part node w :
  match Tree.cd_part context targetPath part node w with
  | Ret (inl _, w') => w' = w
  | Ret (inr r, w') =>
      r = (1, write_error (Tree.runtime w) (written (Tree.runtime w))
                (stderr context) (cd_error_line targetPath))
      /\ w' = set_runtime
                (record_write (stderr context) (cd_error_line targetPath)
                   (Tree.runtime w)) w
  | Panic _ => True
  | OutOfFuel => False
  end.
Proof.
  unfold Tree.cd_part.
  destruct (String.eqb part ".."); [reflexivity|].
  destruct (String.eqb part "." || String.eqb part EmptyString); [reflexivity|].
  unfold bind, Tree.deref.
  destruct (Tree.heap w !! node) as [n|]; [|exact I].
  destruct (Tree.lookup_child n part) as [child|]; [|split; reflexivity].
  destruct (Tree.heap w !! child) as [c|]; [|exact I].
  destruct (Tree.IsDir c); [reflexivity | split; reflexivity].
Qed.

Lemma Tree_cd_walk_outcome context targetPath parts : forall node w r w',
  for_fold parts node (Tree.cd_part context targetPath)
    (fun node =>
       Tree.set_Current_Path node targetPath >>= fun _ => ret (0, None)) w =
    Ret (r, w') ->
  (r = (0, None)
   /\ exists node',
        w' = Tree.set_FileSystem
               {| Tree.Root := Tree.Root (Tree.FileSystem w);
                  Tree.Current := node'; Tree.Path := targetPath |} w)
  \/ (r = (1, write_error (Tree.runtime w) (written (Tree.runtime w))
                (stderr context) (cd_error_line targetPath))
      /\ w' = set_runtime
                (record_write (stderr context) (cd_error_line targetPath)
                   (Tree.runtime w)) w).
Proof.
  induction parts as [|part parts IH]; intros node w r w' Hrun.
  - simpl in Hrun. injection Hrun as <- <-. left. split; [reflexivity|].
    exists node. reflexivity.
  - simpl in Hrun. unfold bind at 1 in Hrun.
    pose proof (Tree_cd_part_outcome context targetPath part node w) as Hpart.
    destruct (Tree.cd_part context targetPath part node w)
      as [[[node'|r1] w1]|msg|]; try discriminate.
    + subst w1. eapply IH. exact Hrun.
    + destruct Hpart as [-> ->]. injection Hrun as <- <-. right. auto.
Qed.

(** X5.  [cd] with an argument never touches the heap or the root.  Either it
    returns 0 without an error, has written nothing, and the path is the
    cleaned argument; or it returns 1 with the error of the one line it has
    written to the standard error, and the variable [FileSystem] is as it
    was. *)
Theorem cd_outcome (context : commandContext) (w w' : Tree.World)
    (arg0 dir : string) (rest : list string) (r : result) :
  args context = arg0 :: dir :: rest ->
  Tree.cmdCd_execute context w = Ret (r, w') ->
  Tree.heap w' = Tree.heap w
  /\ Tree.Root (Tree.FileSystem w') = Tree.Root (Tree.FileSystem w)
  /\ ((r = (0, None)
       /\ Tree.runtime w' = Tree.runtime w
       /\ Tree.Path (Tree.FileSystem w') = filepath.Clean dir)
      \/ (r = (1, write_error (Tree.runtime w) (written (Tree.runtime w))
                    (stderr context) (cd_error_line (filepath.Clean dir)))
          /\ Tree.FileSystem w' = Tree.FileSystem w
          /\ Tree.runtime w' =
               record_write (stderr context)
                 (cd_error_line (filepath.Clean dir)) (Tree.runtime w))).
Proof.
  intros Hargs Hrun. unfold Tree.cmdCd_execute in Hrun. rewrite Hargs in Hrun.
  destruct (String.eqb (filepath.Clean dir) "/") eqn:Hroot.
  - apply String.eqb_eq in Hroot. rewrite Hroot.
    injection Hrun as <- <-. simpl. auto 10.
  - unfold bind at 1 in Hrun. simpl in Hrun.
    destruct (Tree_cd_walk_outcome _ _ _ _ _ _ _ Hrun)
      as [[-> [node' ->]] | [-> ->]]; simpl; auto 10.
Qed.

Lemma cd_outcome_witness :
  let w := Tree.init_world (quiet_runtime []) in
  let w' := set_runtime
              (record_write 2 (cd_error_line "usr.txt") (Tree.runtime w)) w in
  Tree.heap w' = Tree.heap w
  /\ Tree.Root (Tree.FileSystem w') = Tree.Root (Tree.FileSystem w)
  /\ (((1, None) : result) = (0, None)
      /\ Tree.runtime w' = Tree.runtime w
      /\ Tree.Path (Tree.FileSystem w') = filepath.Clean "usr.txt"
      \/ ((1, None) : result) = (1, None)
         /\ Tree.FileSystem w' = Tree.FileSystem w
         /\ Tree.runtime w' =
              record_write 2 (cd_error_line "usr.txt") (Tree.runtime w)).
Proof.
  intros w w'.
  apply (cd_outcome (session "guest" true ["cd"; "usr.txt"]) w w'
           "cd" "usr.txt" [] (1, None)); reflexivity.
Defined.

(** ** Commands that only read *)

Lemma same_filesystem_kept_by_io w0 :
  kept_by_io (same_filesystem w0).
Proof. intros w rt Hw _. exact Hw. Qed.

(** X6.  A command other than [sh], [su], [touch], [mkdir] and [cd], registered
    or not, leaves the heap and the variable [FileSystem] as they were. *)
Theorem other_commands_only_read (fuel : nat) (context : commandContext)
    (w w' : Tree.World) (name : string) (rest : list string) (r : result) :
  args context = name :: rest ->
  name ∉ ["sh"; "su"; "touch"; "mkdir"; "cd"] ->
  Tree.executeProgram (S fuel) context w = Ret (r, w') ->
  Tree.heap w' = Tree.heap w /\ Tree.FileSystem w' = Tree.FileSystem w.
Proof.
  intros Hargs Hname Hrun.
  assert (Hp : preserves True (same_filesystem w)
                 (Tree.executeProgram (S fuel) context)).
  { rewrite Tree_executeProgram_S, Hargs.
    destruct (Tree.commands !! name) as [c|] eqn:Hc.
    2:{ apply preserves_not_found. apply same_filesystem_kept_by_io. }
    assert (Hin : name ∈ ["sh"; "true"; "false"; "echo"; "cat"; "ls"; "touch";
                          "mkdir"; "cd"; "pwd"; "su"]).
    { destruct (decide (name ∈ ["sh"; "true"; "false"; "echo"; "cat"; "ls";
                                "touch"; "mkdir"; "cd"; "pwd"; "su"]))
        as [Hin|Hnot]; [exact Hin|].
      apply Tree_commands_keys in Hnot. congruence. }
    repeat (apply elem_of_cons in Hin as [->|Hin];
            [first [ exfalso; apply Hname; rewrite !elem_of_cons; auto 10; fail
                   | vm_compute in Hc; injection Hc as <- ]|]);
      try (apply elem_of_nil in Hin; contradiction); unfold Tree.execute.
    - apply preserves_cmdTrue.
    - apply preserves_cmdFalse.
    - apply preserves_cmdEcho, same_filesystem_kept_by_io.
    - apply preserves_cmdCat, same_filesystem_kept_by_io.
    - apply preserves_cmdLs, same_filesystem_kept_by_io.
    - apply preserves_cmdPwd, same_filesystem_kept_by_io. }
  specialize (Hp w (conj eq_refl eq_refl)). rewrite Hrun in Hp. exact Hp.
Qed.

Lemma other_commands_only_read_witness :
  let w := Tree.init_world (quiet_runtime []) in
  let w' := set_runtime (record_write 1 (usr_txt ++ nl) (Tree.runtime w)) w in
  Tree.heap w' = Tree.heap w /\ Tree.FileSystem w' = Tree.FileSystem w.
Proof.
  intros w w'.
  apply (other_commands_only_read 0 (session "guest" true ["cat"; "usr.txt"])
           w w' "cat" ["usr.txt"] (0, None)).
  - reflexivity.
  - rewrite !not_elem_of_cons. repeat split; try discriminate.
    apply not_elem_of_nil.
  - vm_compute. reflexivity.
Defined.

(** ** What [ls] writes *)




(** ** Runs from a well-formed filesystem *)

(** X8.  From a world in which every directory has a map of children and the
    current directory and the root are directories, the executor with three
    units of fuel for each line its reader has still to deliver, and three
    more, does not run out of fuel: it panics, or it returns a status of 32
    bits and a world that is well formed again and has no more lines to
    deliver than before. *)
Theorem tree_executor_stops (context : commandContext) (w : Tree.World) :
  well_formed w ->
  (exists msg,
     Tree.executeProgram (3 * lines_left (stdin context) w + 3) context w =
       Panic msg)
  \/ (exists r w',
        Tree.executeProgram (3 * lines_left (stdin context) w + 3) context w =
          Ret (r, w')
        /\ well_formed w' /\ status_ok r
        /\ (lines_left (stdin context) w' <= lines_left (stdin context) w)%nat).
Proof.
  intros Hw.
  pose proof (proj1 (Tree_outcome_ok False _) context w Hw
                (or_intror (le_n _))) as H.
  destruct (Tree.executeProgram _ context w) as [[r w']|msg|].
  - right. exists r, w'. split; [reflexivity | exact H].
  - left. exists msg. reflexivity.
  - contradiction.
Qed.

Lemma tree_executor_stops_witness :
  (exists msg,
     Tree.executeProgram 9 (session "guest" false ["sh"])
       (Tree.init_world (quiet_runtime ["su"; "exit 3"])) = Panic msg)
  \/ (exists r w',
        Tree.executeProgram 9 (session "guest" false ["sh"])
          (Tree.init_world (quiet_runtime ["su"; "exit 3"])) = Ret (r, w')
        /\ well_formed w' /\ status_ok r
        /\ (lines_left 0 w'
            <= lines_left 0 (Tree.init_world (quiet_runtime ["su"; "exit 3"])))%nat).
Proof.
  apply (tree_executor_stops (session "guest" false ["sh"])
           (Tree.init_world (quiet_runtime ["su"; "exit 3"]))).
  apply well_formed_init.
Defined.

(** ** The panics of the tree filesystem *)

Section Guarded.
Context (oof : Prop).

Lemma guarded_ret {A} (P : Tree.World -> Prop) (a : A)
    (Q : A -> Tree.World -> Prop) :
  (forall w, P w -> Q a w) -> guarded oof P (ret a) Q.
Proof. intros H w Hw. simpl. auto. Qed.

Lemma guarded_bind {A B} (P : Tree.World -> Prop) (c : M Tree.World A)
    (k : A -> M Tree.World B) (Q' : A -> Tree.World -> Prop)
    (Q : B -> Tree.World -> Prop) :
  guarded oof P c Q' ->
  (forall a, guarded oof (Q' a) (k a) Q) ->
  guarded oof P (c >>= k) Q.
Proof.
  intros Hc Hk w Hw. specialize (Hc w Hw). unfold bind.
  destruct (c w) as [[a w']|msg|]; [|exact Hc|exact Hc].
  apply Hk. exact Hc.
Qed.

Lemma guarded_weaken {A} (P P' : Tree.World -> Prop) (c : M Tree.World A)
    (Q Q' : A -> Tree.World -> Prop) :
  guarded oof P' c Q' ->
  (forall w, P w -> P' w) ->
  (forall a w, Q' a w -> Q a w) ->
  guarded oof P c Q.
Proof.
  intros Hc HP HQ w Hw. specialize (Hc w (HP w Hw)).
  destruct (c w) as [[a w']|msg|]; auto.
Qed.

Lemma guarded_for_range {A R} (I : Tree.World -> Prop) (xs : list A)
    (body : A -> M Tree.World (option R)) (after : M Tree.World R)
    (Q : R -> Tree.World -> Prop) :
  (forall x, guarded oof I (body x)
               (fun r w' => match r with Some v => Q v w' | None => I w' end)) ->
  guarded oof I after Q ->
  guarded oof I (for_range xs body after) Q.
Proof.
  intros Hbody Hafter. induction xs as [|x xs IH]; [exact Hafter|].
  simpl. eapply guarded_bind; [apply Hbody|].
  intros [v|]; [apply guarded_ret; auto | exact IH].
Qed.

Lemma guarded_for_fold {A S R} (I : S -> Tree.World -> Prop) (xs : list A)
    (s : S) (body : A -> S -> M Tree.World (S + R))
    (after : S -> M Tree.World R) (Q : R -> Tree.World -> Prop) :
  (forall x s, guarded oof (I s) (body x s)
                 (fun r w' => match r with inl s' => I s' w' | inr v => Q v w' end)) ->
  (forall s, guarded oof (I s) (after s) Q) ->
  guarded oof (I s) (for_fold xs s body after) Q.
Proof.
  intros Hbody Hafter. revert s. induction xs as [|x xs IH]; intros s;
    [apply Hafter|].
  simpl. eapply guarded_bind; [apply Hbody|].
  intros [s'|v]; [apply IH | apply guarded_ret; auto].
Qed.

(** A property that does not look at the runtime is kept by a write and
    by the start of a loop over a map. *)
Lemma guarded_Write (P : Tree.World -> Prop) h data :
  (forall w rt, P w -> P (set_runtime rt w)) ->
  guarded oof P (Write h data) (fun _ w' => P w').
Proof. intros HP w Hw. simpl. apply HP. exact Hw. Qed.

Lemma guarded_range_keys (P : Tree.World -> Prop) keys :
  (forall w rt, P w -> P (set_runtime rt w)) ->
  guarded oof P (range_keys keys) (fun _ w' => P w').
Proof. intros HP w Hw. simpl. apply HP. exact Hw. Qed.

Lemma sound_set_runtime w rt : sound w -> sound (set_runtime rt w).
Proof. intros Hw. exact Hw. Qed.

Lemma guarded_write_status {A} h data (f : option error -> A) :
  guarded oof sound (Write h data >>= fun err => ret (f err))
    (fun _ w' => sound w').
Proof.
  eapply guarded_bind; [apply guarded_Write, sound_set_runtime|].
  intros err. apply guarded_ret. auto.
Qed.

Lemma sound_current w :
  sound w ->
  exists cur m,
    Tree.heap w !! Tree.Current (Tree.FileSystem w) = Some cur
    /\ Tree.IsDir cur = true /\ Tree.Children cur = Some m.
Proof.
  intros [(Hch & (cur & Hcur & Hdir) & _) _].
  destruct (Hch _ _ Hcur Hdir) as [m Hm]. eauto.
Qed.

Lemma fresh_not_allocated (w : Tree.World) l n :
  Tree.heap w !! l = Some n -> l <> fresh (dom (Tree.heap w)).
Proof.
  intros Hl Heq. apply (is_fresh (dom (Tree.heap w))). rewrite <- Heq.
  apply elem_of_dom. eauto.
Qed.

(** The allocation of a node without children keeps the world sound. *)
Lemma sound_alloc w n :
  sound w ->
  (Tree.IsDir n = true -> is_Some (Tree.Children n)) ->
  (forall m, Tree.Children n = Some m -> m = ∅) ->
  sound (Tree.set_heap (<[fresh (dom (Tree.heap w)) := n]> (Tree.heap w)) w).
Proof.
  intros [(Hch & Hcur & Hroot) Hcl] Hdir Hempty. split; [split; [|split]|].
  - intros l d. simpl. rewrite lookup_insert. case_decide.
    + intros [= <-]. exact Hdir.
    + apply Hch.
  - apply (dir_at_alloc w _ n Hcur).
  - apply (dir_at_alloc w _ n Hroot).
  - intros l d m name child. simpl. rewrite lookup_insert. case_decide.
    + intros [= <-] Hm Hname. rewrite (Hempty m Hm) in Hname.
      rewrite lookup_empty in Hname. discriminate.
    + intros Hl Hm Hname. destruct (Hcl l d m name child Hl Hm Hname) as [c Hc].
      exists c. rewrite lookup_insert_ne; [exact Hc|].
      intros Heq. exact (fresh_not_allocated w child c Hc (eq_sym Heq)).
Qed.

(** The entry of an allocated node under a name keeps the world sound. *)
Lemma sound_set_child w node n m name child :
  sound w ->
  Tree.heap w !! node = Some n -> Tree.Children n = Some m ->
  is_Some (Tree.heap w !! child) ->
  sound (Tree.set_heap
           (<[node := {| Tree.IsDir := Tree.IsDir n;
                         Tree.Content := Tree.Content n;
                         Tree.Children := Some (<[name := child]> m) |}]>
              (Tree.heap w)) w).
Proof.
  intros [(Hch & Hcur & Hroot) Hcl] Hnode Hm Hchild. split; [split; [|split]|].
  - intros l d. simpl. rewrite lookup_insert. case_decide.
    + intros [= <-] _. simpl. eauto.
    + apply Hch.
  - apply (dir_at_set_child w node n m name child _ Hnode Hcur).
  - apply (dir_at_set_child w node n m name child _ Hnode Hroot).
  - assert (Hkeep : forall c, is_Some (Tree.heap w !! c) ->
              is_Some (<[node := {| Tree.IsDir := Tree.IsDir n;
                                    Tree.Content := Tree.Content n;
                                    Tree.Children :=
                                      Some (<[name := child]> m) |}]>
                         (Tree.heap w) !! c)).
    { intros c Hc. rewrite lookup_insert. case_decide; eauto. }
    intros l d m' name' child'. simpl. rewrite lookup_insert. case_decide.
    + intros [= <-]. simpl. intros [= <-]. rewrite lookup_insert.
      case_decide.
      * intros [= <-]. apply Hkeep, Hchild.
      * intros Hname. apply Hkeep. exact (Hcl _ _ _ _ _ Hnode Hm Hname).
    + intros Hl Hm' Hname. apply Hkeep. exact (Hcl _ _ _ _ _ Hl Hm' Hname).
Qed.

Lemma sound_set_Current w node path :
  sound w -> dir_at w node ->
  sound (Tree.set_FileSystem
           {| Tree.Root := Tree.Root (Tree.FileSystem w);
              Tree.Current := node; Tree.Path := path |} w).
Proof.
  intros [(Hch & Hcur & Hroot) Hcl] Hnode.
  split; [split; [exact Hch | split; [exact Hnode | exact Hroot]] | exact Hcl].
Qed.

Lemma guarded_cmdEcho context name rest :
  args context = name :: rest ->
  guarded oof sound (Tree.cmdEcho_execute context) (fun _ w' => sound w').
Proof.
  intros Hargs. unfold Tree.cmdEcho_execute, Fprintln. rewrite Hargs.
  apply guarded_write_status.
Qed.

Lemma guarded_cmdPwd context :
  guarded oof sound (Tree.cmdPwd_execute context) (fun _ w' => sound w').
Proof.
  intros w Hw. unfold Tree.cmdPwd_execute, bind, Tree.get_FileSystem.
  exact Hw.
Qed.

Lemma guarded_cat_file context file :
  guarded oof sound (Tree.cat_file context file)
    (fun r w' => match r with Some _ => sound w' | None => sound w' end).
Proof.
  intros w Hw. destruct (sound_current w Hw) as (cur & m & Hcur & _ & Hm).
  unfold Tree.cat_file, bind, Tree.get_FileSystem, Tree.deref. rewrite Hcur.
  unfold Tree.lookup_child. rewrite Hm.
  destruct (m !! file) as [l|] eqn:Hl; [|exact Hw].
  destruct (proj2 Hw _ _ _ _ _ Hcur Hm Hl) as [node Hnode]. rewrite Hnode.
  destruct (negb (Tree.IsDir node)); exact Hw.
Qed.

Lemma guarded_cmdCat context :
  guarded oof sound (Tree.cmdCat_execute context) (fun _ w' => sound w').
Proof.
  unfold Tree.cmdCat_execute, Fprintln. destruct (_ <? _)%nat.
  - apply guarded_write_status.
  - apply guarded_for_range.
    + intros file. eapply guarded_weaken; [apply guarded_cat_file | auto |].
      intros [v|] w Hw; exact Hw.
    + apply guarded_ret. auto.
Qed.

Lemma guarded_cmdLs context :
  guarded oof sound (Tree.cmdLs_execute context) (fun _ w' => sound w').
Proof.
  intros w Hw. destruct (sound_current w Hw) as (cur & m & Hcur & _ & Hm).
  unfold Tree.cmdLs_execute. unfold bind at 1. unfold Tree.get_FileSystem.
  unfold bind at 1. unfold Tree.deref. rewrite Hcur.
  assert (H : guarded oof sound
                (range_keys (Tree.child_names cur) >>= fun files =>
                 for_range files (ls_file context) (ret ((0, None) : result)))
                (fun _ w' => sound w')).
  { eapply guarded_bind; [apply guarded_range_keys, sound_set_runtime|].
    intros files. apply guarded_for_range; [|apply guarded_ret; auto].
    intros file. unfold ls_file, Fprintln.
    eapply guarded_bind; [apply guarded_Write, sound_set_runtime|].
    intros [e|]; apply guarded_ret; auto. }
  exact (H w Hw).
Qed.

Lemma guarded_touch_file file :
  guarded oof sound (Tree.touch_file file)
    (fun r w' => match r with Some _ => sound w' | None => sound w' end).
Proof.
  intros w Hw. destruct (sound_current w Hw) as (cur & m & Hcur & _ & Hm).
  pose proof (fresh_not_allocated w _ _ Hcur) as Hfresh.
  unfold Tree.touch_file, bind, Tree.get_FileSystem, Tree.new, Tree.set_child,
    bind, Tree.deref. simpl.
  rewrite lookup_insert_ne by (intros Heq; apply Hfresh; symmetry; exact Heq).
  rewrite Hcur, Hm.
  apply (sound_set_child
           (Tree.set_heap
              (<[fresh (dom (Tree.heap w)) := Tree.file_node EmptyString]>
                 (Tree.heap w)) w)
           (Tree.Current (Tree.FileSystem w)) cur m file
           (fresh (dom (Tree.heap w)))).
  - apply sound_alloc; [exact Hw | discriminate | discriminate].
  - simpl. rewrite lookup_insert_ne
      by (intros Heq; apply Hfresh; symmetry; exact Heq).
    exact Hcur.
  - exact Hm.
  - simpl. rewrite lookup_insert_eq. eauto.
Qed.

Lemma guarded_cmdTouch context :
  guarded oof sound (Tree.cmdTouch_execute context) (fun _ w' => sound w').
Proof.
  unfold Tree.cmdTouch_execute, Fprintln. destruct (_ <? _)%nat.
  - apply guarded_write_status.
  - apply guarded_for_range.
    + intros file. eapply guarded_weaken; [apply guarded_touch_file | auto |].
      intros [v|] w Hw; exact Hw.
    + apply guarded_ret. auto.
Qed.

(** One element of the path of [mkdir]: from an allocated node the walk
    goes on at an allocated node, or the entry is written into a nil map. *)
Lemma guarded_mkdir_part part node :
  guarded oof (fun w => sound w /\ is_Some (Tree.heap w !! node))
    (Tree.mkdir_part part node)
    (fun r w' =>
       match r with
       | inl node' => sound w' /\ is_Some (Tree.heap w' !! node')
       | inr _ => sound w'
       end).
Proof.
  intros w [Hw [n Hnode]]. unfold Tree.mkdir_part.
  destruct (String.eqb part EmptyString); [simpl; eauto|].
  unfold bind at 1. unfold Tree.deref at 1. rewrite Hnode.
  unfold Tree.lookup_child at 1.
  destruct (Tree.Children n) as [m|] eqn:Hm.
  - destruct (m !! part) as [child|] eqn:Hpart.
    + unfold bind, ret, Tree.deref. rewrite Hnode.
      unfold Tree.lookup_child. rewrite Hm, Hpart.
      split; [exact Hw|]. exact (proj2 Hw _ _ _ _ _ Hnode Hm Hpart).
    + pose proof (fresh_not_allocated w _ _ Hnode) as Hfresh.
      unfold bind, Tree.new, Tree.set_child, bind, Tree.deref. simpl.
      rewrite lookup_insert_ne
        by (intros Heq; apply Hfresh; symmetry; exact Heq).
      rewrite Hnode, Hm. simpl. rewrite lookup_insert_eq.
      unfold Tree.lookup_child. simpl. rewrite lookup_insert_eq.
      split.
      * assert (Hw1 : sound
                  (Tree.set_heap
                     (<[fresh (dom (Tree.heap w)) := Tree.dir_node]>
                        (Tree.heap w)) w)).
        { apply sound_alloc; [exact Hw | simpl; eauto |].
          intros m' [= <-]. reflexivity. }
        assert (Hn1 : Tree.heap
                  (Tree.set_heap
                     (<[fresh (dom (Tree.heap w)) := Tree.dir_node]>
                        (Tree.heap w)) w) !! node = Some n).
        { simpl. rewrite lookup_insert_ne
            by (intros Heq; apply Hfresh; symmetry; exact Heq).
          exact Hnode. }
        assert (Hc1 : is_Some
                  (Tree.heap
                     (Tree.set_heap
                        (<[fresh (dom (Tree.heap w)) := Tree.dir_node]>
                           (Tree.heap w)) w) !! fresh (dom (Tree.heap w)))).
        { simpl. rewrite lookup_insert_eq. eauto. }
        exact (sound_set_child _ node n m part _ Hw1 Hn1 Hm Hc1).
      * simpl. rewrite lookup_insert_ne by exact Hfresh.
        rewrite lookup_insert_eq. eauto.
  - pose proof (fresh_not_allocated w _ _ Hnode) as Hfresh.
    unfold bind, Tree.new, Tree.set_child, bind, Tree.deref. simpl.
    rewrite lookup_insert_ne
      by (intros Heq; apply Hfresh; symmetry; exact Heq).
    rewrite Hnode, Hm. reflexivity.
Qed.

Lemma guarded_cmdMkdir context :
  guarded oof sound (Tree.cmdMkdir_execute context) (fun _ w' => sound w').
Proof.
  unfold Tree.cmdMkdir_execute, Fprintln. destruct (_ <? _)%nat.
  - apply guarded_write_status.
  - apply guarded_for_range; [|apply guarded_ret; auto].
    intros dir w Hw. destruct (sound_current w Hw) as (cur & m & Hcur & _).
    unfold bind at 1. unfold Tree.get_FileSystem.
    pose proof (guarded_for_fold
                  (fun node w => sound w /\ is_Some (Tree.heap w !! node))
                  (strings.Split (filepath.Clean dir) SLASH)
                  (Tree.Current (Tree.FileSystem w))
                  Tree.mkdir_part (fun _ => ret (None : option result))
                  (fun r w' => match r with
                               | Some _ => sound w'
                               | None => sound w'
                               end)) as H.
    eapply H.
    + intros part node. eapply guarded_weaken;
        [apply guarded_mkdir_part | auto |].
      intros [node'|[v|]] w' Hw'; exact Hw'.
    + intros node. apply guarded_ret. intros w' [Hw' _]. exact Hw'.
    + split; [exact Hw | eauto].
Qed.

(** One element of the path of [cd]: the walk goes on at a directory. *)
Lemma guarded_cd_part context targetPath part node :
  guarded oof (fun w => sound w /\ dir_at w node)
    (Tree.cd_part context targetPath part node)
    (fun r w' =>
       match r with
       | inl node' => sound w' /\ dir_at w' node'
       | inr _ => sound w'
       end).
Proof.
  intros w [Hw Hdir]. unfold Tree.cd_part.
  destruct (String.eqb part ".."); [simpl; auto|].
  destruct (_ || _); [simpl; auto|].
  destruct Hdir as (n & Hnode & Hn).
  unfold bind at 1. unfold Tree.deref at 1. rewrite Hnode.
  unfold Tree.lookup_child.
  destruct (Tree.Children n) as [m|] eqn:Hm; [|exact Hw].
  destruct (m !! part) as [child|] eqn:Hpart; [|exact Hw].
  destruct (proj2 Hw _ _ _ _ _ Hnode Hm Hpart) as [c Hc].
  unfold bind, Tree.deref. rewrite Hc.
  destruct (Tree.IsDir c) eqn:Hcdir; [|exact Hw].
  split; [exact Hw|]. exists c. auto.
Qed.

Lemma guarded_cmdCd context :
  guarded oof sound (Tree.cmdCd_execute context) (fun _ w' => sound w').
Proof.
  assert (Hroot : guarded oof sound
            (Tree.get_FileSystem >>= fun fs =>
             Tree.set_Current_Path (Tree.Root fs) "/" >>= fun _ =>
             ret ((0, None) : result))
            (fun _ w' => sound w')).
  { intros w Hw. apply sound_set_Current; [exact Hw|]. apply Hw. }
  unfold Tree.cmdCd_execute.
  destruct (args context) as [|arg0 [|arg1 rest]]; try exact Hroot.
  destruct (String.eqb _ "/"); [exact Hroot|].
  intros w Hw. unfold bind at 1. unfold Tree.get_FileSystem.
  pose proof (guarded_for_fold
                (fun node w => sound w /\ dir_at w node)
                (strings.Split (filepath.Clean arg1) SLASH)
                (Tree.Current (Tree.FileSystem w))
                (Tree.cd_part context (filepath.Clean arg1))
                (fun node =>
                   Tree.set_Current_Path node (filepath.Clean arg1)
                   >>= fun _ => ret ((0, None) : result))
                (fun _ w' => sound w')) as H.
  eapply H.
  - intros part node. eapply guarded_weaken;
      [apply guarded_cd_part | auto |].
    intros [node'|v] w' Hw'; exact Hw'.
  - intros node w' [Hw' Hdir]. apply sound_set_Current; assumption.
  - split; [exact Hw | apply Hw].
Qed.

End Guarded.

Lemma sound_init rt : sound (Tree.init_world rt).
Proof.
  split; [apply well_formed_init|].
  intros l n m name child Hl Hm Hname. simpl in *.
  unfold Tree.init_heap in Hl.
  repeat (apply lookup_insert_Some in Hl as [[<- <-]|[_ Hl]];
          [first [discriminate Hm | idtac]|]).
  - injection Hm as <-.
    repeat (apply lookup_insert_Some in Hname as [[_ <-]|[_ Hname]];
            [vm_compute; eauto|]).
    apply lookup_singleton_Some in Hname as [_ <-]. vm_compute. eauto.
  - apply lookup_singleton_Some in Hl as [<- <-]. discriminate Hm.
Qed.

(** From a sound world every run of the executor and of the shell keeps
    the world sound, and stops with no other panic than the write into a nil
    map. *)
Lemma Tree_guarded (fuel : nat) :
  (forall context,
     guarded True sound (Tree.executeProgram fuel context)
       (fun _ w' => sound w'))
  /\ (forall context prompt lastStatus,
        guarded True sound (Tree.shell_loop fuel context prompt lastStatus)
          (fun _ w' => sound w')).
Proof.
  induction fuel as [|fuel [IHe IHl]].
  - split; intros; intros w Hw; exact I.
  - split.
    + intros context. rewrite Tree_executeProgram_S.
      destruct (args context) as [|name rest] eqn:Hargs;
        [apply guarded_ret; auto|].
      destruct (Tree.commands !! name) as [c|];
        [|unfold Fprint; apply guarded_write_status].
      destruct c; unfold Tree.execute.
      * apply IHl.
      * apply guarded_ret. auto.
      * apply guarded_ret. auto.
      * apply (guarded_cmdEcho True context name rest Hargs).
      * apply guarded_cmdCat.
      * apply guarded_cmdLs.
      * apply guarded_cmdTouch.
      * apply guarded_cmdMkdir.
      * apply guarded_cmdCd.
      * apply guarded_cmdPwd.
      * unfold Tree.cmdSu_execute. apply IHe.
    + intros context prompt lastStatus. rewrite Tree_shell_loop_S.
      unfold Fprint.
      eapply guarded_bind; [apply guarded_Write, sound_set_runtime|].
      intros [e|]; [apply guarded_ret; auto|].
      eapply guarded_bind with (Q' := fun _ w' => sound w').
      { intros w Hw. unfold ReadLine.
        destruct (readers (get_runtime w) !! stdin context) as [[|line rest]|];
          exact Hw. }
      intros [line [e|]]; [apply guarded_ret; auto|]. cbv zeta.
      destruct (strings.Fields line) as [|arg0 toks]; [apply IHl|].
      destruct (String.eqb arg0 "exit"); [apply guarded_ret; auto|].
      eapply guarded_bind; [apply IHe|].
      intros [st [e|]]; [apply guarded_ret; auto | apply IHl].
Qed.

(** X26.  From a world that is well formed and has no dangling pointer, as the
    initial world is, a run of the executor can panic in one way only: by a
    write into a nil map, which is what [mkdir] does when its path leads
    through a file.  There is no nil pointer dereference and no slice out
    of range; and a run that returns leaves such a world again. *)
Theorem only_panic_is_nil_map_write (fuel : nat) (context : commandContext)
    (w : Tree.World) :
  sound w ->
  match Tree.executeProgram fuel context w with
  | Ret (_, w') => sound w'
  | Panic msg => msg = "assignment to entry in nil map"
  | OutOfFuel => True
  end.
Proof. intros Hw. exact (proj1 (Tree_guarded fuel) context w Hw). Qed.

Lemma only_panic_is_nil_map_write_witness :
  match Tree.executeProgram 6 (session "guest" false ["sh"])
          (Tree.init_world (quiet_runtime ["mkdir usr.txt/x"])) with
  | Ret (_, w') => sound w'
  | Panic msg => msg = "assignment to entry in nil map"
  | OutOfFuel => True
  end.
Proof.
  apply (only_panic_is_nil_map_write 6 (session "guest" false ["sh"])
           (Tree.init_world (quiet_runtime ["mkdir usr.txt/x"]))).
  apply sound_init.
Defined.

(** ** The runtime during a run *)

Lemma advances_kept_by_io rt0 :
  kept_by_io (fun w : Tree.World => advances rt0 (Tree.runtime w)).
Proof. intros w rt Hw Hrt. exact (advances_trans _ _ _ Hw Hrt). Qed.

Lemma Tree_executeProgram_advances fuel context w w' r :
  Tree.executeProgram fuel context w = Ret (r, w') ->
  advances (Tree.runtime w) (Tree.runtime w').
Proof.
  intros Hrun.
  pose proof (proj1 (Tree_preserves
                       (fun w1 => advances (Tree.runtime w) (Tree.runtime w1))
                       fuel (advances_kept_by_io _)
                       (fun w1 node path H => H)
                       (conj (fun w1 n H => H)
                             (fun w1 node n m name child H _ _ => H)))
                context w (advances_refl _)) as H.
  rewrite Hrun in H. exact H.
Qed.



(** ** How the shell ends *)

(** X10.  The shell returns without an error only after it has read an [exit]
    line: one of the lines its reader had to deliver is an [exit] command.
    In every other case it returns with the error that ended it. *)
Theorem shell_ends_without_error_only_on_exit (fuel : nat)
    (context : commandContext) (prompt : string) (lastStatus st : uint32)
    (w w' : Tree.World) :
  Tree.shell_loop fuel context prompt lastStatus w = Ret ((st, None), w') ->
  exists line,
    line ∈ pending (stdin context) (Tree.runtime w) /\ exit_line line.
Proof.
  revert lastStatus w.
  induction fuel as [|fuel IH]; intros lastStatus w Hrun; [discriminate|].
  rewrite Tree_shell_loop_S in Hrun.
  unfold bind at 1 in Hrun. unfold Fprint, Write in Hrun.
  destruct (write_error _ _ _ _) as [e|]; [discriminate|].
  unfold bind at 1 in Hrun. unfold ReadLine in Hrun.
  cbn [get_runtime set_runtime Tree.World_runtime Tree.runtime
       record_write readers] in Hrun.
  unfold pending.
  destruct (readers (Tree.runtime w) !! stdin context) as [[|line lines]|] eqn:Hr;
    try discriminate.
  cbv zeta in Hrun. simpl.
  destruct (strings.Fields line) as [|arg0 toks] eqn:Hf.
  { apply IH in Hrun as (l & Hl & Hexit). exists l. split; [|exact Hexit].
    revert Hl. unfold pending. simpl. rewrite lookup_insert_eq. simpl.
    apply list_elem_of_further. }
  destruct (String.eqb arg0 "exit") eqn:Harg.
  { apply String.eqb_eq in Harg. subst arg0. exists line.
    split; [apply list_elem_of_here | exists toks; exact Hf]. }
  unfold bind in Hrun.
  destruct (Tree.executeProgram fuel (with_args context (arg0 :: toks)) _)
    as [[[st1 [e|]] w1]|msg|] eqn:Hcmd; try discriminate.
  apply Tree_executeProgram_advances in Hcmd as (_ & Hcmd & _).
  specialize (Hcmd (stdin context)).
  apply IH in Hrun as (l & Hl & Hexit). exists l. split; [|exact Hexit].
  apply list_elem_of_further. eapply elem_of_suffix; [exact Hl|].
  revert Hcmd. unfold pending. simpl. rewrite lookup_insert_eq. simpl. auto.
Qed.

Lemma shell_ends_without_error_only_on_exit_witness :
  exists line,
    line ∈ pending 0 (quiet_runtime ["pwd"; "exit 3"; "ls"])
    /\ exit_line line.
Proof.
  apply (shell_ends_without_error_only_on_exit 3
           (session "guest" false ["sh"]) EmptyString 0 3
           (Tree.init_world (quiet_runtime ["pwd"; "exit 3"; "ls"]))
           (world_after ["pwd"; "exit 3"; "ls"])).
  vm_compute. reflexivity.
Defined.

(** X11.  Lines without a token are passed over: the shell writes its prompt
    before each of them and goes on with the same last status.  After
    [blank] such lines and the end of the input it returns the last status
    with [io.EOF], having written the prompt once more. *)
Theorem shell_passes_over_blank_lines (context : commandContext)
    (prompt : string) (lastStatus : uint32) (w : Tree.World)
    (blank : list string) :
  writers_never_fail (Tree.runtime w) ->
  readers (Tree.runtime w) !! stdin context = Some blank ->
  Forall (fun line => strings.Fields line = []) blank ->
  exists w',
    Tree.shell_loop (S (length blank)) context prompt lastStatus w =
      Ret ((lastStatus, Some EOF), w')
    /\ Tree.heap w' = Tree.heap w
    /\ Tree.FileSystem w' = Tree.FileSystem w
    /\ written (Tree.runtime w') =
         (written (Tree.runtime w)
          ++ repeat (stdout context, prompt) (S (length blank)))%list.
Proof.
  revert w. induction blank as [|line blank IH]; intros w Hq Hr Hblank.
  - rewrite Tree_shell_loop_S. unfold bind, Fprint, Write. rewrite Hq.
    unfold ReadLine. simpl. rewrite Hr. eexists. split; [reflexivity|].
    simpl. auto.
  - inversion Hblank as [|? ? Hline Hrest]; subst.
    rewrite Tree_shell_loop_S. unfold bind at 1. unfold Fprint, Write.
    rewrite Hq. unfold bind at 1. unfold ReadLine.
    cbn [get_runtime set_runtime Tree.World_runtime Tree.runtime
         record_write readers].
    rewrite Hr. cbv zeta. rewrite Hline.
    match goal with
    | |- context [Tree.shell_loop _ _ _ _ ?x] => set (w2 := x)
    end.
    destruct (IH w2) as (w' & Hrun & Hheap & Hfs & Hlog).
    + exact Hq.
    + simpl. apply lookup_insert_eq.
    + exact Hrest.
    + exists w'. split; [exact Hrun|]. split; [exact Hheap|].
      split; [exact Hfs|]. rewrite Hlog. simpl. rewrite <- app_assoc.
      reflexivity.
Qed.

Lemma shell_passes_over_blank_lines_witness :
  exists w',
    Tree.shell_loop 3 (session "guest" true ["sh"]) "$ " 5
      (Tree.init_world (quiet_runtime [" "; EmptyString])) =
      Ret ((5, Some EOF), w')
    /\ Tree.heap w' = Tree.heap (Tree.init_world (quiet_runtime [" "; EmptyString]))
    /\ Tree.FileSystem w' =
         Tree.FileSystem (Tree.init_world (quiet_runtime [" "; EmptyString]))
    /\ written (Tree.runtime w') =
         (written (Tree.runtime
                     (Tree.init_world (quiet_runtime [" "; EmptyString])))
          ++ repeat (1%nat, "$ ") 3)%list.
Proof.
  apply (shell_passes_over_blank_lines (session "guest" true ["sh"]) "$ " 5
           (Tree.init_world (quiet_runtime [" "; EmptyString]))
           [" "; EmptyString]).
  - intros log h data. reflexivity.
  - reflexivity.
  - repeat constructor.
Defined.

(** ** Properties kept by the commands of the flat filesystem *)

Section FlatPreserves.
Context (oof : Prop) (P : Flat.World -> Prop).

Lemma Flat_preserves_get_FileSystem : preserves oof P Flat.get_FileSystem.
Proof. intros w Hw. exact Hw. Qed.

Context (P_runtime : kept_by_io P).

Lemma Flat_preserves_cmdEcho context :
  preserves oof P (Flat.cmdEcho_execute context).
Proof using P_runtime.
  unfold Flat.cmdEcho_execute, Fprintln. repeat preserve_step.
Qed.

Lemma Flat_preserves_cat_file context arg0 file :
  preserves oof P (Flat.cat_file context arg0 file).
Proof using P_runtime.
  unfold Flat.cat_file, Fprintln, Fprint.
  apply preserves_bind; [apply Flat_preserves_get_FileSystem|]. intros fs.
  repeat preserve_step.
Qed.

Lemma Flat_preserves_cmdCat context :
  preserves oof P (Flat.cmdCat_execute context).
Proof using P_runtime.
  unfold Flat.cmdCat_execute.
  destruct (args context) as [|arg0 [|file files]]; try apply preserves_ret.
  apply preserves_for_range; [intros f; apply Flat_preserves_cat_file|].
  apply preserves_ret.
Qed.

Lemma Flat_preserves_cmdLs context :
  preserves oof P (Flat.cmdLs_execute context).
Proof using P_runtime.
  unfold Flat.cmdLs_execute.
  apply preserves_bind; [apply Flat_preserves_get_FileSystem|]. intros fs.
  repeat preserve_step.
Qed.

Lemma Flat_preserves_not_found context name :
  preserves oof P
    (Fprint (stderr context) (name ++ ": command not found" ++ nl)
     >>= fun err => ret (127, err)).
Proof using P_runtime. unfold Fprint. repeat preserve_step. Qed.

Context (P_touch : closed_under_touch P).

Lemma Flat_preserves_cmdTouch context :
  preserves oof P (Flat.cmdTouch_execute context).
Proof using P_runtime P_touch.
  unfold Flat.cmdTouch_execute, Fprintln.
  destruct (args context) as [|arg0 [|file more]];
    [repeat preserve_step | repeat preserve_step |].
  intros w Hw. unfold bind, Flat.get_FileSystem.
  match goal with |- context [if ?b then _ else _] => destruct b end.
  - simpl. apply P_runtime; [exact Hw | apply advances_write].
  - destruct more; simpl; [apply P_touch|]; exact Hw.
Qed.

End FlatPreserves.

Lemma Flat_executeProgram_S fuel context :
  Flat.executeProgram (S fuel) context =
    match args context with
    | [] => ret (0, None)
    | name :: _ =>
        match Flat.commands !! name with
        | None =>
            Fprint (stderr context) (name ++ ": command not found" ++ nl)
            >>= fun err => ret (127, err)
        | Some command =>
            Flat.execute (Flat.executeProgram fuel)
              (fun context =>
                 Flat.shell_loop fuel context (shell_prompt context) 0)
              command context
        end
    end.
Proof. reflexivity. Qed.

Lemma Flat_shell_loop_S fuel context prompt lastStatus :
  Flat.shell_loop (S fuel) context prompt lastStatus =
    (Fprint (stdout context) prompt >>= fun err =>
     match err with
     | Some e => ret (lastStatus, Some e)
     | None =>
         ReadLine (stdin context) >>= fun '(line, err) =>
         match err with
         | Some e => ret (lastStatus, Some e)
         | None =>
             let args := strings.Fields line in
             match args with
             | [] => Flat.shell_loop fuel context prompt lastStatus
             | arg0 :: _ =>
                 if String.eqb arg0 "exit" then
                   ret (exit_status lastStatus args, None)
                 else
                   let newContext := with_args context args in
                   Flat.executeProgram fuel newContext
                   >>= fun '(lastStatus, err) =>
                   match err with
                   | Some e => ret (lastStatus, Some e)
                   | None => Flat.shell_loop fuel context prompt lastStatus
                   end
             end
         end
     end).
Proof. reflexivity. Qed.

(** A property of the state that writes, reads and the entry of an empty
    file keep is kept by every run of the executor and of the shell. *)
Lemma Flat_preserves (P : Flat.World -> Prop) (fuel : nat) :
  kept_by_io P -> closed_under_touch P ->
  (forall context, preserves True P (Flat.executeProgram fuel context))
  /\ (forall context prompt lastStatus,
        preserves True P (Flat.shell_loop fuel context prompt lastStatus)).
Proof.
  intros P_runtime P_touch.
  induction fuel as [|fuel [IHe IHl]].
  - split; intros; intros w Hw; exact I.
  - split.
    + intros context. rewrite Flat_executeProgram_S.
      destruct (args context) as [|name rest]; [apply preserves_ret|].
      destruct (Flat.commands !! name) as [c|];
        [|apply Flat_preserves_not_found; assumption].
      destruct c; unfold Flat.execute.
      * apply IHl.
      * apply preserves_ret.
      * apply preserves_ret.
      * apply Flat_preserves_cmdEcho; assumption.
      * apply Flat_preserves_cmdCat; assumption.
      * apply Flat_preserves_cmdLs; assumption.
      * apply Flat_preserves_cmdTouch; assumption.
      * unfold Flat.cmdSu_execute. apply IHe.
    + intros context prompt lastStatus. rewrite Flat_shell_loop_S.
      unfold Fprint.
      apply preserves_bind; [apply preserves_Write; assumption|].
      intros [e|]; [apply preserves_ret|].
      apply preserves_bind; [apply preserves_ReadLine; assumption|].
      intros [line [e|]]; [apply preserves_ret|]. cbv zeta.
      destruct (strings.Fields line) as [|arg0 toks]; [apply IHl|].
      destruct (String.eqb arg0 "exit"); [apply preserves_ret|].
      apply preserves_bind; [apply IHe|].
      intros [st [e|]]; [apply preserves_ret | apply IHl].
Qed.

Lemma kept_or_emptied_insert fs fs' file :
  kept_or_emptied fs fs' ->
  kept_or_emptied fs (<[file := EmptyString]> fs').
Proof.
  intros H f c Hf. destruct (decide (f = file)) as [->|Hne].
  - right. apply lookup_insert_eq.
  - rewrite lookup_insert_ne by congruence. exact (H f c Hf).
Qed.

(** X12.  The flat filesystem has no command that removes a file or writes a
    content: after any run of the executor, every file that was there is
    still there, with the content it had or with the empty content. *)
Theorem flat_files_are_kept_or_emptied (fuel : nat) (context : commandContext)
    (w w' : Flat.World) (r : result) :
  Flat.executeProgram fuel context w = Ret (r, w') ->
  kept_or_emptied (Flat.FileSystem w) (Flat.FileSystem w').
Proof.
  intros Hrun.
  assert (H0 : kept_or_emptied (Flat.FileSystem w) (Flat.FileSystem w))
    by (intros f c Hf; left; exact Hf).
  pose proof (proj1 (Flat_preserves
                       (fun w1 => kept_or_emptied (Flat.FileSystem w)
                                    (Flat.FileSystem w1))
                       fuel (fun w1 rt H _ => H)
                       (fun w1 file H => kept_or_emptied_insert _ _ file H))
                context w H0) as H.
  rewrite Hrun in H. exact H.
Qed.

Lemma flat_files_are_kept_or_emptied_witness :
  kept_or_emptied Flat.init_FileSystem
    (Flat.FileSystem
       (flat_world_after ["su"; "touch usr.txt"; "touch new.txt"])).
Proof.
  apply (flat_files_are_kept_or_emptied 12 (session "guest" false ["sh"])
           (Flat.init_world
              (quiet_runtime ["su"; "touch usr.txt"; "touch new.txt"]))
           (flat_world_after ["su"; "touch usr.txt"; "touch new.txt"])
           (0, Some EOF)).
  vm_compute. reflexivity.
Defined.

(** ** The flat executor always returns *)

Lemma returns_ret {A} (a : A) : always_returns (ret a).
Proof. intros w. exists a, w. split; [reflexivity | apply advances_refl]. Qed.

Lemma returns_bind {A B} (c : M Flat.World A) (k : A -> M Flat.World B) :
  always_returns c -> (forall a, always_returns (k a)) ->
  always_returns (c >>= k).
Proof.
  intros Hc Hk w. destruct (Hc w) as (a & w1 & Hrun & Hadv).
  destruct (Hk a w1) as (b & w2 & Hrun2 & Hadv2).
  exists b, w2. unfold bind. rewrite Hrun. split; [exact Hrun2|].
  exact (advances_trans _ _ _ Hadv Hadv2).
Qed.

Lemma returns_for_range {A R} (xs : list A)
    (body : A -> M Flat.World (option R)) (after : M Flat.World R) :
  (forall x, always_returns (body x)) -> always_returns after ->
  always_returns (for_range xs body after).
Proof.
  intros Hbody Hafter. induction xs as [|x xs IH]; [exact Hafter|].
  simpl. apply returns_bind; [apply Hbody|].
  intros [v|]; [apply returns_ret | exact IH].
Qed.

Lemma returns_Write h data : always_returns (Write h data).
Proof.
  intros w. eexists _, _. split; [reflexivity|]. apply advances_write.
Qed.

Lemma returns_range_keys keys : always_returns (range_keys keys).
Proof.
  intros w. eexists _, _. split; [reflexivity|]. apply advances_range.
Qed.

Lemma returns_get_FileSystem : always_returns Flat.get_FileSystem.
Proof. intros w. exists (Flat.FileSystem w), w. split; [reflexivity | apply advances_refl]. Qed.

Lemma returns_put_FileSystem fs : always_returns (Flat.put_FileSystem fs).
Proof. intros w. eexists _, _. split; [reflexivity | apply advances_refl]. Qed.

(** One step of a proof that a command returns. *)
Ltac returns_step :=
  first
    [ apply returns_ret
    | apply returns_Write
    | apply returns_range_keys
    | apply returns_get_FileSystem
    | apply returns_put_FileSystem
    | apply returns_bind; [|intros ?]
    | apply returns_for_range; [intros ?|]
    | match goal with
      | |- always_returns (match ?x with _ => _ end) => destruct x
      | |- always_returns (if ?x then _ else _) => destruct x
      end ].

Lemma returns_cmdEcho context name rest :
  args context = name :: rest ->
  always_returns (Flat.cmdEcho_execute context).
Proof.
  intros Hargs. unfold Flat.cmdEcho_execute, Fprintln. rewrite Hargs.
  repeat returns_step.
Qed.

Lemma returns_cmdCat context : always_returns (Flat.cmdCat_execute context).
Proof.
  unfold Flat.cmdCat_execute, Flat.cat_file, Fprintln, Fprint.
  repeat returns_step.
Qed.

Lemma returns_cmdLs context : always_returns (Flat.cmdLs_execute context).
Proof.
  unfold Flat.cmdLs_execute, ls_file, Fprintln. repeat returns_step.
Qed.

Lemma returns_cmdTouch context : always_returns (Flat.cmdTouch_execute context).
Proof.
  unfold Flat.cmdTouch_execute, Fprintln. repeat returns_step.
Qed.

Lemma pending_length_le h rt rt' :
  advances rt rt' -> (length (pending h rt') <= length (pending h rt))%nat.
Proof.
  intros (_ & Hr & _). destruct (Hr h) as [k ->].
  rewrite length_app. lia.
Qed.

Lemma Flat_returns (fuel : nat) :
  (forall context w,
     (3 * length (pending (stdin context) (Flat.runtime w)) + 3 <= fuel)%nat ->
     exists r w',
       Flat.executeProgram fuel context w = Ret (r, w')
       /\ advances (Flat.runtime w) (Flat.runtime w'))
  /\ (forall context rest w,
        args context = "sh" :: rest ->
        (3 * length (pending (stdin context) (Flat.runtime w)) + 2 <= fuel)%nat ->
        exists r w',
          Flat.executeProgram fuel context w = Ret (r, w')
          /\ advances (Flat.runtime w) (Flat.runtime w'))
  /\ (forall context prompt lastStatus w,
        (3 * length (pending (stdin context) (Flat.runtime w)) + 1 <= fuel)%nat ->
        exists r w',
          Flat.shell_loop fuel context prompt lastStatus w = Ret (r, w')
          /\ advances (Flat.runtime w) (Flat.runtime w')).
Proof.
  induction fuel as [|fuel (IHe & IHsh & IHl)].
  - repeat split; intros; lia.
  - split; [|split].
    + intros context w Hfuel. rewrite Flat_executeProgram_S.
      destruct (args context) as [|name rest] eqn:Hargs; [apply returns_ret|].
      destruct (Flat.commands !! name) as [c|].
      2:{ unfold Fprint. apply returns_bind; [apply returns_Write|].
          intros ?. apply returns_ret. }
      destruct c; unfold Flat.execute.
      * apply IHl. lia.
      * apply returns_ret.
      * apply returns_ret.
      * apply (returns_cmdEcho context name rest Hargs).
      * apply returns_cmdCat.
      * apply returns_cmdLs.
      * apply returns_cmdTouch.
      * unfold Flat.cmdSu_execute. rewrite Hargs.
        destruct rest as [|arg1 rest'];
          match goal with
          | |- context [Flat.executeProgram fuel ?c w] =>
              apply (IHsh c [] w eq_refl)
          end; simpl; lia.
    + intros context rest w Hargs Hfuel. rewrite Flat_executeProgram_S, Hargs.
      change (Flat.commands !! "sh") with (Some Flat.cmdShell).
      unfold Flat.execute. apply IHl. lia.
    + intros context prompt lastStatus w Hfuel.
      rewrite Flat_shell_loop_S.
      unfold bind at 1. unfold Fprint, Write.
      destruct (write_error _ _ _ _) as [e|].
      { eexists _, _. split; [reflexivity | apply advances_write]. }
      unfold bind at 1. unfold ReadLine.
      cbn [get_runtime set_runtime Flat.World_runtime Flat.runtime
           record_write readers].
      destruct (readers (Flat.runtime w) !! stdin context) as [[|line lines]|] eqn:Hr;
        try (eexists _, _; split; [reflexivity | apply advances_write]).
      pose proof (advances_read (stdin context) line lines
                    (record_write (stdout context) prompt (Flat.runtime w)) Hr)
        as Hread.
      match goal with
      | |- exists r w', _ ?x = _ /\ _ => set (w2 := x) in *
      end.
      assert (Hadv : advances (Flat.runtime w) (Flat.runtime w2)).
      { eapply advances_trans; [apply advances_write | exact Hread]. }
      assert (Hl2 : S (length (pending (stdin context) (Flat.runtime w2)))
                    = length (pending (stdin context) (Flat.runtime w))).
      { unfold pending. simpl. rewrite lookup_insert_eq, Hr. reflexivity. }
      cbv zeta.
      destruct (strings.Fields line) as [|arg0 toks].
      { assert (Hf : (3 * length (pending (stdin context) (Flat.runtime w2)) + 1
                        <= fuel)%nat) by lia.
        destruct (IHl context prompt lastStatus w2 Hf)
          as (r & w' & Hrun & Hadv').
        exists r, w'. split; [exact Hrun|].
        exact (advances_trans _ _ _ Hadv Hadv'). }
      destruct (String.eqb arg0 "exit").
      { eexists _, _. split; [reflexivity | exact Hadv]. }
      unfold bind.
      assert (Hf3 : (3 * length (pending (stdin (with_args context (arg0 :: toks)))
                                   (Flat.runtime w2)) + 3 <= fuel)%nat)
        by (change (stdin (with_args context (arg0 :: toks)))
              with (stdin context); lia).
      destruct (IHe (with_args context (arg0 :: toks)) w2 Hf3)
        as ([st err] & w3 & Hrun & Hadv3).
      rewrite Hrun.
      pose proof (pending_length_le (stdin context) _ _ Hadv3) as Hle.
      destruct err as [e|].
      { eexists _, _. split; [reflexivity|].
        exact (advances_trans _ _ _ Hadv Hadv3). }
      assert (Hf : (3 * length (pending (stdin context) (Flat.runtime w3)) + 1
                      <= fuel)%nat) by lia.
      destruct (IHl context prompt st w3 Hf) as (r & w' & Hrun' & Hadv').
      exists r, w'. split; [exact Hrun'|].
      exact (advances_trans _ _ _ Hadv (advances_trans _ _ _ Hadv3 Hadv')).
Qed.

(** X13.  The executor of the flat filesystem cannot stop by a panic or run for
    ever: with three units of fuel for each line its reader has still to
    deliver, and three more, it returns a status and an error value. *)
Theorem flat_executor_returns (context : commandContext) (w : Flat.World) :
  exists r w',
    Flat.executeProgram
      (3 * length (pending (stdin context) (Flat.runtime w)) + 3) context w =
      Ret (r, w').
Proof.
  destruct (proj1 (Flat_returns _) context w (le_n _)) as (r & w' & Hrun & _).
  exists r, w'. exact Hrun.
Qed.

(** ** The rendered banner *)

Lemma collapse_lf_to_crlf_cons z : forall c,
  collapse_crlf (String c (lf_to_crlf z)) = String c z.
Proof.
  induction z as [|a z IH]; intros c; [reflexivity|].
  cbn [lf_to_crlf]. destruct (Ascii.eqb a LF) eqn:Ha.
  - apply Ascii.eqb_eq in Ha. subst a.
    rewrite collapse_crlf_cons.
    replace (Ascii.eqb CR LF) with false by reflexivity.
    rewrite andb_false_r.
    rewrite collapse_crlf_cons.
    replace (Ascii.eqb CR CR && Ascii.eqb LF LF) with true by reflexivity.
    rewrite IH. reflexivity.
  - rewrite collapse_crlf_cons, Ha, andb_false_r, IH. reflexivity.
Qed.

Lemma collapse_lf_to_crlf z : collapse_crlf (lf_to_crlf z) = z.
Proof.
  destruct z as [|a z]; [reflexivity|].
  cbn [lf_to_crlf]. destruct (Ascii.eqb a LF) eqn:Ha.
  - apply Ascii.eqb_eq in Ha. subst a. rewrite collapse_crlf_cons.
    replace (Ascii.eqb CR CR && Ascii.eqb LF LF) with true by reflexivity.
    apply collapse_lf_to_crlf_cons.
  - apply collapse_lf_to_crlf_cons.
Qed.

Lemma lf_to_crlf_app a b : lf_to_crlf (a ++ b) = lf_to_crlf a ++ lf_to_crlf b.
Proof.
  induction a as [|c a IH]; [reflexivity|].
  change (String c a ++ b) with (String c (a ++ b)). cbn [lf_to_crlf].
  destruct (Ascii.eqb c LF); rewrite IH; reflexivity.
Qed.

Lemma collapse_app_crlf x : collapse_crlf (x ++ crlf) = collapse_crlf x ++ nl.
Proof.
  induction x as [|c x IH]; [reflexivity|].
  destruct x as [|c' x].
  - change (String c EmptyString ++ crlf) with (String c (String CR (String LF EmptyString))).
    rewrite collapse_crlf_cons.
    replace (Ascii.eqb CR LF) with false by reflexivity.
    rewrite andb_false_r. reflexivity.
  - change (String c (String c' x) ++ crlf)
      with (String c (String c' (x ++ crlf))).
    change (String c' x ++ crlf) with (String c' (x ++ crlf)) in IH.
    rewrite !collapse_crlf_cons.
    destruct (Ascii.eqb c CR && Ascii.eqb c' LF); rewrite IH; reflexivity.
Qed.

Lemma substring_all s : String.substring 0 (String.length s) s = s.
Proof.
  induction s as [|c s IH]; [reflexivity|]. simpl. rewrite IH. reflexivity.
Qed.

Lemma substring_skip x : forall suffix,
  String.substring (String.length x) (String.length suffix) (x ++ suffix) =
    suffix.
Proof.
  induction x as [|c x IH]; intros suffix; [apply substring_all | apply IH].
Qed.

Lemma length_append x y :
  String.length (x ++ y) = (String.length x + String.length y)%nat.
Proof. induction x as [|c x IH]; simpl; [reflexivity | rewrite IH; reflexivity]. Qed.

Lemma HasSuffix_app x suffix : strings.HasSuffix (x ++ suffix) suffix = true.
Proof.
  unfold strings.HasSuffix. cbv zeta. rewrite length_append.
  replace (String.length x + String.length suffix - String.length suffix)%nat
    with (String.length x) by lia.
  rewrite substring_skip, String.eqb_refl, andb_true_r.
  apply Nat.leb_le. lia.
Qed.

Lemma HasSuffix_ensure_crlf s : strings.HasSuffix (ensure_crlf s) crlf = true.
Proof.
  unfold ensure_crlf. destruct (strings.HasSuffix s crlf) eqn:H; [exact H|].
  apply HasSuffix_app.
Qed.

Lemma lf_after_cr_lf_to_crlf z : forall p, lf_after_cr p (lf_to_crlf z) = true.
Proof.
  induction z as [|c z IH]; intros p; [reflexivity|].
  cbn [lf_to_crlf]. destruct (Ascii.eqb c LF) eqn:Hc.
  - cbn [lf_after_cr]. replace (Ascii.eqb CR LF) with false by reflexivity.
    replace (Ascii.eqb CR CR) with true by reflexivity.
    replace (Ascii.eqb LF LF) with true by reflexivity. rewrite IH. reflexivity.
  - cbn [lf_after_cr]. rewrite Hc, IH. reflexivity.
Qed.

Lemma lf_after_cr_app_crlf x : forall p,
  lf_after_cr p (x ++ crlf) = lf_after_cr p x.
Proof.
  induction x as [|c x IH]; intros p; [reflexivity|].
  change (String c x ++ crlf) with (String c (x ++ crlf)).
  cbn [lf_after_cr]. rewrite IH. reflexivity.
Qed.

(** X14.  The banner the callback returns, whatever is configured, ends with
    carriage return, line feed, has no line feed that does not stand after
    a carriage return, and is a fixed point of the rendering: rendering it
    again changes nothing. *)
Theorem banner_is_normalised (configured : string) :
  strings.HasSuffix (Auth.render_banner configured) crlf = true
  /\ lf_after_cr false (Auth.render_banner configured) = true
  /\ Auth.render_banner (Auth.render_banner configured) =
       Auth.render_banner configured.
Proof.
  rewrite !render_banner_spec.
  split; [apply HasSuffix_ensure_crlf|]. split.
  - unfold ensure_crlf. destruct (strings.HasSuffix _ crlf).
    + apply lf_after_cr_lf_to_crlf.
    + rewrite lf_after_cr_app_crlf. apply lf_after_cr_lf_to_crlf.
  - set (z := collapse_crlf configured).
    unfold ensure_crlf at 2.
    destruct (strings.HasSuffix (lf_to_crlf z) crlf) eqn:Hsuf.
    + rewrite collapse_lf_to_crlf. unfold ensure_crlf. rewrite Hsuf.
      reflexivity.
    + rewrite collapse_app_crlf, collapse_lf_to_crlf, lf_to_crlf_app.
      change (lf_to_crlf nl) with crlf.
      unfold ensure_crlf. rewrite HasSuffix_app, Hsuf. reflexivity.
Qed.

(** ** Public key authentication *)



(** ** Keyboard-interactive authentication *)

Lemma questions_and_echos_from texts echos questions :
  fold_left
    (fun (slices : list string * list bool) question =>
       let '(keyboardInteractiveQuestions, keyboardInteractiveEchos) := slices in
       ((keyboardInteractiveQuestions ++ [Interactive.Text question])%list,
        (keyboardInteractiveEchos ++ [Interactive.Echo question])%list))
    questions (texts, echos) =
    ((texts ++ List.map Interactive.Text questions)%list,
     (echos ++ List.map Interactive.Echo questions)%list).
Proof.
  revert texts echos.
  induction questions as [|q questions IH]; intros texts echos; simpl.
  - rewrite !app_nil_r. reflexivity.
  - rewrite IH, <- !app_assoc. reflexivity.
Qed.

Lemma questions_and_echos_eq questions :
  Interactive.questions_and_echos questions =
    (List.map Interactive.Text questions, List.map Interactive.Echo questions).
Proof. apply (questions_and_echos_from [] []). Qed.

(** X16.  The client is asked once, with the user of the connection, the
    configured instruction, and the texts and echo flags of the configured
    questions in their order.  When it answers, and has an answer for the
    valid user, the callback logs one record that carries the setting
    [Accepted] and the answers, and accepts exactly when the setting is true
    or the user is the valid user and the first answer the valid password. *)
Theorem keyboard_interactive_verdict (cfg : Interactive.config)
    (conn : Auth.ConnMetadata)
    (client : Interactive.KeyboardInteractiveChallenge)
    (logs : Interactive.Logs) (answers : list string) :
  client (Auth.User conn)
    (Interactive.Instruction (Interactive.KeyboardInteractiveAuth cfg))
    (List.map Interactive.Text
       (Interactive.Questions (Interactive.KeyboardInteractiveAuth cfg)))
    (List.map Interactive.Echo
       (Interactive.Questions (Interactive.KeyboardInteractiveAuth cfg))) =
    (answers, None) ->
  (Auth.User conn = Interactive.validUser cfg -> answers <> []) ->
  exists v,
    Interactive.keyboardInteractiveCallback cfg conn client logs =
      Ret (v,
           {| Interactive.events :=
                (Interactive.events logs
                 ++ [Interactive.keyboardInteractiveAuthLog
                       {| Auth.log_User := Auth.User conn;
                          Auth.log_Accepted :=
                            Interactive.Accepted
                              (Interactive.KeyboardInteractiveAuth cfg) |}
                       answers])%list;
              Interactive.warnings := Interactive.warnings logs |})
    /\ (v = None <->
        Interactive.Accepted (Interactive.KeyboardInteractiveAuth cfg) = true
        \/ (Auth.User conn = Interactive.validUser cfg
            /\ head answers = Some (Interactive.validPass cfg))).
Proof.
  intros Hclient Hanswers. unfold Interactive.keyboardInteractiveCallback.
  rewrite questions_and_echos_eq, Hclient.
  unfold bind, Interactive.logEvent. cbn [Interactive.events Interactive.warnings].
  destruct (String.eqb (Auth.User conn) (Interactive.validUser cfg)) eqn:Huser.
  - apply String.eqb_eq in Huser.
    destruct answers as [|a answers]; [exfalso; exact (Hanswers Huser eq_refl)|].
    unfold Interactive.first_answer, ret.
    destruct (String.eqb a (Interactive.validPass cfg)) eqn:Hpass.
    + apply String.eqb_eq in Hpass. subst a. eexists. split; [reflexivity|].
      split; [intros _; right; auto | reflexivity].
    + apply String.eqb_neq in Hpass.
      destruct (Interactive.Accepted _); simpl;
        (eexists; split; [reflexivity|]); split; try discriminate; auto.
      intros [H|[_ [= H]]]; [discriminate | contradiction].
  - apply String.eqb_neq in Huser. unfold ret.
    destruct (Interactive.Accepted _); simpl;
      (eexists; split; [reflexivity|]); split; try discriminate; auto.
    intros [H|[H _]]; [discriminate | contradiction].
Qed.

Lemma keyboard_interactive_verdict_witness :
  exists v,
    Interactive.keyboardInteractiveCallback
      (interactive_config false [{| Interactive.Text := "Password: ";
                                    Interactive.Echo := false |}])
      {| Auth.User := "admin" |} (answering ["secret"]) no_logs =
      Ret (v,
           {| Interactive.events :=
                [Interactive.keyboardInteractiveAuthLog
                   {| Auth.log_User := "admin"; Auth.log_Accepted := false |}
                   ["secret"]];
              Interactive.warnings := [] |})
    /\ (v = None <->
        false = true \/ ("admin" = "admin" /\ Some "secret" = Some "secret")).
Proof.
  apply (keyboard_interactive_verdict
           (interactive_config false [{| Interactive.Text := "Password: ";
                                         Interactive.Echo := false |}])
           {| Auth.User := "admin" |} (answering ["secret"]) no_logs
           ["secret"]).
  - reflexivity.
  - intros _. discriminate.
Defined.



(** ** The log of authentication attempts *)

Lemma authLogCallback_counts conn method err st labels :
  default 0%nat
    (AuthLog.authAttemptsMetric (AuthLog.authLogCallback conn method err st)
       !! labels) =
    (default 0%nat (AuthLog.authAttemptsMetric st !! labels)
     + (if has_labels labels (conn, method, err) then 1 else 0))%nat.
Proof.
  unfold AuthLog.authLogCallback, has_labels, AuthLog.Inc.
  destruct (String.eqb method "none"); cbn [AuthLog.authAttemptsMetric];
    (case_bool_decide as Hl;
     [subst labels; rewrite lookup_insert_eq; simpl; lia
     |rewrite lookup_insert_ne by congruence; lia]).
Qed.

(** X18.  After the log callback has been called for a list of attempts, each
    counter of the metric has grown by the number of attempts with its
    method and outcome, and the event log has grown by one record for each
    attempt with the method [none], in order, and by nothing else. *)
Theorem auth_attempts_are_counted (attempts : list attempt)
    (st : AuthLog.State) :
  (forall labels,
     default 0%nat
       (AuthLog.authAttemptsMetric (after_attempts attempts st) !! labels) =
       (default 0%nat (AuthLog.authAttemptsMetric st !! labels)
        + length (List.filter (has_labels labels) attempts))%nat)
  /\ AuthLog.events (after_attempts attempts st) =
       (AuthLog.events st ++ none_events attempts)%list.
Proof.
  revert st. induction attempts as [|[[conn method] err] attempts IH]; intros st.
  - simpl. split; [intros; lia | rewrite app_nil_r; reflexivity].
  - change (after_attempts (((conn, method), err) :: attempts) st)
      with (after_attempts attempts (AuthLog.authLogCallback conn method err st)).
    destruct (IH (AuthLog.authLogCallback conn method err st)) as [IHc IHe].
    split.
    + intros labels. rewrite IHc, authLogCallback_counts.
      cbn [List.filter].
      destruct (has_labels labels (conn, method, err)); simpl; lia.
    + rewrite IHe. unfold none_events, AuthLog.authLogCallback.
      cbn [List.filter].
      destruct (String.eqb method "none"); cbn [AuthLog.events List.map];
        [rewrite <- app_assoc|]; reflexivity.
Qed.

(** ** The wire format of the channel data *)

Lemma byte_of_small x :
  0 <= x < 256 ->
  Z.of_N (Byte.to_N (match Byte.of_N (Z.to_N x) with
                     | Some b => b
                     | None => Byte.x00
                     end)) = x.
Proof.
  intros Hx. destruct (Byte.of_N (Z.to_N x)) as [b|] eqn:E.
  - apply Byte.to_of_N in E. rewrite E. lia.
  - apply Byte.of_N_None_iff in E. lia.
Qed.

Lemma land_255_bounds x : 0 <= Z.land x 255 < 256.
Proof.
  change 255 with (Z.ones 8). rewrite Z.land_ones by lia.
  apply Z.mod_pos_bound. lia.
Qed.

Lemma testbit_octet v s n :
  0 <= s -> 0 <= n ->
  Z.testbit (Z.shiftl (Z.land (Z.shiftr v s) 255) s) n =
    Z.testbit v n && (s <=? n) && (n <? s + 8).
Proof.
  intros Hs Hn. rewrite Z.shiftl_spec by lia.
  destruct (Z.leb_spec s n) as [Hle|Hlt].
  - rewrite Z.land_spec, Z.shiftr_spec by lia.
    replace (n - s + s) with n by lia.
    change 255 with (Z.ones 8). rewrite Z.testbit_ones_nonneg by lia.
    rewrite andb_true_r. f_equal.
    destruct (Z.ltb_spec (n - s) 8), (Z.ltb_spec n (s + 8)); auto; lia.
  - rewrite Z.testbit_neg_r by lia. rewrite andb_false_r. reflexivity.
Qed.

Lemma octets_join v :
  0 <= v < 2 ^ 32 ->
  Z.lor (Z.shiftl (Z.land (Z.shiftr v 24) 255) 24)
    (Z.lor (Z.shiftl (Z.land (Z.shiftr v 16) 255) 16)
       (Z.lor (Z.shiftl (Z.land (Z.shiftr v 8) 255) 8)
          (Z.land (Z.shiftr v 0) 255))) = v.
Proof.
  intros Hv. apply Z.bits_inj'. intros n Hn.
  replace (Z.land (Z.shiftr v 0) 255)
    with (Z.shiftl (Z.land (Z.shiftr v 0) 255) 0) by apply Z.shiftl_0_r.
  rewrite !Z.lor_spec, !testbit_octet by lia.
  destruct (Z.ltb_spec n 32) as [Hlt|Hge].
  - destruct (Z.testbit v n); [|reflexivity]. simpl.
    destruct (Z.leb_spec 24 n), (Z.ltb_spec n (24 + 8)),
      (Z.leb_spec 16 n), (Z.ltb_spec n (16 + 8)),
      (Z.leb_spec 8 n), (Z.ltb_spec n (8 + 8)),
      (Z.leb_spec 0 n), (Z.ltb_spec n (0 + 8)); simpl; auto; lia.
  - assert (Z.testbit v n = false) as ->; [|reflexivity].
    destruct (Z.eq_dec v 0) as [->|Hne]; [apply Z.bits_0|].
    apply Z.bits_above_log2; [lia|].
    apply Z.lt_le_trans with 32; [|exact Hge].
    apply Z.log2_lt_pow2; lia.
Qed.

Lemma parseUint32_wire v rest :
  0 <= v < 2 ^ 32 ->
  Tcpip.parseUint32 (wire_uint32 v ++ rest) = Some (v, rest).
Proof.
  intros Hv. unfold wire_uint32. cbn [List.map app Tcpip.parseUint32].
  rewrite !byte_of_small by apply land_255_bounds.
  rewrite octets_join by exact Hv. reflexivity.
Qed.

Lemma length_list_byte_of_string s :
  length (list_byte_of_string s) = String.length s.
Proof.
  unfold list_byte_of_string. rewrite List.length_map.
  induction s as [|c s IH]; simpl; [reflexivity | rewrite IH; reflexivity].
Qed.

Lemma parseString_wire s rest :
  Z.of_nat (String.length s) < 2 ^ 32 ->
  Tcpip.parseString (wire_string s ++ rest) = Some (s, rest).
Proof.
  intros Hs. unfold Tcpip.parseString, wire_string.
  rewrite <- app_assoc, parseUint32_wire by lia.
  rewrite length_app, length_list_byte_of_string.
  destruct (Z.ltb_spec (Z.of_nat (String.length s + length rest))
              (Z.of_nat (String.length s))) as [Hlt|_]; [lia|].
  rewrite Nat2Z.id, <- (length_list_byte_of_string s).
  rewrite firstn_app, firstn_all, Nat.sub_diag, firstn_O, app_nil_r.
  rewrite skipn_app, skipn_all, Nat.sub_diag. simpl.
  rewrite string_of_list_byte_of_string. reflexivity.
Qed.

(** X19.  [ssh.Unmarshal] reads back what the wire format holds: channel data
    whose fields fit the format are recovered field by field, and the same
    bytes followed by any other byte are refused with an error. *)
Theorem Unmarshal_reads_back_wire_form (d : Tcpip.tcpipChannelData)
    (b : Byte.byte) (more : list Byte.byte) :
  wire_sized d ->
  Tcpip.Unmarshal (wire_tcpipChannelData d) = inl d
  /\ exists err,
       Tcpip.Unmarshal (wire_tcpipChannelData d ++ b :: more) = inr err.
Proof.
  intros (Hp & Hop & Ha & Hoa).
  unfold Tcpip.Unmarshal, wire_tcpipChannelData. split.
  - rewrite parseString_wire by exact Ha.
    rewrite parseUint32_wire by exact Hp.
    rewrite parseString_wire by exact Hoa.
    rewrite <- (app_nil_r (wire_uint32 (Tcpip.OriginatorPort d))).
    rewrite parseUint32_wire by exact Hop.
    destruct d; reflexivity.
  - rewrite <- !app_assoc.
    rewrite parseString_wire by exact Ha.
    rewrite parseUint32_wire by exact Hp.
    rewrite parseString_wire by exact Hoa.
    rewrite parseUint32_wire by exact Hop.
    eexists. reflexivity.
Qed.

Lemma Unmarshal_reads_back_wire_form_witness :
  Tcpip.Unmarshal (wire_tcpipChannelData smtp_forward) = inl smtp_forward
  /\ exists err,
       Tcpip.Unmarshal (wire_tcpipChannelData smtp_forward ++ [Byte.x00]) =
         inr err.
Proof.
  apply (Unmarshal_reads_back_wire_form smtp_forward Byte.x00 []).
  unfold wire_sized, smtp_forward.
  cbn [Tcpip.Port Tcpip.OriginatorPort Tcpip.Address Tcpip.OriginatorAddress].
  repeat split; try (vm_compute; congruence).
Defined.

(** ** The HTTP server and the handler on every path *)

Lemma service_loop_answers_each_witness :
  replies
    (fst (Tcpip.service_loop true true true
            [Tcpip.FromInput (Some "GET / HTTP/1.1");
             Tcpip.FromRequests
               (Some {| Tcpip.WantReply := true; Tcpip.reply_error := None |});
             Tcpip.FromRequests
               (Some {| Tcpip.WantReply := false; Tcpip.reply_error := None |})]))
    = 1%nat
  /\ snd (Tcpip.service_loop true true true
            [Tcpip.FromInput (Some "GET / HTTP/1.1");
             Tcpip.FromRequests
               (Some {| Tcpip.WantReply := true; Tcpip.reply_error := None |});
             Tcpip.FromRequests
               (Some {| Tcpip.WantReply := false; Tcpip.reply_error := None |})])
     = Tcpip.Waiting.
Proof.
  apply (service_loop_answers_each
           [Tcpip.FromInput (Some "GET / HTTP/1.1");
            Tcpip.FromRequests
              (Some {| Tcpip.WantReply := true; Tcpip.reply_error := None |});
            Tcpip.FromRequests
              (Some {| Tcpip.WantReply := false; Tcpip.reply_error := None |})]).
  repeat constructor.
Defined.



Lemma service_loop_actions schedule : forall inputChan errorChan requests,
  forallb loop_action
    (fst (Tcpip.service_loop inputChan errorChan requests schedule)) = true.
Proof.
  induction schedule as [|ev schedule IH]; intros inputChan errorChan requests.
  - simpl. destruct (negb _); reflexivity.
  - cbn [Tcpip.service_loop].
    destruct (negb (inputChan || errorChan || requests)); [reflexivity|].
    destruct ev as [v|v|v].
    + destruct (negb inputChan); [apply IH|].
      destruct v as [input|]; [|apply IH].
      specialize (IH inputChan errorChan requests).
      destruct (Tcpip.service_loop inputChan errorChan requests schedule).
      exact IH.
    + destruct (negb errorChan); [apply IH|].
      destruct v as [[err|]|]; [reflexivity | apply IH | apply IH].
    + destruct (negb requests); [apply IH|].
      destruct v as [request|]; [|apply IH].
      destruct (Tcpip.WantReply request); [|apply IH].
      destruct (Tcpip.reply_error request); [reflexivity|].
      specialize (IH inputChan errorChan requests).
      destruct (Tcpip.service_loop inputChan errorChan requests schedule).
      exact IH.
Qed.

Lemma handleDirectTCPIPChannel_cases newChannel schedule :
  let '(acts, e) := Tcpip.handleDirectTCPIPChannel newChannel schedule in
  (acts = [] /\ exists err, e = Tcpip.Returned (Some err))
  \/ (acts = [Tcpip.Accept] /\ exists err, e = Tcpip.Returned (Some err))
  \/ (exists channelData,
        acts = [Tcpip.Accept;
                Tcpip.LogInfo "New channel accepted" (Some channelData);
                Tcpip.LogPrintln "Unsupported port" (Tcpip.Port channelData);
                Tcpip.LogInfo "Channel closed" None]
        /\ e = Tcpip.Returned None)
  \/ (exists channelData server loop,
        forallb loop_action loop = true
        /\ ((acts = ([Tcpip.Accept;
                      Tcpip.LogInfo "New channel accepted" (Some channelData);
                      Tcpip.Go server] ++ loop
                     ++ [Tcpip.LogInfo "Channel closed" None])%list
             /\ exists err, e = Tcpip.Returned err)
            \/ (acts = ([Tcpip.Accept;
                         Tcpip.LogInfo "New channel accepted" (Some channelData);
                         Tcpip.Go server] ++ loop)%list
                /\ e = Tcpip.Waiting))).
Proof.
  unfold Tcpip.handleDirectTCPIPChannel.
  destruct (Tcpip.Unmarshal (Tcpip.ExtraData newChannel)) as [channelData|err];
    [|left; eauto].
  destruct (Tcpip.accept_error newChannel) as [err|]; [right; left; eauto|].
  destruct (Tcpip.servers !! Tcpip.Port channelData) as [server|];
    [|right; right; left; eauto].
  pose proof (service_loop_actions schedule true true true) as Hacts.
  destruct (Tcpip.service_loop true true true schedule) as [loop e].
  cbn [fst] in Hacts.
  destruct e as [err|]; right; right; right;
    exists channelData, server, loop; (split; [exact Hacts|]);
    [left | right]; eauto.
Qed.

Lemma loop_action_In a loop :
  forallb loop_action loop = true -> loop_action a = false -> ~ In a loop.
Proof.
  intros Hacts Ha Hin. rewrite forallb_forall in Hacts.
  apply Hacts in Hin. congruence.
Qed.

(** X23.  On every path the direct-tcpip handler itself never closes the
    channel, neither side of it, and never rejects it; what it does begins
    with [Accept].  The deferred line [Channel closed] is the last thing it
    has done exactly when it has logged the acceptance and has returned:
    while it waits in the service loop the line is not written. *)
Theorem direct_tcpip_handler_on_every_path (newChannel : Tcpip.NewChannel)
    (schedule : list Tcpip.received) :
  ~ In Tcpip.Close (fst (Tcpip.handleDirectTCPIPChannel newChannel schedule))
  /\ ~ In Tcpip.CloseWrite
         (fst (Tcpip.handleDirectTCPIPChannel newChannel schedule))
  /\ ~ In Tcpip.Reject
         (fst (Tcpip.handleDirectTCPIPChannel newChannel schedule))
  /\ (fst (Tcpip.handleDirectTCPIPChannel newChannel schedule) = []
      \/ head (fst (Tcpip.handleDirectTCPIPChannel newChannel schedule)) =
           Some Tcpip.Accept)
  /\ (last (fst (Tcpip.handleDirectTCPIPChannel newChannel schedule)) =
        Some (Tcpip.LogInfo "Channel closed" None)
      <-> (exists channelData,
             In (Tcpip.LogInfo "New channel accepted" (Some channelData))
               (fst (Tcpip.handleDirectTCPIPChannel newChannel schedule)))
          /\ snd (Tcpip.handleDirectTCPIPChannel newChannel schedule) <>
               Tcpip.Waiting).
Proof.
  generalize (handleDirectTCPIPChannel_cases newChannel schedule).
  destruct (Tcpip.handleDirectTCPIPChannel newChannel schedule) as [acts e].
  cbn [fst snd]. intros H.
  destruct H as [[-> [err ->]] | [[-> [err ->]] | [(channelData & -> & ->)
                | (channelData & server & loop & Hloop & Hcase)]]].
  - simpl. repeat split; auto; try discriminate.
    intros [[channelData []] _].
  - simpl. repeat split; auto; try discriminate;
      try (intros [H|[]]; discriminate).
    intros [[channelData [H|[]]] _]. discriminate.
  - simpl. repeat split; auto; try discriminate;
      try (intros H; repeat (destruct H as [H|H]; [discriminate|]); exact H).
    exists channelData. auto.
  - pose proof (loop_action_In Tcpip.Close loop Hloop eq_refl) as HnoClose.
    pose proof (loop_action_In Tcpip.CloseWrite loop Hloop eq_refl) as HnoCW.
    pose proof (loop_action_In Tcpip.Reject loop Hloop eq_refl) as HnoReject.
    pose proof (loop_action_In (Tcpip.LogInfo "Channel closed" None) loop
                  Hloop eq_refl) as HnoLog.
    destruct Hcase as [[-> [err ->]] | [-> ->]].
    + split; [|split; [|split; [|split]]].
      * intros H. simpl in H. destruct H as [H|[H|[H|H]]]; try discriminate.
        apply in_app_or in H as [H|[H|[]]]; [auto | discriminate].
      * intros H. simpl in H. destruct H as [H|[H|[H|H]]]; try discriminate.
        apply in_app_or in H as [H|[H|[]]]; [auto | discriminate].
      * intros H. simpl in H. destruct H as [H|[H|[H|H]]]; try discriminate.
        apply in_app_or in H as [H|[H|[]]]; [auto | discriminate].
      * right. reflexivity.
      * split.
        -- intros _. split; [|discriminate]. exists channelData.
           simpl. auto.
        -- intros _. rewrite app_assoc. apply last_snoc.
    + split; [|split; [|split; [|split]]].
      * intros H. simpl in H. destruct H as [H|[H|[H|H]]]; try discriminate.
        auto.
      * intros H. simpl in H. destruct H as [H|[H|[H|H]]]; try discriminate.
        auto.
      * intros H. simpl in H. destruct H as [H|[H|[H|H]]]; try discriminate.
        auto.
      * right. reflexivity.
      * split; [|intros [_ H]; exfalso; apply H; reflexivity].
        intros H. exfalso.
        destruct loop as [|a loop' _] using rev_ind.
        -- discriminate H.
        -- rewrite app_assoc, last_snoc in H. injection H as ->.
           apply HnoLog. apply in_or_app. right. left. reflexivity.
Qed.

(** ** New channels *)

Lemma channelDataParsers_cases channelType :
  (channelType = "session"
   /\ exists parser : Channel.channelDataParser,
        Channel.channelDataParsers !! channelType = Some parser
        /\ forall data, parser data = (None, None))
  \/ (channelType = "direct-tcpip"
      /\ exists parser : Channel.channelDataParser,
           Channel.channelDataParsers !! channelType = Some parser
           /\ forall data,
                parser data =
                  match Tcpip.Unmarshal data with
                  | inr err => (None, Some err)
                  | inl tcpipData => (Some tcpipData, None)
                  end)
  \/ (channelType <> "session" /\ channelType <> "direct-tcpip"
      /\ Channel.channelDataParsers !! channelType = None).
Proof.
  unfold Channel.channelDataParsers.
  destruct (decide (channelType = "session")) as [->|Hs].
  - left. split; [reflexivity|]. eexists. split; [|intros; reflexivity].
    apply lookup_insert_eq.
  - destruct (decide (channelType = "direct-tcpip")) as [->|Hd].
    + right. left. split; [reflexivity|]. eexists.
      split; [|intros; reflexivity].
      rewrite lookup_insert_ne by discriminate. apply lookup_singleton_eq.
    + right. right. split; [exact Hs|]. split; [exact Hd|].
      rewrite lookup_insert_ne by congruence.
      apply lookup_singleton_ne. congruence.
Qed.

(** X24.  The open request of a channel is answered at most once, by [Accept]
    or by [Reject], and the handler does not panic: the type assertion on
    the channel data cannot fail.  It is rejected exactly when the type is
    neither [session] nor [direct-tcpip], with the extra data logged in
    base64 and the error of [Reject] returned.  It is left without an answer,
    and without a line in the log, exactly when the type is [direct-tcpip]
    and the extra data do not parse; the error of the parser is what is
    returned. *)
Theorem new_channel_is_answered_at_most_once (h : Channel.handlers)
    (newChannel : Channel.NewChannel) :
  (forall msg,
     snd (Channel.handleNewChannel h newChannel) <> Channel.Panicked msg)
  /\ (length (List.filter answers_request
                (fst (Channel.handleNewChannel h newChannel))) <= 1)%nat
  /\ (In (Channel.Reject "Prohibited" EmptyString)
        (fst (Channel.handleNewChannel h newChannel))
      <-> Channel.ChannelType newChannel <> "session"
          /\ Channel.ChannelType newChannel <> "direct-tcpip")
  /\ (Channel.ChannelType newChannel <> "session"
      /\ Channel.ChannelType newChannel <> "direct-tcpip" ->
      Channel.handleNewChannel h newChannel =
        ([Channel.LogPrintln "Unsupported channel type"
            (Channel.ChannelType newChannel);
          Channel.LogRequested
            (Channel.EncodeToString (Channel.ExtraData newChannel)) false;
          Channel.Reject "Prohibited" EmptyString],
         Channel.Returned (Channel.reject_error newChannel)))
  /\ (fst (Channel.handleNewChannel h newChannel) = []
      <-> Channel.ChannelType newChannel = "direct-tcpip"
          /\ exists err,
               Tcpip.Unmarshal (Channel.ExtraData newChannel) = inr err
               /\ snd (Channel.handleNewChannel h newChannel) =
                    Channel.Returned (Some err)).
Proof.
  unfold Channel.handleNewChannel.
  repeat match goal with
         | |- context [@lookup ?K ?A ?M ?L ?k ?m] =>
             progress change (@lookup K A M L k m)
               with (Channel.channelDataParsers !! Channel.ChannelType newChannel)
         end.
  destruct (channelDataParsers_cases (Channel.ChannelType newChannel))
    as [(Ht & parser & -> & Hp) | [(Ht & parser & -> & Hp) | (Hs & Hd & ->)]].
  - rewrite Hp. unfold Channel.serve. rewrite Ht.
    destruct (Channel.accept_error newChannel) as [e|]; simpl;
      (split; [discriminate|]); (split; [lia|]);
      (split; [split; [intros H; repeat (destruct H as [H|H]; [discriminate|]);
                       contradiction
                      | intros [H _]; contradiction]|]);
      (split; [intros [H _]; contradiction|]);
      (split; [discriminate | intros [H _]; discriminate]).
  - rewrite Hp. unfold Channel.serve. rewrite Ht.
    destruct (Tcpip.Unmarshal (Channel.ExtraData newChannel))
      as [tcpipData|err].
    + destruct (Channel.accept_error newChannel) as [e|]; simpl;
        (split; [discriminate|]); (split; [lia|]);
        (split; [split; [intros H;
                         repeat (destruct H as [H|H]; [discriminate|]);
                         contradiction
                        | intros [_ H]; contradiction]|]);
        (split; [intros [_ H]; contradiction|]);
        (split; [discriminate | intros [_ (err & H & _)]; discriminate]).
    + simpl. split; [discriminate|]. split; [lia|].
      split; [split; [intros [] | intros [_ H]; contradiction]|].
      split; [intros [_ H]; contradiction|].
      split; [intros _ | reflexivity]. split; [reflexivity|].
      exists err. auto.
  - simpl. split; [discriminate|]. split; [lia|].
    split; [split; [auto | intros _; right; right; left; reflexivity]|].
    split; [reflexivity|].
    split; [discriminate | intros [H _]; contradiction].
Qed.

(** X25.  The channel is closed by the handler exactly when [Accept] has
    succeeded.  Then the handler has started the two goroutines and called
    the handler of the channel type, returns the error of that call, and the
    last things it has done are the three deferred calls in their order: the
    input channel is closed, the line [Channel closed] is logged, and the
    channel is closed.  A channel whose acceptance fails is not closed. *)
Theorem accepted_channel_is_closed_last (h : Channel.handlers)
    (newChannel : Channel.NewChannel) :
  (In Channel.Close (fst (Channel.handleNewChannel h newChannel))
   <-> In Channel.Accept (fst (Channel.handleNewChannel h newChannel))
       /\ Channel.accept_error newChannel = None)
  /\ (In Channel.Close (fst (Channel.handleNewChannel h newChannel)) ->
      exists channel_extra_data call,
        fst (Channel.handleNewChannel h newChannel) =
          ([Channel.LogRequested channel_extra_data true; Channel.Accept;
            Channel.GoRequests; Channel.GoInput]
           ++ [call]
           ++ [Channel.CloseInput; Channel.LogClosed; Channel.Close])%list
        /\ ((Channel.ChannelType newChannel = "session"
             /\ channel_extra_data =
                  Channel.EncodeToString (Channel.ExtraData newChannel)
             /\ call = Channel.CallSession
             /\ snd (Channel.handleNewChannel h newChannel) =
                  Channel.Returned (Channel.handleSessionChannel h))
            \/ (Channel.ChannelType newChannel = "direct-tcpip"
                /\ exists tcpipData,
                     Tcpip.Unmarshal (Channel.ExtraData newChannel) =
                       inl tcpipData
                     /\ channel_extra_data =
                          Channel.tcpipChannelData_String tcpipData
                     /\ call = Channel.CallTCPIP (Tcpip.Port tcpipData)
                     /\ snd (Channel.handleNewChannel h newChannel) =
                          Channel.Returned
                            (Channel.handleTCPIPChannel h
                               (Tcpip.Port tcpipData))))).
Proof.
  unfold Channel.handleNewChannel.
  repeat match goal with
         | |- context [@lookup ?K ?A ?M ?L ?k ?m] =>
             progress change (@lookup K A M L k m)
               with (Channel.channelDataParsers !! Channel.ChannelType newChannel)
         end.
  destruct (channelDataParsers_cases (Channel.ChannelType newChannel))
    as [(Ht & parser & -> & Hp) | [(Ht & parser & -> & Hp) | (Hs & Hd & ->)]].
  - rewrite Hp. unfold Channel.serve. rewrite Ht.
    destruct (Channel.accept_error newChannel) as [e|]; simpl.
    + split.
      * split; [intros H; repeat (destruct H as [H|H]; [discriminate|]);
                contradiction
               | intros [_ H]; discriminate].
      * intros H; repeat (destruct H as [H|H]; [discriminate|]); contradiction.
    + split; [split; [auto | auto 10]|]. intros _.
      eexists _, _. split; [reflexivity|]. left. auto.
  - rewrite Hp. unfold Channel.serve. rewrite Ht.
    destruct (Tcpip.Unmarshal (Channel.ExtraData newChannel))
      as [tcpipData|err].
    + destruct (Channel.accept_error newChannel) as [e|]; simpl.
      * split.
        -- split; [intros H; repeat (destruct H as [H|H]; [discriminate|]);
                   contradiction
                  | intros [_ H]; discriminate].
        -- intros H; repeat (destruct H as [H|H]; [discriminate|]);
             contradiction.
      * split; [split; [auto | auto 10]|]. intros _.
        eexists _, _. split; [reflexivity|]. right.
        split; [reflexivity|]. exists tcpipData. auto.
    + simpl. split; [split; [intros [] | intros [[] _]]|]. intros [].
  - simpl. split.
    + split; [intros H; repeat (destruct H as [H|H]; [discriminate|]);
              contradiction
             | intros [H _]; repeat (destruct H as [H|H]; [discriminate|]);
               contradiction].
    + intros H; repeat (destruct H as [H|H]; [discriminate|]); contradiction.
Qed.
